(** * truffle-flattener: a shallow embedding of [index.js]

    The flattener reads a set of Solidity entry points, walks their imports
    depth first, sorts the files topologically and prints them as one file.
    This development embeds [index.js] function by function and states the
    properties of the flattening pipeline over that embedding.

    JavaScript strings are modelled by [string]; a character is one code unit
    below 256.  Indices returned by [indexOf] and [lastIndexOf] are integers,
    with [-1] for "not found", as in the source.  The collaborators that
    [index.js] only calls (Node's [path], [fs] and [process], [find-up],
    the Solidity parser, the import resolver and [tsort]) are the fields of a
    [Platform]; every general theorem holds for an arbitrary platform. *)

From Stdlib Require Import String Ascii ZArith Bool Arith Lia Permutation List.
Import ListNotations.

Local Open Scope string_scope.
Local Open Scope list_scope.

Infix "+++" := String.append (right associativity, at level 60).

(** ** JavaScript string primitives used by the source *)

Definition LF : ascii := ascii_of_nat 10.
Definition CR : ascii := ascii_of_nat 13.
Definition TAB : ascii := ascii_of_nat 9.
Definition nl : string := String LF EmptyString.
Definition tab : string := String TAB EmptyString.

(** [s.startsWith(p)] *)
Definition startsWith (s p : string) : bool := String.prefix p s.

(** [s.substr(n)] for [0 <= n]: the string without its first [n] characters. *)
Fixpoint substr (s : string) (n : nat) : string :=
  match n, s with
  | O, _ => s
  | S k, String _ r => substr r k
  | S _, EmptyString => EmptyString
  end.

(** [s.substring(0, z)]: a negative end counts as [0]. *)
Definition substring0 (s : string) (z : Z) : string :=
  String.substring 0 (Z.to_nat z) s.

(** First position of [needle] in [hay], if any. *)
Fixpoint find_first (needle hay : string) : option nat :=
  if String.prefix needle hay then Some O
  else match hay with
       | EmptyString => None
       | String _ r => option_map S (find_first needle r)
       end.

(** Last position of [needle] in [hay], if any. *)
Fixpoint find_last (needle hay : string) : option nat :=
  match hay with
  | EmptyString => if String.prefix needle hay then Some O else None
  | String _ r =>
      match find_last needle r with
      | Some i => Some (S i)
      | None => if String.prefix needle hay then Some O else None
      end
  end.

Definition index_or_minus_one (o : option nat) : Z :=
  match o with
  | Some i => Z.of_nat i
  | None => (-1)%Z
  end.

(** [hay.indexOf(needle)] and [hay.lastIndexOf(needle)] *)
Definition indexOf (hay needle : string) : Z :=
  index_or_minus_one (find_first needle hay).

Definition lastIndexOf (hay needle : string) : Z :=
  index_or_minus_one (find_last needle hay).

(** [hay.includes(needle)] *)
Definition includes (hay needle : string) : bool :=
  match find_first needle hay with
  | Some _ => true
  | None => false
  end.

(** [array.includes(x)] on an array of strings *)
Fixpoint array_includes (l : list string) (x : string) : bool :=
  match l with
  | [] => false
  | y :: r => String.eqb y x || array_includes r x
  end.

(** [array.join(sep)] *)
Definition join (sep : string) (l : list string) : string :=
  String.concat sep l.

Fixpoint map_chars (f : ascii -> ascii) (s : string) : string :=
  match s with
  | EmptyString => EmptyString
  | String c r => String (f c) (map_chars f r)
  end.

Definition backslash : ascii := ascii_of_nat 92.
Definition slash : ascii := ascii_of_nat 47.

(** [s.replace(/\\/g, "/")] *)
Definition backslashes_to_slashes (s : string) : string :=
  map_chars (fun c => if Ascii.eqb c backslash then slash else c) s.

(** The regular expression classes the source needs.  [\s] and [trim] use
    the same set; below code unit 256 it is TAB, LF, VT, FF, CR, space and
    the no-break space.  ["."] and the multi-line anchors stop at LF and CR. *)
Definition is_whitespace (c : ascii) : bool :=
  let n := nat_of_ascii c in
  (Nat.leb 9 n && Nat.leb n 13) || Nat.eqb n 32 || Nat.eqb n 160.

Definition is_line_terminator (c : ascii) : bool :=
  Ascii.eqb c LF || Ascii.eqb c CR.

(** [s.trim()] *)
Fixpoint trimStart (s : string) : string :=
  match s with
  | EmptyString => EmptyString
  | String c r => if is_whitespace c then trimStart r else s
  end.

Fixpoint trimEnd (s : string) : string :=
  match s with
  | EmptyString => EmptyString
  | String c r =>
      match trimEnd r with
      | EmptyString => if is_whitespace c then EmptyString else String c EmptyString
      | r' => String c r'
      end
  end.

Definition trim (s : string) : string := trimEnd (trimStart s).

(** ** [unique]: [[...new Set(array)]]

    A [Set] keeps its elements in insertion order and ignores the insertion
    of an element it already holds, so the spread lists every element at the
    place of its first occurrence. *)
Fixpoint unique_from (seen : list string) (array : list string) : list string :=
  match array with
  | [] => []
  | x :: r =>
      if array_includes seen x then unique_from seen r
      else x :: unique_from (x :: seen) r
  end.

Definition unique (array : list string) : list string := unique_from [] array.

(** ** The three regular expressions

    A text is cut into lines at every LF and every CR; each line is kept
    with the terminator that ends it ([None] for the last one). *)
Definition line : Type := (string * option ascii)%type.

Fixpoint to_lines (s : string) : list line :=
  match s with
  | EmptyString => [(EmptyString, None)]
  | String c r =>
      if is_line_terminator c then (EmptyString, Some c) :: to_lines r
      else match to_lines r with
           | (b, e) :: ls => (String c b, e) :: ls
           | [] => [(String c EmptyString, None)]
           end
  end.

Definition line_text (l : line) : string :=
  match snd l with
  | Some c => fst l +++ String c EmptyString
  | None => fst l
  end.

Fixpoint of_lines (ls : list line) : string :=
  match ls with
  | [] => EmptyString
  | l :: r => line_text l +++ of_lines r
  end.

Fixpoint ends_with_semicolon (s : string) : bool :=
  match s with
  | EmptyString => false
  | String c EmptyString => Ascii.eqb c ";"%char
  | String _ r => ends_with_semicolon r
  end.

(** A line matched by [/^<keyword>.*;$/gm]: with the [m] flag the anchors sit
    at the ends of a line and ["."] never crosses a terminator, so a match is
    a whole line that starts with the keyword and, after it, ends in [";"]. *)
Definition pragma_line (keyword l : string) : bool :=
  String.prefix keyword l && ends_with_semicolon (substr l (String.length keyword)).

(** [contents.match(re) || []] for such an expression *)
Definition match_pragma (keyword contents : string) : list string :=
  filter (pragma_line keyword) (map fst (to_lines contents)).

(** [contents.replace(re, "")] for such an expression *)
Definition blank_pragma (keyword : string) (l : line) : line :=
  if pragma_line keyword (fst l) then (EmptyString, snd l) else l.

Definition replace_pragma (keyword contents : string) : string :=
  of_lines (map (blank_pragma keyword) (to_lines contents)).

Definition VERSION_SOLIDITY : string := "pragma solidity ".
Definition EXPERIMENTAL_SOLIDITY : string := "pragma experimental ".

(** [IMPORT_SOLIDITY_REGEX = /^\s*import(\s+).*$/gm].  From a line start the
    expression takes every leading white space (line terminators included),
    the word [import], at least one white space (again as many as there are)
    and the rest of the line reached.  [IMPORT_match_length s] is the length
    of the match that starts at the head of [s]. *)
Fixpoint count_whitespace (s : string) : nat :=
  match s with
  | String c r => if is_whitespace c then S (count_whitespace r) else O
  | EmptyString => O
  end.

Fixpoint count_to_line_end (s : string) : nat :=
  match s with
  | String c r => if is_line_terminator c then O else S (count_to_line_end r)
  | EmptyString => O
  end.

Definition IMPORT_match_length (s : string) : option nat :=
  let k := count_whitespace s in
  let s1 := substr s k in
  if String.prefix "import" s1 then
    let s2 := substr s1 6 in
    match count_whitespace s2 with
    | O => None
    | w => Some (k + 6 + w + count_to_line_end (substr s2 w))
    end
  else None.

(** [contents.replace(IMPORT_SOLIDITY_REGEX, "")]: [at_line_start] says
    whether ["^"] holds at the head of [s], [skip] counts the characters of
    the current match still to drop. *)
Fixpoint replace_IMPORT_from (at_line_start : bool) (skip : nat) (s : string) : string :=
  match s with
  | EmptyString => EmptyString
  | String c r =>
      let next := is_line_terminator c in
      match skip with
      | S k => replace_IMPORT_from next k r
      | O =>
          match (if at_line_start then IMPORT_match_length s else None) with
          | Some (S k) => replace_IMPORT_from next k r
          | _ => String c (replace_IMPORT_from next O r)
          end
      end
  end.

Definition replace_IMPORT (contents : string) : string :=
  replace_IMPORT_from true O contents.

(** ** Errors and results

    A value thrown by a collaborator is kept as the text its [toString()]
    gives; [new Error(message)] built by [index.js] keeps its message. *)
Inductive js_error : Type :=
| Thrown (text : string)
| NewError (message : string)
| TypeError (message : string).

Definition toString (e : js_error) : string :=
  match e with
  | Thrown text => text
  | NewError message => "Error: " +++ message
  | TypeError message => "TypeError: " +++ message
  end.

(** What an [async] function settles to.  [OutOfFuel] is not a JavaScript
    result: it marks a run of the embedding cut short by its fuel. *)
Inductive outcome (A : Type) : Type :=
| Returns (a : A)
| Throws (e : js_error)
| OutOfFuel.

Arguments Returns {A} a.
Arguments Throws {A} e.
Arguments OutOfFuel {A}.

Definition bind {A B : Type} (m : outcome A) (k : A -> outcome B) : outcome B :=
  match m with
  | Returns a => k a
  | Throws e => Throws e
  | OutOfFuel => OutOfFuel
  end.

Notation "x <- m ;; k" := (bind m (fun x => k))
  (at level 61, m at next level, right associativity).

Definition lift {A : Type} (r : js_error + A) : outcome A :=
  match r with
  | inl e => Throws e
  | inr a => Returns a
  end.

(** ** The collaborators *)

(** The calls [graph.add(dependency, filePath)] made so far, oldest first. *)
Definition tsort_graph : Type := list (string * string).

(** Functions of Node that read the working directory take it as their first
    argument.  [process_chdir cwd directory] is [process.chdir(directory)]
    called in the working directory [cwd]: what it throws, the working
    directory then staying what it was, or the working directory it leads
    to, the absolute path that [process.cwd()] returns afterwards.
    [parser_import_paths] gives the [path] of the import directives that
    [parser.visit] meets in the tree [parser.parse] builds, or what the
    parser throws.  [tsort_add] receives the calls made so far on the graph
    and the arguments of a new call [graph.add(a, b)], and gives what that
    call throws, if it throws.  [tsort_sort] receives the calls
    [graph.add(a, b)] made on a fresh [tsort()] graph and gives what
    [graph.sort()] returns or throws.  [concat_of_undefined] is the message
    of the [TypeError] that the engine throws when [concat] is read from
    [undefined]. *)
Record Platform : Type := {
  path_sep : string;
  path_join : string -> string -> string;
  path_normalize : string -> string;
  path_resolve : string -> string -> string;
  path_relative : string -> string -> string -> string;
  process_chdir : string -> string -> js_error + string;
  fs_existsSync : string -> string -> bool;
  fs_readFileSync : string -> string -> js_error + string;
  findUp : string -> list string -> option string;
  Resolver_resolve : string -> string -> js_error + string;
  parser_import_paths : string -> js_error + list string;
  tsort_add : tsort_graph -> string -> string -> option js_error;
  tsort_sort : tsort_graph -> js_error + list string;
  concat_of_undefined : string
}.

(** What [resolve] returns: [{ fileContents, filePath }]. *)
Module Resolved.
Record t : Type := { fileContents : string; filePath : string }.
End Resolved.

(** What [cleanFile] returns: [[clean, version, experimentals]]. *)
Definition cleaned : Type := (string * list string * list string)%type.

Section Flattener.

Variable P : Platform.

(** ** [index.js] *)

Definition resolve (cwd importPath : string) : outcome Resolved.t :=
  filePath <- lift (Resolver_resolve P cwd importPath) ;;
  fileContents <- lift (fs_readFileSync P cwd filePath) ;;
  Returns (Resolved.Build_t fileContents filePath).

Definition getDirPath (filePath : string) : string :=
  let index1 := lastIndexOf filePath (path_sep P) in
  let index2 := lastIndexOf filePath "/" in
  substring0 filePath (Z.max index1 index2).

Definition getNormalizedDependencyPath (dependency filePath : string) : string :=
  let dependency :=
    if startsWith dependency "./" || startsWith dependency "../"
    then path_normalize P (path_join P (getDirPath filePath) dependency)
    else dependency in
  backslashes_to_slashes dependency.

Definition getDependencies (filePath fileContents : string) : outcome (list string) :=
  match parser_import_paths P fileContents with
  | inr paths =>
      Returns (map (fun path => getNormalizedDependencyPath path filePath) paths)
  | inl error =>
      Throws (NewError ("Could not parse " +++ filePath +++
                        " for extracting its imports: " +++ toString error))
  end.

(** The [for] loop of [dependenciesDfs]; [dfs] is the recursive call. *)
Fixpoint dependencies_loop
    (dfs : tsort_graph -> list string -> string -> outcome (tsort_graph * list string))
    (filePath : string) (dependencies : list string)
    (graph : tsort_graph) (visitedFiles : list string)
  : outcome (tsort_graph * list string) :=
  match dependencies with
  | [] => Returns (graph, visitedFiles)
  | dependency :: rest =>
      match tsort_add P graph dependency filePath with
      | Some e => Throws e
      | None =>
          let graph := graph ++ [(dependency, filePath)] in
          if negb (array_includes visitedFiles dependency) then
            st <- dfs graph visitedFiles dependency ;;
            dependencies_loop dfs filePath rest (fst st) (snd st)
          else dependencies_loop dfs filePath rest graph visitedFiles
      end
  end.

Fixpoint dependenciesDfs (fuel : nat) (cwd : string)
    (graph : tsort_graph) (visitedFiles : list string) (filePath : string)
  : outcome (tsort_graph * list string) :=
  match fuel with
  | O => OutOfFuel
  | S fuel =>
      let visitedFiles := visitedFiles ++ [filePath] in
      resolved <- resolve cwd filePath ;;
      dependencies <- getDependencies (Resolved.filePath resolved) (Resolved.fileContents resolved) ;;
      dependencies_loop (dependenciesDfs fuel cwd) filePath dependencies graph visitedFiles
  end.

(** The [for] loop of [getSortedFilePaths] over the entry points. *)
Fixpoint entryPoints_loop (fuel : nat) (cwd : string) (entryPoints : list string)
    (graph : tsort_graph) (visitedFiles : list string)
  : outcome (tsort_graph * list string) :=
  match entryPoints with
  | [] => Returns (graph, visitedFiles)
  | entryPoint :: rest =>
      st <- dependenciesDfs fuel cwd graph visitedFiles entryPoint ;;
      entryPoints_loop fuel cwd rest (fst st) (snd st)
  end.

Definition getFilePathsFromTruffleRoot (cwd : string) (filePaths : list string)
    (truffleRoot : string) : list string :=
  map (fun f => path_relative P cwd truffleRoot (path_resolve P cwd f)) filePaths.

Definition fileNameToGlobalName (cwd fileName truffleRoot : string) : string :=
  let globalName := hd "undefined" (getFilePathsFromTruffleRoot cwd [fileName] truffleRoot) in
  if negb (indexOf globalName "node_modules/" =? -1)%Z then
    substr globalName
      (Z.to_nat (indexOf globalName "node_modules/" + Z.of_nat (String.length "node_modules/")))
  else globalName.

Definition cycle_message (visitedFiles : list string) : string :=
  "There is a cycle in the dependency" +++
  " graph, can't compute topological ordering. Files:" +++ nl +++ tab +++
  join (nl +++ tab) visitedFiles.

(** When [graph.sort()] throws anything but the cycle error, the [catch]
    block falls through with [topologicalSortedFiles] still undefined and
    reading [concat] from it throws the [TypeError] of the engine. *)
Definition getSortedFilePaths (fuel : nat) (cwd : string)
    (entryPoints : list string) (truffleRoot : string) : outcome (list string) :=
  st <- entryPoints_loop fuel cwd entryPoints [] [] ;;
  let graph := fst st in
  let visitedFiles := snd st in
  topologicalSortedFiles <-
    match tsort_sort P graph with
    | inr sorted => Returns sorted
    | inl e =>
        if includes (toString e) "Error: There is a cycle in the graph."
        then Throws (NewError (cycle_message visitedFiles))
        else Throws (TypeError (concat_of_undefined P))
    end ;;
  let withEntries :=
    map (fun f => fileNameToGlobalName cwd f truffleRoot)
        (topologicalSortedFiles ++ entryPoints) in
  let files := unique withEntries in
  Returns files.

Definition cleanFile (cwd filePath : string) : outcome cleaned :=
  resolved <- resolve cwd filePath ;;
  let contents := Resolved.fileContents resolved in
  let version := match_pragma VERSION_SOLIDITY contents in
  let experimentals := match_pragma EXPERIMENTAL_SOLIDITY contents in
  let clean :=
    trim (replace_pragma EXPERIMENTAL_SOLIDITY
            (replace_pragma VERSION_SOLIDITY
               (replace_IMPORT contents))) in
  Returns (clean, version, experimentals).

(** [Promise.all(files.map(cleanFile))]: the results in the order of [files].
    When several files fail the promise rejects with the rejection that
    settles first; the embedding reports the leftmost one. *)
Fixpoint all_cleanFile (cwd : string) (files : list string) : outcome (list cleaned) :=
  match files with
  | [] => Returns []
  | f :: rest =>
      c <- cleanFile cwd f ;;
      cs <- all_cleanFile cwd rest ;;
      Returns (c :: cs)
  end.

(** The [reduce] of [printConcatenation], from index [i] on. *)
Fixpoint reduce_cleanFiles (files : list string) (i : nat) (cleanFiles : list cleaned)
    (acc : cleaned) : cleaned :=
  match cleanFiles with
  | [] => acc
  | (output, versions, experimentals) :: rest =>
      let '(output_acc, versions_acc, experimentals_acc) := acc in
      reduce_cleanFiles files (S i) rest
        (output_acc +++ nl +++ "// File: " +++ nth i files "undefined" +++ nl +++ output,
         versions_acc ++ versions,
         experimentals_acc ++ experimentals)
  end.

(** [printConcatenation] returns the chunks it passes to [log], in order. *)
Definition printConcatenation (cwd : string) (files : list string) : outcome (list string) :=
  cleanFiles <- all_cleanFile cwd files ;;
  let '(output, versions, experimentals) :=
    reduce_cleanFiles files O cleanFiles (EmptyString, [], []) in
  Returns ((match versions with
            | v :: _ => [v]
            | [] => []
            end)
           ++ unique experimentals
           ++ [output]).

Definition root_not_found_message : string :=
  nl +++ "      Truffle Flattener must be run inside a Truffle project:" +++
  nl +++ "      truffle.js or truffle-config.js not found" +++
  nl +++ "    ".

Definition getTruffleRoot (cwd : string) : outcome string :=
  match findUp P cwd ["truffle.js"; "truffle-config.js"] with
  | Some truffleConfigPath =>
      if String.eqb truffleConfigPath EmptyString
      then Throws (NewError root_not_found_message)
      else Returns (getDirPath truffleConfigPath)
  | None => Throws (NewError root_not_found_message)
  end.

(** The state of a [flatten] call: the process working directory and the
    chunks that [log] has taken so far. *)
Record process_state : Type := {
  cwd : string;
  logged : list string
}.

(** The callback [log]: what it throws, if it throws, on a chunk, given the
    chunks it has taken before. *)
Definition sink : Type := list string -> string -> option js_error.

(** A [log] that takes every chunk, as the one of [module.exports]. *)
Definition never_throws : sink := fun _ _ => None.

(** The calls [log(chunk)] that [printConcatenation] makes, in order: the
    first that throws ends them. *)
Fixpoint log_chunks (log : sink) (logged : list string) (chunks : list string)
    : option js_error * list string :=
  match chunks with
  | [] => (None, logged)
  | chunk :: rest =>
      match log logged chunk with
      | Some e => (Some e, logged)
      | None => log_chunks log (logged ++ [chunk]) rest
      end
  end.

Definition truthy (root : option string) : bool :=
  match root with
  | Some r => negb (String.eqb r EmptyString)
  | None => false
  end.

(** [flatten(filePaths, log, root)].  A call of [process.chdir] that throws
    leaves the working directory where it was.  [printConcatenation] has
    read every file when it passes the first chunk to [log]. *)
Definition flatten (fuel : nat) (st : process_state)
    (filePaths : list string) (log : sink) (root : option string)
  : outcome unit * process_state :=
  if truthy root && negb (fs_existsSync P (cwd st) (match root with Some r => r | None => EmptyString end))
  then (Throws (NewError "The specified root directory does not exist"), st)
  else
    match (if truthy root
           then Returns (match root with Some r => r | None => EmptyString end)
           else getTruffleRoot (cwd st)) with
    | Throws e => (Throws e, st)
    | OutOfFuel => (OutOfFuel, st)
    | Returns truffleRoot =>
        let filePathsFromTruffleRoot :=
          getFilePathsFromTruffleRoot (cwd st) filePaths truffleRoot in
        let wd := cwd st in
        match process_chdir P (cwd st) truffleRoot with
        | inl e => (Throws e, st)
        | inr directory =>
            let st := {| cwd := directory; logged := logged st |} in
            match getSortedFilePaths fuel (cwd st) filePathsFromTruffleRoot truffleRoot with
            | Throws e => (Throws e, st)
            | OutOfFuel => (OutOfFuel, st)
            | Returns sortedFiles =>
                match printConcatenation (cwd st) sortedFiles with
                | Throws e => (Throws e, st)
                | OutOfFuel => (OutOfFuel, st)
                | Returns chunks =>
                    match log_chunks log (logged st) chunks with
                    | (Some e, taken) => (Throws e, {| cwd := cwd st; logged := taken |})
                    | (None, taken) =>
                        let st := {| cwd := cwd st; logged := taken |} in
                        match process_chdir P (cwd st) wd with
                        | inl e => (Throws e, st)
                        | inr directory =>
                            (Returns tt, {| cwd := directory; logged := logged st |})
                        end
                    end
                end
            end
        end
    end.

(** [module.exports]: the chunks joined, each followed by a line feed. *)
Definition flattener (fuel : nat) (cwd0 : string) (filePaths : list string)
    (root : option string) : outcome string * process_state :=
  let '(r, st) :=
    flatten fuel {| cwd := cwd0; logged := [] |} filePaths never_throws root in
  (_ <- r ;; Returns (String.concat EmptyString (map (fun str => str +++ nl) (logged st))), st).

End Flattener.

(** ** A POSIX platform

    The general theorems quantify over the platform.  The scenarios below run
    the flattener on one: Node's [path] for POSIX, the [tsort] graph, a file
    system given as a table, and a line scanner in place of the parser. *)
Module Posix.

Fixpoint split_from (acc : string) (s : string) : list string :=
  match s with
  | EmptyString => [acc]
  | String c r =>
      if Ascii.eqb c slash then acc :: split_from EmptyString r
      else split_from (acc +++ String c EmptyString) r
  end.

Definition split (s : string) : list string := split_from EmptyString s.

Definition isAbsolute (s : string) : bool := String.prefix "/" s.

Fixpoint ends_with_slash (s : string) : bool :=
  match s with
  | EmptyString => false
  | String c EmptyString => Ascii.eqb c slash
  | String _ r => ends_with_slash r
  end.

(** [normalizeString]: the segments kept so far are held innermost first. *)
Fixpoint normalize_segments (allowAboveRoot : bool) (kept : list string)
    (segments : list string) : list string :=
  match segments with
  | [] => rev kept
  | seg :: rest =>
      if String.eqb seg EmptyString || String.eqb seg "." then
        normalize_segments allowAboveRoot kept rest
      else if String.eqb seg ".." then
        match kept with
        | top :: below =>
            if String.eqb top ".."
            then normalize_segments allowAboveRoot (".." :: kept) rest
            else normalize_segments allowAboveRoot below rest
        | [] =>
            if allowAboveRoot
            then normalize_segments allowAboveRoot [".."] rest
            else normalize_segments allowAboveRoot [] rest
        end
      else normalize_segments allowAboveRoot (seg :: kept) rest
  end.

Definition normalizeString (path : string) (allowAboveRoot : bool) : string :=
  String.concat "/" (normalize_segments allowAboveRoot [] (split path)).

Definition normalize (path : string) : string :=
  if String.eqb path EmptyString then "."
  else
    let absolute := isAbsolute path in
    let trailingSeparator := ends_with_slash path in
    let path := normalizeString path (negb absolute) in
    if String.eqb path EmptyString then
      if absolute then "/" else if trailingSeparator then "./" else "."
    else
      let path := if trailingSeparator then path +++ "/" else path in
      if absolute then "/" +++ path else path.

Definition join (a b : string) : string :=
  if String.eqb a EmptyString then
    if String.eqb b EmptyString then "." else normalize b
  else if String.eqb b EmptyString then normalize a
  else normalize (a +++ "/" +++ b).

(** [path.resolve(f)] in the working directory [cwd], an absolute path. *)
Definition resolve (cwd f : string) : string :=
  if isAbsolute f then "/" +++ normalizeString f false
  else if String.eqb f EmptyString then "/" +++ normalizeString cwd false
  else "/" +++ normalizeString (cwd +++ "/" +++ f) false.

Fixpoint drop_common (a b : list string) : list string * list string :=
  match a, b with
  | x :: a', y :: b' => if String.eqb x y then drop_common a' b' else (a, b)
  | _, _ => (a, b)
  end.

Definition segments_of (absolute : string) : list string :=
  normalize_segments false [] (split absolute).

Definition relative (cwd from to : string) : string :=
  if String.eqb from to then EmptyString
  else
    let from := resolve cwd from in
    let to := resolve cwd to in
    let '(up, down) := drop_common (segments_of from) (segments_of to) in
    String.concat "/" (map (fun _ => "..") up ++ down).

End Posix.

(** The sorter.  The [tsort] package is a dependency of the repository and
    its source is not part of it.  Section 4.3 of the specification asks for
    a depth-first post-order with a marker for the nodes on the stack; the
    graph keeps, for every node in order of first mention, the nodes to put
    before it. *)
Module Tsort.

Definition nodes : Type := list (string * list string).

Fixpoint has_node (ns : nodes) (n : string) : bool :=
  match ns with
  | [] => false
  | (m, _) :: r => String.eqb m n || has_node r n
  end.

Definition ensure (ns : nodes) (n : string) : nodes :=
  if has_node ns n then ns else ns ++ [(n, [])].

Fixpoint push_before (ns : nodes) (n before : string) : nodes :=
  match ns with
  | [] => []
  | (m, bs) :: r =>
      if String.eqb m n then (m, bs ++ [before]) :: r
      else (m, bs) :: push_before r n before
  end.

(** Modelled from the spec: [graph.add(a, b)], which asks for [a] before
    [b]. *)
Definition add (ns : nodes) (a b : string) : nodes :=
  push_before (ensure (ensure ns a) b) b a.

Definition build (g : tsort_graph) : nodes :=
  fold_left (fun ns e => add ns (fst e) (snd e)) g [].

Fixpoint before_of (ns : nodes) (n : string) : list string :=
  match ns with
  | [] => []
  | (m, bs) :: r => if String.eqb m n then bs else before_of r n
  end.

Record marks : Type := {
  temp : list string;
  perm : list string;
  sorted : list string
}.

Definition cycle_error : js_error :=
  Thrown "Error: There is a cycle in the graph. It is not possible to derive a topological sort.".

Fixpoint visit_all (visit : marks -> string -> js_error + marks)
    (m : marks) (l : list string) : js_error + marks :=
  match l with
  | [] => inr m
  | n :: r =>
      match visit m n with
      | inr m' => visit_all visit m' r
      | inl e => inl e
      end
  end.

(** Modelled from the spec: the depth-first visit of section 4.3.  A node
    marked [temp] is on the stack, and meeting it again is a cycle; a node
    marked [perm] is done.  The fuel bounds the depth of the recursion;
    [sort] gives more than there are nodes, and that is never used up. *)
Fixpoint visit (fuel : nat) (ns : nodes) (m : marks) (node : string) : js_error + marks :=
  match fuel with
  | O => inl (Thrown "RangeError: Maximum call stack size exceeded")
  | S fuel =>
      if array_includes (temp m) node then inl cycle_error
      else if array_includes (perm m) node then inr m
      else
        let m := {| temp := node :: temp m; perm := perm m; sorted := sorted m |} in
        match visit_all (visit fuel ns) m (before_of ns node) with
        | inl e => inl e
        | inr m =>
            inr {| temp := filter (fun x => negb (String.eqb x node)) (temp m);
                   perm := node :: perm m;
                   sorted := sorted m ++ [node] |}
        end
  end.

(** Modelled from the spec: [graph.sort()], the nodes in the order in which
    their visits end, starting the visits in the order of first mention. *)
Definition sort (g : tsort_graph) : js_error + list string :=
  let ns := build g in
  match visit_all (visit (S (length ns)) ns)
          {| temp := []; perm := []; sorted := [] |} (map fst ns) with
  | inl e => inl e
  | inr m => inr (sorted m)
  end.

End Tsort.

(** A file system given as a table from absolute paths to contents, with the
    resolver looking in the working directory and then in its
    [node_modules], and a scanner for lines of the form [import "path";]. *)
Module World.

Definition files : Type := list (string * string).

Definition double_quote : ascii := ascii_of_nat 34.

Definition quoted (s : string) : string :=
  String double_quote s +++ String double_quote EmptyString.

Fixpoint read (fs : files) (path : string) : option string :=
  match fs with
  | [] => None
  | (p, c) :: r => if String.eqb p path then Some c else read r path
  end.

Definition exists_in (fs : files) (path : string) : bool :=
  match read fs path with
  | Some _ => true
  | None => false
  end.

Definition readFileSync (fs : files) (cwd path : string) : js_error + string :=
  match read fs (Posix.resolve cwd path) with
  | Some c => inr c
  | None => inl (Thrown ("Error: ENOENT: no such file or directory, open '" +++ path +++ "'"))
  end.

Definition resolver (fs : files) (cwd importPath : string) : js_error + string :=
  let here := Posix.resolve cwd importPath in
  let module := Posix.resolve cwd ("node_modules/" +++ importPath) in
  if exists_in fs here then inr here
  else if exists_in fs module then inr module
  else inl (Thrown ("Error: None of the sub-resolvers resolved " +++ quoted importPath +++ " location.")).

Fixpoint until_quote (s : string) : option string :=
  match s with
  | EmptyString => None
  | String c r =>
      if Ascii.eqb c double_quote then Some EmptyString
      else option_map (String c) (until_quote r)
  end.

Fixpoint scan_imports (ls : list string) : js_error + list string :=
  match ls with
  | [] => inr []
  | l :: r =>
      let l := trimStart l in
      if String.prefix "import" l then
        if String.prefix ("import " +++ String double_quote EmptyString) l then
          match until_quote (substr l 8), scan_imports r with
          | Some p, inr ps => inr (p :: ps)
          | Some _, inl e => inl e
          | None, _ => inl (Thrown "ParserError: missing closing quote")
          end
        else inl (Thrown "ParserError: mismatched input, expecting a string literal")
      else scan_imports r
  end.

Definition import_paths (contents : string) : js_error + list string :=
  scan_imports (map fst (to_lines contents)).

(** A directory exists when some file lies below it. *)
Definition exists_dir (fs : files) (dir : string) : bool :=
  existsb (fun f => String.prefix (dir +++ "/") (fst f)) fs.

Definition existsSync (fs : files) (cwd path : string) : bool :=
  exists_in fs (Posix.resolve cwd path) || exists_dir fs (Posix.resolve cwd path).

(** [process.chdir]: the empty path names no directory; any other path is
    resolved in the working directory and has to be a directory. *)
Definition chdir (fs : files) (cwd directory : string) : js_error + string :=
  let p := Posix.resolve cwd directory in
  if String.eqb directory EmptyString then
    inl (Thrown ("Error: ENOENT: no such file or directory, chdir '" +++ cwd +++ "' -> ''"))
  else if exists_in fs p then
    inl (Thrown ("Error: ENOTDIR: not a directory, chdir '" +++ cwd +++ "' -> '"
                 +++ directory +++ "'"))
  else if String.eqb p "/" || exists_dir fs p then inr p
  else
    inl (Thrown ("Error: ENOENT: no such file or directory, chdir '" +++ cwd +++ "' -> '"
                 +++ directory +++ "'")).

(** [find-up]: the first of [names] found in [cwd] or, failing that, in the
    nearest of its parents that holds one. *)
Fixpoint find_up_from (fs : files) (segments : list string) (depth : nat)
    (names : list string) : option string :=
  let dir := "/" +++ String.concat "/" (firstn depth segments) in
  match find (exists_in fs) (map (fun n => Posix.resolve dir n) names) with
  | Some found => Some found
  | None =>
      match depth with
      | O => None
      | S depth => find_up_from fs segments depth names
      end
  end.

Definition find_up (fs : files) (cwd : string) (names : list string) : option string :=
  let segments := Posix.segments_of (Posix.resolve "/" cwd) in
  find_up_from fs segments (length segments) names.

Definition platform (fs : files) : Platform := {|
  path_sep := "/";
  path_join := Posix.join;
  path_normalize := Posix.normalize;
  path_resolve := Posix.resolve;
  path_relative := Posix.relative;
  process_chdir := chdir fs;
  fs_existsSync := existsSync fs;
  fs_readFileSync := readFileSync fs;
  findUp := find_up fs;
  Resolver_resolve := resolver fs;
  parser_import_paths := import_paths;
  tsort_add := fun _ _ _ => None;
  tsort_sort := Tsort.sort;
  concat_of_undefined := "Cannot read properties of undefined (reading 'concat')"
|}.

End World.

(** ** Vocabulary of the properties *)

(** Position of the first occurrence of [x] in [l]. *)
Fixpoint position (x : string) (l : list string) : option nat :=
  match l with
  | [] => None
  | y :: r => if String.eqb y x then Some O else option_map S (position x r)
  end.

(** [a] is listed strictly before [b]: both occur, and [a] first. *)
Definition precedes (a b : string) (l : list string) : Prop :=
  exists i j, position a l = Some i /\ position b l = Some j /\ i < j.

Definition precedes_b (a b : string) (l : list string) : bool :=
  match position a l, position b l with
  | Some i, Some j => Nat.ltb i j
  | _, _ => false
  end.

(** What a topological sorter owes for the graph [g]: every [add(d, t)] puts
    [d] before [t]. *)
Definition topological_b (g : tsort_graph) (sorted : list string) : bool :=
  forallb (fun e => precedes_b (fst e) (snd e) sorted) g.

(** A walk along the edges of [g], from [a] through [via] to [b]. *)
Fixpoint walk (g : tsort_graph) (a : string) (via : list string) (b : string) : Prop :=
  match via with
  | [] => In (a, b) g
  | c :: rest => In (a, c) g /\ walk g c rest b
  end.

Definition has_cycle (g : tsort_graph) : Prop :=
  exists n via, walk g n via n.

(** The sorter reports a cycle in the way [getSortedFilePaths] recognises. *)
Definition reports_cycle (r : js_error + list string) : Prop :=
  exists e, r = inl e /\
    includes (toString e) "Error: There is a cycle in the graph." = true.

Definition no_backslash (s : string) : Prop :=
  forall pre suf, s <> pre +++ String backslash suf.

(** The concatenated bodies: one [// File:] marker per file, then its body. *)
Fixpoint sections (files bodies : list string) : string :=
  match files, bodies with
  | f :: files, b :: bodies =>
      nl +++ "// File: " +++ f +++ nl +++ b +++ sections files bodies
  | _, _ => EmptyString
  end.

Definition edge_dec (e e' : string * string) : {e = e'} + {e <> e'}.
Proof. decide equality; apply string_dec. Defined.

Section Vocabulary.

Variable P : Platform.

(** What the sorter owes on the graph [g]: a list it returns is topological,
    and an error it throws is the cycle error. *)
Definition sorter_contract (g : tsort_graph) : Prop :=
  (forall sorted, tsort_sort P g = inr sorted -> topological_b g sorted = true)
  /\ (forall err, tsort_sort P g = inl err ->
        includes (toString err) "Error: There is a cycle in the graph." = true).

(** The contents [resolve] finds for [f]; empty when it fails. *)
Definition contents_of (cwd f : string) : string :=
  match resolve P cwd f with
  | Returns r => Resolved.fileContents r
  | _ => EmptyString
  end.

(** The dependencies [dependenciesDfs] finds in [f]; none when it fails. *)
Definition dependencies_of (cwd f : string) : list string :=
  match (resolved <- resolve P cwd f ;;
         getDependencies P (Resolved.filePath resolved) (Resolved.fileContents resolved)) with
  | Returns deps => deps
  | _ => []
  end.

(** The edges one traversal of [f] adds to the graph. *)
Definition edges_of (cwd f : string) : tsort_graph :=
  map (fun d => (d, f)) (dependencies_of cwd f).

(** What one call of [dependenciesDfs] on [x] does to the graph and to the
    visited files: [x] and the files [new] are visited, none of [new] was
    visited before, and every visit adds the edges of the visited file. *)
Definition traversal (cwd : string) (g : tsort_graph) (v : list string) (x : string)
    (g' : tsort_graph) (v' : list string) : Prop :=
  exists new,
    v' = v ++ x :: new /\
    NoDup new /\
    (forall z, In z new -> ~ In z v /\ z <> x) /\
    (forall e, count_occ edge_dec g' e =
               count_occ edge_dec g e
               + count_occ edge_dec (flat_map (edges_of cwd) (x :: new)) e).

(** The text of a file after the three replacements, before [trim]. *)
Definition stripped (contents : string) : string :=
  replace_pragma EXPERIMENTAL_SOLIDITY
    (replace_pragma VERSION_SOLIDITY (replace_IMPORT contents)).


Definition versions_of (cwd f : string) : list string :=
  match_pragma VERSION_SOLIDITY (contents_of cwd f).

Definition experimentals_of (cwd f : string) : list string :=
  match_pragma EXPERIMENTAL_SOLIDITY (contents_of cwd f).

(** The project root [flatten] settles on, when it gets that far. *)
Definition project_root (st : process_state) (root : option string) : outcome string :=
  if truthy root && negb (fs_existsSync P (cwd st) (match root with Some r => r | None => EmptyString end))
  then Throws (NewError "The specified root directory does not exist")
  else if truthy root
       then Returns (match root with Some r => r | None => EmptyString end)
       else getTruffleRoot P (cwd st).


End Vocabulary.


(** The lines [to_lines] produces: no terminator inside a line, a terminator
    after every line but the last. *)
Fixpoint has_no_terminator (s : string) : bool :=
  match s with
  | EmptyString => true
  | String c r => negb (is_line_terminator c) && has_no_terminator r
  end.

Fixpoint well_cut (ls : list line) : bool :=
  match ls with
  | [] => false
  | (b, e) :: rest =>
      has_no_terminator b &&
      match e, rest with
      | None, [] => true
      | Some c, _ :: _ => is_line_terminator c && well_cut rest
      | _, _ => false
      end
  end.

(** The files of [universe] not yet visited: what bounds the depth of the
    traversal. *)
Definition unvisited (universe visited : list string) : list string :=
  filter (fun u => negb (array_includes visited u)) universe.

(** The marks of the sorter agree with the list sorted so far: the nodes done
    are the nodes listed, no node on the stack is done, and every node done
    comes after the nodes to put before it. *)
Definition marks_consistent (ns : Tsort.nodes) (m : Tsort.marks) : Prop :=
  (forall x, In x (Tsort.sorted m) <-> In x (Tsort.perm m))
  /\ (forall x, In x (Tsort.temp m) -> ~ In x (Tsort.perm m))
  /\ (forall n b, In n (Tsort.perm m) -> In b (Tsort.before_of ns n) ->
                  precedes b n (Tsort.sorted m)).

(** ** A sample project

    The files of a Truffle project rooted at [/proj], on the platform above.
    [Token] imports [SafeMath] directly and through [Ownable]; [Lone] imports
    nothing; [Ping] and [Pong] import each other; [Broken] does not parse;
    [Main] imports [Lib.sol] by a bare path; the package [x] under
    [node_modules] has a file [T.sol], and so has the project's own folder
    [x]. *)
Module Sample.

Definition V1 : string := "pragma solidity ^0.5.0;".
Definition V2 : string := "pragma solidity ^0.4.24;".
Definition ABI : string := "pragma experimental ABIEncoderV2;".

Definition project : World.files := [
  ("/proj/truffle.js", "module.exports = {};");
  ("/proj/contracts/Token.sol",
     V1 +++ nl +++ ABI +++ nl +++
     "import " +++ World.quoted "./SafeMath.sol" +++ ";" +++ nl +++
     "import " +++ World.quoted "./Ownable.sol" +++ ";" +++ nl +++
     "contract Token is Ownable {}" +++ nl);
  ("/proj/contracts/Ownable.sol",
     "pragma solidity ^0.5.2;" +++ nl +++ ABI +++ nl +++
     "import " +++ World.quoted "./SafeMath.sol" +++ ";" +++ nl +++
     "contract Ownable {}" +++ nl);
  ("/proj/contracts/SafeMath.sol",
     V2 +++ nl +++ "library SafeMath {}" +++ nl);
  ("/proj/contracts/F1.sol",
     V1 +++ nl +++ "import " +++ World.quoted "./F2.sol" +++ ";" +++ nl +++
     "contract F1 {}" +++ nl);
  ("/proj/contracts/F2.sol",
     V2 +++ nl +++ "contract F2 {}" +++ nl);
  ("/proj/contracts/Lone.sol",
     V1 +++ nl +++ "contract Lone {}" +++ nl);
  ("/proj/contracts/Ping.sol",
     "import " +++ World.quoted "./Pong.sol" +++ ";" +++ nl +++ "contract Ping {}");
  ("/proj/contracts/Pong.sol",
     "import " +++ World.quoted "./Ping.sol" +++ ";" +++ nl +++ "contract Pong {}");
  ("/proj/contracts/Broken.sol",
     "import ;" +++ nl +++ "contract Broken {}");
  ("/proj/Main.sol",
     "import " +++ World.quoted "Lib.sol" +++ ";" +++ nl +++ "contract Main {}");
  ("/proj/Lib.sol", "library Lib {}");
  ("/proj/node_modules/x/T.sol",
     "import " +++ World.quoted "D.sol" +++ ";" +++ nl +++ "contract T is D {}");
  ("/proj/D.sol",
     "import " +++ World.quoted "x/T.sol" +++ ";" +++ nl +++ "contract D {}");
  ("/proj/x/T.sol", "contract T {}")
].

Definition W : Platform := World.platform project.

Definition at_root : process_state := {| cwd := "/proj"; logged := [] |}.



(** A third project.  [G1] and [G2] both hold the pragma [ABIEncoderV2] on a
    line of its own; [G2], which imports [G1], starts with the same pragma
    indented. *)
Definition indented : World.files := [
  ("/proj/truffle.js", "module.exports = {};");
  ("/proj/G1.sol", ABI +++ nl +++ "contract G1 {}");
  ("/proj/G2.sol",
     "  " +++ ABI +++ nl +++ ABI +++ nl +++
     "import " +++ World.quoted "./G1.sol" +++ ";" +++ nl +++ "contract G2 {}")
].

Definition Indented : Platform := World.platform indented.

End Sample.

(** ** Vocabulary of the further properties *)

(** [t] is [s] with some of its characters deleted. *)
Inductive Subsequence : string -> string -> Prop :=
| Subsequence_empty : Subsequence EmptyString EmptyString
| Subsequence_keep (c : ascii) (t s : string) :
    Subsequence t s -> Subsequence (String c t) (String c s)
| Subsequence_drop (c : ascii) (t s : string) :
    Subsequence t s -> Subsequence t (String c s).

(** The first and the last character of a string. *)
Definition first_char (s : string) : option ascii :=
  match s with
  | EmptyString => None
  | String c _ => Some c
  end.

Fixpoint last_char (s : string) : option ascii :=
  match s with
  | EmptyString => None
  | String c EmptyString => Some c
  | String _ r => last_char r
  end.

Definition not_whitespace (o : option ascii) : Prop :=
  match o with
  | Some c => is_whitespace c = false
  | None => True
  end.

Fixpoint all_whitespace (s : string) : bool :=
  match s with
  | EmptyString => true
  | String c r => is_whitespace c && all_whitespace r
  end.

(** [z] resolves and its imports can be read. *)
Definition resolves_and_parses (P : Platform) (cwd z : string) : Prop :=
  exists r deps,
    resolve P cwd z = Returns r /\
    getDependencies P (Resolved.filePath r) (Resolved.fileContents r) = Returns deps.

(** What a part of the traversal started on [roots] adds to the graph [g] and
    to the visited files [v]: the roots are visited; a file newly visited is
    a root or a dependency in the graph; the dependency of every new edge is
    visited; every file newly visited resolved and was parsed. *)
Definition reaches (P : Platform) (cwd : string) (roots : list string)
    (g : tsort_graph) (v : list string) (g' : tsort_graph) (v' : list string) : Prop :=
  (forall e, In e g -> In e g')
  /\ (forall z, In z v -> In z v')
  /\ (forall z, In z roots -> In z v')
  /\ (forall z, In z v' -> In z v \/ In z roots \/ exists t, In (z, t) g')
  /\ (forall d t, In (d, t) g' -> In (d, t) g \/ In d v')
  /\ (forall z, In z v' -> In z v \/ resolves_and_parses P cwd z).

(** The platform [P] with another sorter. *)
Definition with_sorter (P : Platform)
    (sorter : tsort_graph -> js_error + list string) : Platform := {|
  path_sep := path_sep P;
  path_join := path_join P;
  path_normalize := path_normalize P;
  path_resolve := path_resolve P;
  path_relative := path_relative P;
  process_chdir := process_chdir P;
  fs_existsSync := fs_existsSync P;
  fs_readFileSync := fs_readFileSync P;
  findUp := findUp P;
  Resolver_resolve := Resolver_resolve P;
  parser_import_paths := parser_import_paths P;
  tsort_add := tsort_add P;
  tsort_sort := sorter;
  concat_of_undefined := concat_of_undefined P
|}.

(** ** [main]: the command line

    [main] prints on the console, creates the output directory, removes the
    output file and hands [flatten] a [log] that appends to the output file
    or prints.  The file system is a state of a type [FS], from which
    [platform_of] gives what [Platform] reads. *)

Inductive console_event : Type :=
| console_log (text : string)
| console_warn (text : string)
| console_error (text : string).

(** What [fs.lstatSync] returns. *)
Module Stats.
Record t : Type := { isDirectory : bool; isFile : bool }.
End Stats.

(** The calls that inspect or change the file system take its state and the
    working directory first; [mkdirp_sync] is [mkdirp.sync]. *)
Record Host (FS : Type) : Type := {
  platform_of : FS -> Platform;
  path_dirname : string -> string;
  fs_lstatSync : FS -> string -> string -> js_error + Stats.t;
  mkdirp_sync : FS -> string -> string -> js_error + FS;
  fs_unlinkSync : FS -> string -> string -> js_error + FS;
  fs_appendFileSync : FS -> string -> string -> string -> js_error + FS
}.

Arguments platform_of {FS} _ _.
Arguments path_dirname {FS} _ _.
Arguments fs_lstatSync {FS} _ _ _ _.
Arguments mkdirp_sync {FS} _ _ _ _.
Arguments fs_unlinkSync {FS} _ _ _ _.
Arguments fs_appendFileSync {FS} _ _ _ _ _.

(** The state of the process: the file system, the working directory and
    what was printed, oldest first. *)
Record machine (FS : Type) : Type := {
  disk : FS;
  directory : string;
  console : list console_event
}.

Arguments disk {FS} _.
Arguments directory {FS} _.
Arguments console {FS} _.

(** The quote of the template literals of [main]. *)
Definition in_quotes (s : string) : string :=
  String (ascii_of_nat 34) s +++ String (ascii_of_nat 34) EmptyString.

Definition missing_output_warning : string :=
  "you havn't provided output file path, ignoring. Usage: truffle-flattener <files> --output <output file path>".

Definition usage : string := "Usage: truffle-flattener <files>".

(** [array.filter((arg, index) => keep arg index)], from [index] on. *)
Fixpoint filter_index {A : Type} (keep : A -> nat -> bool) (index : nat) (array : list A)
    : list A :=
  match array with
  | [] => []
  | arg :: rest =>
      if keep arg index then arg :: filter_index keep (S index) rest
      else filter_index keep (S index) rest
  end.

Section Main.

Context {FS : Type} (H : Host FS).

(** A computation of [main]: it changes the state and returns or throws. *)
Definition action (A : Type) : Type := machine FS -> outcome A * machine FS.

Definition ret {A : Type} (a : A) : action A := fun m => (Returns a, m).

Definition throw {A : Type} (e : js_error) : action A := fun m => (Throws e, m).

Definition andThen {A B : Type} (x : action A) (k : A -> action B) : action B :=
  fun m =>
    match x m with
    | (Returns a, m') => k a m'
    | (Throws e, m') => (Throws e, m')
    | (OutOfFuel, m') => (OutOfFuel, m')
    end.

Notation "x <~ a ;; k" := (andThen a (fun x => k))
  (at level 61, a at next level, right associativity).

(** [console.log], [console.warn] and [console.error]. *)
Definition emit (e : console_event) : action unit :=
  fun m =>
    (Returns tt, {| disk := disk m; directory := directory m; console := console m ++ [e] |}).

(** The functions of [index.js] that read through [Platform]. *)
Definition reading {A : Type} (f : Platform -> string -> outcome A) : action A :=
  fun m => (f (platform_of H (disk m)) (directory m), m).

Definition inspecting {A : Type} (f : FS -> string -> js_error + A) : action A :=
  fun m => (lift (f (disk m) (directory m)), m).

Definition changing (f : FS -> string -> js_error + FS) : action unit :=
  fun m =>
    match f (disk m) (directory m) with
    | inl e => (Throws e, m)
    | inr d => (Returns tt, {| disk := d; directory := directory m; console := console m |})
    end.

Definition process_cwd : action string := fun m => (Returns (directory m), m).

(** [process.chdir(d)]: when it throws, the working directory stays. *)
Definition chdir (d : string) : action unit :=
  fun m =>
    match process_chdir (platform_of H (disk m)) (directory m) d with
    | inl e => (Throws e, m)
    | inr d' => (Returns tt, {| disk := disk m; directory := d'; console := console m |})
    end.

(** The calls of [log] made by [printConcatenation], in order. *)
Fixpoint forEach (log : string -> action unit) (chunks : list string) : action unit :=
  match chunks with
  | [] => ret tt
  | chunk :: rest => _ <~ log chunk ;; forEach log rest
  end.

(** [flatten(filePaths, log, root)] with its [log] as a parameter.  Every
    file is read before the first chunk is passed to [log]. *)
Definition flatten_with_log (fuel : nat) (filePaths : list string)
    (log : string -> action unit) (root : option string) : action unit :=
  let the_root := match root with Some r => r | None => EmptyString end in
  missing <~ reading (fun P cwd => Returns (truthy root && negb (fs_existsSync P cwd the_root))) ;;
  if (missing : bool) then throw (NewError "The specified root directory does not exist")
  else
    truffleRoot <~ (if truthy root then ret the_root
                    else reading (fun P cwd => getTruffleRoot P cwd)) ;;
    filePathsFromTruffleRoot <~
      reading (fun P cwd => Returns (getFilePathsFromTruffleRoot P cwd filePaths truffleRoot)) ;;
    wd <~ process_cwd ;;
    _ <~ chdir truffleRoot ;;
    sortedFiles <~
      reading (fun P cwd => getSortedFilePaths P fuel cwd filePathsFromTruffleRoot truffleRoot) ;;
    chunks <~ reading (fun P cwd => printConcatenation P cwd sortedFiles) ;;
    _ <~ forEach log chunks ;;
    chdir wd.

(** Lines 219-240 of [main]: the directory of the output file is created
    when it is missing, the output file removed when it is there. *)
Definition prepare_output (outputFilePath : string) : action unit :=
  let outputDirPath := path_dirname H outputFilePath in
  isOutputDirExists <~
    (found <~ reading (fun P cwd => Returns (fs_existsSync P cwd outputDirPath)) ;;
     if (found : bool)
     then stats <~ inspecting (fun d cwd => fs_lstatSync H d cwd outputDirPath) ;;
          ret (Stats.isDirectory stats)
     else ret false) ;;
  _ <~ (if (isOutputDirExists : bool) then ret tt
        else
          _ <~ emit (console_log ("output directory not found, creating directory tree "
                                   +++ in_quotes outputDirPath)) ;;
          changing (fun d cwd => mkdirp_sync H d cwd outputDirPath)) ;;
  isOutputFileExists <~
    (found <~ reading (fun P cwd => Returns (fs_existsSync P cwd outputFilePath)) ;;
     if (found : bool)
     then stats <~ inspecting (fun d cwd => fs_lstatSync H d cwd outputFilePath) ;;
          ret (Stats.isFile stats)
     else ret false) ;;
  if (isOutputFileExists : bool)
  then
    _ <~ emit (console_log ("output file already exists, removing file "
                             +++ in_quotes outputFilePath)) ;;
    changing (fun d cwd => fs_unlinkSync H d cwd outputFilePath)
  else ret tt.

(** The [log] that [main] hands to [flatten]. *)
Definition main_log (outputFilePath : option string) (outputChunk : string) : action unit :=
  match outputFilePath with
  | Some path =>
      if truthy outputFilePath
      then changing (fun d cwd => fs_appendFileSync H d cwd path (outputChunk +++ nl))
      else emit (console_log outputChunk)
  | None => emit (console_log outputChunk)
  end.

(** [main(args)]; [outputFilePath] is [None] where the source has
    [undefined]. *)
Definition main (fuel : nat) (args : list string) : action unit :=
  let filePaths := args in
  let outputFileIndex := position "--output" args in
  parsed <~
    match outputFileIndex with
    | Some i =>
        let outputFilePath := nth_error args (i + 1) in
        _ <~ (if truthy outputFilePath then ret tt
              else emit (console_warn missing_output_warning)) ;;
        let filePaths :=
          filter_index (fun _ index => negb (Nat.eqb index i) && negb (Nat.eqb index (i + 1))) 0 args in
        _ <~ match outputFilePath with
             | Some path => if truthy outputFilePath then prepare_output path else ret tt
             | None => ret tt
             end ;;
        ret (filePaths, outputFilePath)
    | None => ret (filePaths, None)
    end ;;
  let '(filePaths, outputFilePath) := parsed in
  match filePaths with
  | [] => emit (console_error usage)
  | _ :: _ => flatten_with_log fuel filePaths (main_log outputFilePath) None
  end.

End Main.


(** What the process wrote on its standard output: [console.log] ends each
    text with a line feed. *)
Fixpoint stdout (events : list console_event) : string :=
  match events with
  | [] => EmptyString
  | console_log text :: rest => text +++ nl +++ stdout rest
  | _ :: rest => stdout rest
  end.

(** The appends of [chunks] to [path] made in the directory [cwd], up to the
    first that fails: the error, if any, and the file system reached. *)
Fixpoint append_chunks {FS : Type} (H : Host FS) (cwd path : string)
    (chunks : list string) (d : FS) : option js_error * FS :=
  match chunks with
  | [] => (None, d)
  | chunk :: rest =>
      match fs_appendFileSync H d cwd path (chunk +++ nl) with
      | inl e => (Some e, d)
      | inr d' => append_chunks H cwd path rest d'
      end
  end.

(** ** A sample host

    The file table of [World] as the file system.  A directory exists when
    an entry lies below it; [mkdirp] adds the entry of the directory
    itself. *)
Module Disk.

Definition dirname (p : string) : string :=
  match find_last "/" p with
  | Some O => "/"
  | Some i => String.substring 0 i p
  | None => "."
  end.

Definition lstatSync (fs : World.files) (cwd path : string) : js_error + Stats.t :=
  let p := Posix.resolve cwd path in
  if World.exists_in fs p then inr {| Stats.isDirectory := false; Stats.isFile := true |}
  else if World.exists_dir fs p then inr {| Stats.isDirectory := true; Stats.isFile := false |}
  else inl (Thrown ("Error: ENOENT: no such file or directory, lstat '" +++ path +++ "'")).

Definition mkdirp (fs : World.files) (cwd path : string) : js_error + World.files :=
  let p := Posix.resolve cwd path in
  if World.exists_in fs p
  then inl (Thrown ("Error: EEXIST: file already exists, mkdir '" +++ p +++ "'"))
  else if World.exists_dir fs p then inr fs
  else inr (fs ++ [(p +++ "/", EmptyString)]).

Definition unlinkSync (fs : World.files) (cwd path : string) : js_error + World.files :=
  let p := Posix.resolve cwd path in
  if World.exists_in fs p
  then inr (filter (fun f => negb (String.eqb (fst f) p)) fs)
  else inl (Thrown ("Error: ENOENT: no such file or directory, unlink '" +++ path +++ "'")).

Definition appendFileSync (fs : World.files) (cwd path data : string)
    : js_error + World.files :=
  let p := Posix.resolve cwd path in
  if World.exists_in fs p
  then inr (map (fun f => if String.eqb (fst f) p then (p, snd f +++ data) else f) fs)
  else if World.exists_dir fs (dirname p) then inr (fs ++ [(p, data)])
  else inl (Thrown ("Error: ENOENT: no such file or directory, open '" +++ path +++ "'")).

Definition host : Host World.files := {|
  platform_of := World.platform;
  path_dirname := dirname;
  fs_lstatSync := lstatSync;
  mkdirp_sync := mkdirp;
  fs_unlinkSync := unlinkSync;
  fs_appendFileSync := appendFileSync
|}.

(** The sample project, the process in [/proj/contracts], nothing printed. *)
Definition in_contracts : machine World.files :=
  {| disk := Sample.project; directory := "/proj/contracts"; console := [] |}.

End Disk.

(** * Properties *)

(** ** Strings *)

Lemma append_empty_r (s : string) : s +++ EmptyString = s.
Proof. induction s as [|c s IH]; simpl; [reflexivity | now rewrite IH]. Qed.

Lemma append_assoc (a b c : string) : (a +++ b) +++ c = a +++ b +++ c.
Proof. induction a as [|x a IH]; simpl; [reflexivity | now rewrite IH]. Qed.

Lemma concat_cons (x : string) (l : list string) :
  String.concat EmptyString (x :: l) = x +++ String.concat EmptyString l.
Proof. destruct l; cbn [String.concat]; [now rewrite append_empty_r | reflexivity]. Qed.


Lemma length_append (a b : string) :
  String.length (a +++ b) = String.length a + String.length b.
Proof. induction a as [|x a IH]; simpl; [reflexivity | now rewrite IH]. Qed.

Lemma prefix_split (p s : string) :
  String.prefix p s = true <-> exists r, s = p +++ r.
Proof.
  revert s; induction p as [|c p IH]; intros s.
  - split; [intros _; now exists s | intros _; now destruct s].
  - destruct s as [|d s]; simpl.
    + split; [discriminate | intros [r Hr]; discriminate].
    + destruct (ascii_dec c d) as [->|Hcd].
      * rewrite IH. split; intros [r Hr]; exists r; [now rewrite Hr | now inversion Hr].
      * split; [discriminate | intros [r Hr]; inversion Hr; congruence].
Qed.

Lemma substr_append (pre r : string) : substr (pre +++ r) (String.length pre) = r.
Proof. induction pre as [|c pre IH]; simpl; [now destruct r | exact IH]. Qed.

Lemma substr_zero (s : string) : substr s 0 = s.
Proof. now destruct s. Qed.

(** [find_first] returns the start of the leftmost occurrence. *)
Lemma find_first_some (needle hay : string) (i : nat) :
  find_first needle hay = Some i ->
  exists pre suf, hay = pre +++ needle +++ suf /\ String.length pre = i.
Proof.
  revert i; induction hay as [|c hay IH]; intros i; cbn [find_first].
  - destruct (String.prefix needle EmptyString) eqn:Hp; [|discriminate].
    intros [= <-]. apply prefix_split in Hp as [r Hr].
    exists EmptyString, r. now split.
  - destruct (String.prefix needle (String c hay)) eqn:Hp.
    + intros [= <-]. apply prefix_split in Hp as [r Hr].
      exists EmptyString, r. now split.
    + destruct (find_first needle hay) as [k|] eqn:Hk; [|discriminate].
      intros [= <-]. destruct (IH k eq_refl) as (pre & suf & -> & Hl).
      exists (String c pre), suf. simpl. now rewrite Hl.
Qed.

Lemma find_first_least (needle pre suf : string) :
  exists i, find_first needle (pre +++ needle +++ suf) = Some i /\ i <= String.length pre.
Proof.
  induction pre as [|c pre IH]; cbn [String.append find_first].
  - exists 0. split; [|simpl; lia].
    assert (Hp : String.prefix needle (needle +++ suf) = true)
      by (apply prefix_split; now exists suf).
    destruct (needle +++ suf); cbn [find_first]; now rewrite Hp.
  - destruct (String.prefix needle (String c (pre +++ needle +++ suf))).
    + exists 0; split; [reflexivity | simpl; lia].
    + destruct IH as (i & -> & Hi). exists (S i). split; [reflexivity | simpl; lia].
Qed.

Lemma find_first_none (needle hay : string) :
  find_first needle hay = None -> forall pre suf, hay <> pre +++ needle +++ suf.
Proof.
  intros Hn pre suf ->. destruct (find_first_least needle pre suf) as (i & Hi & _).
  congruence.
Qed.

Lemma includes_middle (pre needle suf : string) :
  includes (pre +++ needle +++ suf) needle = true.
Proof.
  unfold includes. destruct (find_first_least needle pre suf) as (i & -> & _).
  reflexivity.
Qed.

Lemma map_chars_no_backslash (s : string) :
  no_backslash (backslashes_to_slashes s).
Proof.
  unfold no_backslash, backslashes_to_slashes.
  induction s as [|c s IH]; intros pre suf H; simpl in H.
  - destruct pre; discriminate.
  - destruct pre as [|d pre]; simpl in H; inversion H as [[Hc Hs]].
    + destruct (Ascii.eqb c backslash) eqn:E; [discriminate|].
      apply Ascii.eqb_neq in E. congruence.
    + now apply (IH pre suf).
Qed.

Lemma map_chars_unchanged (s : string) :
  no_backslash s -> backslashes_to_slashes s = s.
Proof.
  unfold no_backslash, backslashes_to_slashes.
  induction s as [|c s IH]; intros H; simpl; [reflexivity|].
  destruct (Ascii.eqb c backslash) eqn:E.
  - apply Ascii.eqb_eq in E. subst c. exfalso. now apply (H EmptyString s).
  - f_equal. apply IH. intros pre suf ->. now apply (H (String c pre) suf).
Qed.

Lemma append_eq_split (a b c d : string) :
  a +++ b = c +++ d -> String.length a <= String.length c ->
  exists m, c = a +++ m /\ b = m +++ d.
Proof.
  revert c; induction a as [|x a IH]; intros c H Hl; simpl in *.
  - now exists c.
  - destruct c as [|y c]; simpl in *; [lia|].
    inversion H as [[Hx Hr]]. destruct (IH c Hr) as (m & -> & ->); [lia|].
    now exists m.
Qed.

Lemma find_last_some (needle hay : string) (i : nat) :
  find_last needle hay = Some i ->
  exists pre suf, hay = pre +++ needle +++ suf /\ String.length pre = i.
Proof.
  revert i; induction hay as [|c hay IH]; intros i; cbn [find_last].
  - destruct (String.prefix needle EmptyString) eqn:Hp; [|discriminate].
    intros [= <-]. apply prefix_split in Hp as [r Hr].
    exists EmptyString, r. now split.
  - destruct (find_last needle hay) as [k|] eqn:Hk.
    + intros [= <-]. destruct (IH k eq_refl) as (pre & suf & -> & Hl).
      exists (String c pre), suf. simpl. now rewrite Hl.
    + destruct (String.prefix needle (String c hay)) eqn:Hp; [|discriminate].
      intros [= <-]. apply prefix_split in Hp as [r Hr].
      exists EmptyString, r. now split.
Qed.

Lemma find_last_greatest (needle pre suf : string) :
  exists i, find_last needle (pre +++ needle +++ suf) = Some i /\ String.length pre <= i.
Proof.
  induction pre as [|c pre IH]; cbn [String.append].
  - assert (Hp : String.prefix needle (needle +++ suf) = true)
      by (apply prefix_split; now exists suf).
    destruct (needle +++ suf) as [|d r] eqn:E; cbn [find_last].
    + rewrite Hp. exists 0. split; [reflexivity | simpl; lia].
    + destruct (find_last needle r) as [k|].
      * exists (S k). split; [reflexivity | simpl; lia].
      * rewrite Hp. exists 0. split; [reflexivity | simpl; lia].
  - cbn [find_last]. destruct IH as (i & -> & Hi).
    exists (S i). split; [reflexivity | simpl; lia].
Qed.

Lemma substring_prefix (a b : string) :
  String.substring 0 (String.length a) (a +++ b) = a.
Proof.
  induction a as [|c a IH]; simpl.
  - now destruct b.
  - now rewrite IH.
Qed.

(** ** [getDirPath] *)

(** On a platform whose separator is ["/"], the directory of
    [dir/base] is [dir]. *)
Lemma getDirPath_posix (P : Platform) (dir base : string) :
  path_sep P = "/" ->
  (forall a b, base <> a +++ "/" +++ b) ->
  getDirPath P (dir +++ "/" +++ base) = dir.
Proof.
  intros Hsep Hbase. unfold getDirPath, lastIndexOf. rewrite Hsep.
  destruct (find_last_greatest "/" dir base) as (i & Hi & Hle).
  rewrite Hi. cbn [index_or_minus_one]. rewrite Z.max_id.
  unfold substring0. rewrite Nat2Z.id.
  destruct (find_last_some _ _ _ Hi) as (pre & suf & Heq & Hlen).
  destruct (Nat.eq_dec i (String.length dir)) as [->|Hne].
  - apply substring_prefix.
  - exfalso.
    rewrite <- (append_assoc dir "/" base) in Heq.
    destruct (append_eq_split (dir +++ "/") base pre ("/" +++ suf) Heq) as (m & _ & Hb).
    + rewrite length_append. simpl. lia.
    + now apply (Hbase m suf).
Qed.

(** A path without any separator has the empty directory. *)
Lemma getDirPath_no_separator (P : Platform) (filePath : string) :
  find_last (path_sep P) filePath = None ->
  find_last "/" filePath = None ->
  getDirPath P filePath = EmptyString.
Proof.
  intros H1 H2. unfold getDirPath, lastIndexOf. rewrite H1, H2. simpl.
  unfold substring0. simpl. now destruct filePath.
Qed.

(** ** C6: [getNormalizedDependencyPath] *)

(** C6 as amended.  A raw import that starts with [./] or [../] is joined to
    the directory of the importing file and normalised by the platform; any
    other raw import is left as it is; in both cases every backslash of the
    result is then turned into a forward slash.  So the result never holds a
    backslash, and a bare import comes back unchanged exactly when it holds
    none.  Where the separator is the forward slash, the directory of
    [dir/base] is [dir]. *)
Theorem getNormalizedDependencyPath_cases (P : Platform) (dependency filePath : string) :
  (startsWith dependency "./" = true \/ startsWith dependency "../" = true ->
   getNormalizedDependencyPath P dependency filePath =
     backslashes_to_slashes
       (path_normalize P (path_join P (getDirPath P filePath) dependency)))
  /\ (startsWith dependency "./" = true \/ startsWith dependency "../" = true ->
      forall dir base,
        path_sep P = "/" ->
        filePath = dir +++ "/" +++ base ->
        (forall a b, base <> a +++ "/" +++ b) ->
        getNormalizedDependencyPath P dependency filePath =
          backslashes_to_slashes (path_normalize P (path_join P dir dependency)))
  /\ (startsWith dependency "./" = false -> startsWith dependency "../" = false ->
      getNormalizedDependencyPath P dependency filePath =
        backslashes_to_slashes dependency)
  /\ (startsWith dependency "./" = false -> startsWith dependency "../" = false ->
      (getNormalizedDependencyPath P dependency filePath = dependency
       <-> no_backslash dependency))
  /\ no_backslash (getNormalizedDependencyPath P dependency filePath).
Proof.
  assert (Hrelative :
            startsWith dependency "./" = true \/ startsWith dependency "../" = true ->
            getNormalizedDependencyPath P dependency filePath =
              backslashes_to_slashes
                (path_normalize P (path_join P (getDirPath P filePath) dependency))).
  { unfold getNormalizedDependencyPath.
    intros [H|H]; rewrite H; [reflexivity | now rewrite orb_true_r]. }
  split; [exact Hrelative|]. split; [|unfold getNormalizedDependencyPath; repeat split].
  - intros Hstart dir base Hsep -> Hbase.
    now rewrite (Hrelative Hstart), (getDirPath_posix P dir base Hsep Hbase).
  - intros H1 H2. now rewrite H1, H2.
  - rewrite H, H0. simpl. intros Heq. rewrite <- Heq. apply map_chars_no_backslash.
  - rewrite H, H0. simpl. apply map_chars_unchanged.
  - apply map_chars_no_backslash.
Qed.

(** Witness: a relative import of [/proj/contracts/Token.sol] and a bare one. *)
Lemma getNormalizedDependencyPath_cases_witness :
  getNormalizedDependencyPath Sample.W "./lib/../SafeMath.sol" "/proj/contracts/Token.sol"
    = "/proj/contracts/SafeMath.sol"
  /\ getNormalizedDependencyPath Sample.W "zeppelin/Ownable.sol" "/proj/contracts/Token.sol"
    = "zeppelin/Ownable.sol".
Proof.
  destruct (getNormalizedDependencyPath_cases Sample.W "./lib/../SafeMath.sol"
              "/proj/contracts/Token.sol") as (Hrel & _).
  destruct (getNormalizedDependencyPath_cases Sample.W "zeppelin/Ownable.sol"
              "/proj/contracts/Token.sol") as (_ & _ & Hbare & _).
  split.
  - rewrite Hrel; [reflexivity | left; reflexivity].
  - rewrite Hbare; reflexivity.
Defined.

(** C6 as stated fails: a bare import with a backslash does not come back
    unchanged. *)
Lemma bare_import_changed :
  startsWith "lib\Token.sol" "./" = false
  /\ startsWith "lib\Token.sol" "../" = false
  /\ getNormalizedDependencyPath Sample.W "lib\Token.sol" "/proj/contracts/A.sol"
     <> "lib\Token.sol".
Proof. repeat split; discriminate. Qed.

(** ** C9: [fileNameToGlobalName] *)

(** C9.  The global name of a file is its path relative to the project
    root; when that path holds [node_modules/], the name is what follows its
    first occurrence, and otherwise the whole relative path. *)
Theorem fileNameToGlobalName_cases (P : Platform) (cwd fileName truffleRoot : string) :
  let relativePath := path_relative P cwd truffleRoot (path_resolve P cwd fileName) in
  (forall pre suf,
      relativePath = pre +++ "node_modules/" +++ suf ->
      (forall pre' suf', relativePath = pre' +++ "node_modules/" +++ suf' ->
                         String.length pre <= String.length pre') ->
      fileNameToGlobalName P cwd fileName truffleRoot = suf)
  /\ ((forall pre suf, relativePath <> pre +++ "node_modules/" +++ suf) ->
      fileNameToGlobalName P cwd fileName truffleRoot = relativePath).
Proof.
  intros relativePath. unfold fileNameToGlobalName, getFilePathsFromTruffleRoot.
  cbn [map hd]. fold relativePath. unfold indexOf. split.
  - intros pre suf Heq Hmin.
    assert (Hfind : find_first "node_modules/" relativePath = Some (String.length pre)).
    { rewrite Heq. destruct (find_first_least "node_modules/" pre suf) as (i & Hi & Hle).
      rewrite Hi. f_equal. rewrite <- Heq in Hi.
      destruct (find_first_some _ _ _ Hi) as (pre' & suf' & Heq' & Hlen).
      specialize (Hmin pre' suf' Heq'). lia. }
    rewrite Hfind. cbn [index_or_minus_one].
    replace (Z.of_nat (String.length pre) =? -1)%Z with false
      by (symmetry; apply Z.eqb_neq; lia).
    cbn [negb]. rewrite <- Nat2Z.inj_add, Nat2Z.id.
    rewrite Heq, <- append_assoc.
    replace (String.length pre + String.length "node_modules/")
      with (String.length (pre +++ "node_modules/")) by apply length_append.
    apply substr_append.
  - intros Hnone.
    destruct (find_first "node_modules/" relativePath) as [i|] eqn:Hfind.
    + destruct (find_first_some _ _ _ Hfind) as (pre & suf & Heq & _).
      now destruct (Hnone pre suf).
    + reflexivity.
Qed.

(** Witness: a file of a package under [node_modules] and a project file. *)
Lemma fileNameToGlobalName_cases_witness :
  fileNameToGlobalName Sample.W "/proj" "node_modules/x/T.sol" "/proj" = "x/T.sol"
  /\ fileNameToGlobalName Sample.W "/proj" "/proj/contracts/Token.sol" "/proj"
     = "contracts/Token.sol".
Proof.
  split.
  - apply (proj1 (fileNameToGlobalName_cases Sample.W "/proj" "node_modules/x/T.sol" "/proj")
             EmptyString "x/T.sol").
    + reflexivity.
    + intros; simpl; lia.
  - apply (proj2 (fileNameToGlobalName_cases Sample.W "/proj" "/proj/contracts/Token.sol" "/proj")).
    apply find_first_none. reflexivity.
Defined.

(** ** [unique] and the order of first occurrences *)

Lemma array_includes_In (l : list string) (x : string) :
  array_includes l x = true <-> In x l.
Proof.
  induction l as [|y l IH]; simpl.
  - split; [discriminate | tauto].
  - rewrite orb_true_iff, IH, String.eqb_eq. tauto.
Qed.

Lemma array_includes_not_In (l : list string) (x : string) :
  array_includes l x = false <-> ~ In x l.
Proof.
  rewrite <- array_includes_In. destruct (array_includes l x); split; congruence.
Qed.

Lemma unique_from_In (l seen : list string) (x : string) :
  In x (unique_from seen l) <-> In x l /\ ~ In x seen.
Proof.
  revert seen; induction l as [|y l IH]; intros seen; simpl.
  - tauto.
  - destruct (array_includes seen y) eqn:E.
    + apply array_includes_In in E. rewrite IH. split.
      * tauto.
      * intros [[->|H] Hn]; tauto.
    + apply array_includes_not_In in E. simpl. rewrite IH. simpl. split.
      * intros [->|(H & Hn)]; tauto.
      * intros [[->|H] Hn]; [tauto|].
        destruct (string_dec y x) as [->|Hne]; [tauto|]. right. tauto.
Qed.

Lemma unique_from_NoDup (l seen : list string) : NoDup (unique_from seen l).
Proof.
  revert seen; induction l as [|y l IH]; intros seen; simpl.
  - constructor.
  - destruct (array_includes seen y); [apply IH|].
    constructor; [|apply IH]. rewrite unique_from_In. simpl. tauto.
Qed.

Lemma unique_In (l : list string) (x : string) : In x (unique l) <-> In x l.
Proof. unfold unique. rewrite unique_from_In. simpl. tauto. Qed.

Lemma unique_NoDup (l : list string) : NoDup (unique l).
Proof. apply unique_from_NoDup. Qed.

Lemma NoDup_count_one (l : list string) (x : string) :
  NoDup l -> In x l -> count_occ string_dec l x = 1.
Proof.
  intros Hnd Hin. apply (proj1 (NoDup_count_occ string_dec l)) with (x := x) in Hnd.
  apply (count_occ_In string_dec) in Hin. lia.
Qed.

Lemma position_In (x : string) (l : list string) :
  In x l <-> exists i, position x l = Some i.
Proof.
  induction l as [|y l IH]; simpl.
  - split; [tauto | intros [i H]; discriminate].
  - destruct (String.eqb y x) eqn:E.
    + apply String.eqb_eq in E. split; [now exists 0 | tauto].
    + apply String.eqb_neq in E. rewrite IH. split.
      * intros [H|[i ->]]; [congruence | now exists (S i)].
      * intros [i H]. right. destruct (position x l) as [k|]; [now exists k | discriminate].
Qed.

Lemma precedes_b_correct (a b : string) (l : list string) :
  precedes_b a b l = true <-> precedes a b l.
Proof.
  unfold precedes_b, precedes. split.
  - destruct (position a l) as [i|]; [|discriminate].
    destruct (position b l) as [j|]; [|discriminate].
    intros H. apply Nat.ltb_lt in H. now exists i, j.
  - intros (i & j & -> & -> & H). now apply Nat.ltb_lt.
Qed.

Lemma precedes_cons_head (a b : string) (l : list string) :
  a <> b -> In b l -> precedes a b (a :: l).
Proof.
  intros Hne Hin. apply position_In in Hin as [j Hj].
  exists 0, (S j). simpl. rewrite String.eqb_refl.
  apply String.eqb_neq in Hne. rewrite Hne, Hj. repeat split. lia.
Qed.

Lemma precedes_cons_other (a b x : string) (l : list string) :
  x <> a -> x <> b -> precedes a b (x :: l) <-> precedes a b l.
Proof.
  intros Ha Hb. apply String.eqb_neq in Ha, Hb. unfold precedes. simpl.
  rewrite Ha, Hb. split.
  - intros (i & j & Hi & Hj & Hlt).
    destruct (position a l) as [i'|]; [|discriminate].
    destruct (position b l) as [j'|]; [|discriminate].
    simpl in *. exists i', j'. repeat split. injection Hi; injection Hj; lia.
  - intros (i & j & -> & -> & Hlt). exists (S i), (S j). repeat split. lia.
Qed.

Lemma precedes_inv (a b x : string) (l : list string) :
  precedes a b (x :: l) ->
  (x = a /\ a <> b /\ In b l) \/ (x <> a /\ x <> b /\ precedes a b l).
Proof.
  intros H. destruct (string_dec x a) as [->|Ha].
  - left. destruct H as (i & j & Hi & Hj & Hlt). simpl in Hi, Hj.
    rewrite String.eqb_refl in Hi. injection Hi as <-.
    destruct (String.eqb a b) eqn:E; [injection Hj as <-; lia|].
    apply String.eqb_neq in E. repeat split; [assumption|].
    apply position_In. destruct (position b l) as [k|]; [now exists k | discriminate].
  - right. destruct (string_dec x b) as [->|Hb].
    + destruct H as (i & j & Hi & Hj & Hlt). simpl in Hj.
      rewrite String.eqb_refl in Hj. injection Hj as <-. lia.
    + repeat split; try assumption. now apply (precedes_cons_other a b x l).
Qed.

Lemma precedes_distinct (a b : string) (l : list string) :
  precedes a b l -> a <> b.
Proof. intros (i & j & Hi & Hj & Hlt) ->. rewrite Hi in Hj. injection Hj. lia. Qed.

Lemma precedes_In (a b : string) (l : list string) :
  precedes a b l -> In a l /\ In b l.
Proof.
  intros (i & j & Hi & Hj & _). split; apply position_In; eauto.
Qed.

(** [unique] keeps the order of first occurrences. *)
Lemma unique_from_precedes (l seen : list string) (a b : string) :
  ~ In a seen -> ~ In b seen ->
  precedes a b l -> precedes a b (unique_from seen l).
Proof.
  revert seen; induction l as [|x l IH]; intros seen Ha Hb H.
  - destruct H as (i & j & Hi & _). discriminate.
  - simpl. apply precedes_inv in H as [(-> & Hne & Hin)|(Hxa & Hxb & H)].
    + apply array_includes_not_In in Ha. rewrite Ha.
      apply precedes_cons_head; [assumption|].
      apply unique_from_In. split; [assumption|]. simpl.
      apply array_includes_not_In in Ha. intros [E|E]; congruence.
    + destruct (array_includes seen x).
      * now apply IH.
      * apply precedes_cons_other; try assumption.
        apply IH; simpl; try tauto.
Qed.

Lemma unique_precedes (l : list string) (a b : string) :
  precedes a b l -> precedes a b (unique l).
Proof. apply unique_from_precedes; simpl; tauto. Qed.

Lemma precedes_app (l l' : list string) (a b : string) :
  precedes a b l -> precedes a b (l ++ l').
Proof.
  induction l as [|x l IH]; intros H.
  - destruct H as (i & j & Hi & _). discriminate.
  - simpl. apply precedes_inv in H as [(-> & Hne & Hin)|(Hxa & Hxb & H)].
    + apply precedes_cons_head; [assumption | apply in_or_app; now left].
    + apply precedes_cons_other; auto.
Qed.


(** ** Lines and pragmas *)

Lemma to_lines_well_cut (s : string) : well_cut (to_lines s) = true.
Proof.
  induction s as [|c s IH]; cbn [to_lines]; [reflexivity|].
  destruct (is_line_terminator c) eqn:Hc.
  - cbn [well_cut has_no_terminator]. destruct (to_lines s) as [|l ls]; [discriminate IH|].
    now rewrite Hc, IH.
  - destruct (to_lines s) as [|[b e] ls]; [discriminate IH|].
    cbn [well_cut has_no_terminator] in *. rewrite Hc. exact IH.
Qed.

Lemma to_lines_nonempty (s : string) :
  exists b e ls, to_lines s = (b, e) :: ls.
Proof.
  pose proof (to_lines_well_cut s) as H.
  destruct (to_lines s) as [|[b e] ls]; [discriminate H | now exists b, e, ls].
Qed.

Lemma to_lines_append (b s : string) :
  has_no_terminator b = true ->
  to_lines (b +++ s) =
  match to_lines s with
  | (b', e) :: ls => (b +++ b', e) :: ls
  | [] => []
  end.
Proof.
  destruct (to_lines_nonempty s) as (b' & e & ls & Hs). rewrite Hs.
  induction b as [|c b IH]; cbn [has_no_terminator String.append]; intros H.
  - exact Hs.
  - apply andb_true_iff in H as [Hc Hb]. apply negb_true_iff in Hc.
    cbn [to_lines]. now rewrite Hc, (IH Hb).
Qed.

Lemma to_lines_of_lines (ls : list line) :
  well_cut ls = true -> to_lines (of_lines ls) = ls.
Proof.
  induction ls as [|[b e] rest IH]; cbn [well_cut]; intros H; [discriminate|].
  apply andb_true_iff in H as [Hb H]. cbn [of_lines]. unfold line_text. cbn [fst snd].
  destruct e as [c|]; destruct rest as [|l rest']; try discriminate.
  - apply andb_true_iff in H as [Hc Hrest].
    rewrite append_assoc, (to_lines_append _ _ Hb). cbn [String.append to_lines].
    rewrite Hc, (IH Hrest). now rewrite append_empty_r.
  - cbn [of_lines]. rewrite append_empty_r.
    rewrite <- (append_empty_r b) at 1. rewrite (to_lines_append _ _ Hb).
    cbn [to_lines]. now rewrite append_empty_r.
Qed.

Lemma blank_pragma_well_cut (keyword : string) (ls : list line) :
  well_cut ls = true -> well_cut (map (blank_pragma keyword) ls) = true.
Proof.
  induction ls as [|[b e] rest IH]; cbn [well_cut map]; intros H; [discriminate|].
  apply andb_true_iff in H as [Hb H].
  assert (Hhead : has_no_terminator (fst (blank_pragma keyword (b, e))) = true
                  /\ snd (blank_pragma keyword (b, e)) = e).
  { unfold blank_pragma. cbn [fst snd]. now destruct (pragma_line keyword b). }
  destruct (blank_pragma keyword (b, e)) as [b' e']. cbn [fst snd] in Hhead.
  destruct Hhead as [Hb' ->]. cbn [well_cut]. rewrite Hb'. cbn [andb].
  destruct e as [c|]; destruct rest as [|l rest']; try discriminate; try reflexivity.
  apply andb_true_iff in H as [Hc Hrest]. rewrite Hc. cbn [andb map].
  exact (IH Hrest).
Qed.

(** The lines of a text after a replacement are the lines before it, with
    the matched ones emptied. *)
Lemma to_lines_replace_pragma (keyword contents : string) :
  to_lines (replace_pragma keyword contents) =
  map (blank_pragma keyword) (to_lines contents).
Proof.
  unfold replace_pragma. apply to_lines_of_lines, blank_pragma_well_cut, to_lines_well_cut.
Qed.

Lemma pragma_line_blank (keyword keyword' : string) (l : line) :
  pragma_line keyword EmptyString = false ->
  pragma_line keyword (fst l) = false ->
  pragma_line keyword (fst (blank_pragma keyword' l)) = false.
Proof.
  intros Hempty Hl. unfold blank_pragma.
  now destruct (pragma_line keyword' (fst l)).
Qed.

Lemma pragma_line_blanked (keyword : string) (l : line) :
  pragma_line keyword EmptyString = false ->
  pragma_line keyword (fst (blank_pragma keyword l)) = false.
Proof.
  intros Hempty. unfold blank_pragma.
  now destruct (pragma_line keyword (fst l)) eqn:E.
Qed.

Lemma filter_none {A : Type} (f : A -> bool) (l : list A) :
  (forall x, In x l -> f x = false) -> filter f l = [].
Proof.
  induction l as [|x l IH]; intros H; [reflexivity|].
  cbn [filter]. rewrite (H x (or_introl eq_refl)). apply IH.
  intros y Hy. apply H. now right.
Qed.

(** After the replacements no line of the text is a version pragma or an
    experimental pragma. *)
Lemma stripped_no_pragma (contents : string) :
  match_pragma VERSION_SOLIDITY (stripped contents) = []
  /\ match_pragma EXPERIMENTAL_SOLIDITY (stripped contents) = [].
Proof.
  unfold match_pragma, stripped. rewrite !to_lines_replace_pragma.
  split; apply filter_none; intros x Hx;
    apply in_map_iff in Hx as (l1 & <- & Hx);
    apply in_map_iff in Hx as (l2 & <- & Hx).
  - apply in_map_iff in Hx as (l3 & <- & Hx).
    apply pragma_line_blank; [reflexivity|]. now apply pragma_line_blanked.
  - now apply pragma_line_blanked.
Qed.

Lemma match_pragma_lines (keyword contents p : string) :
  In p (match_pragma keyword contents) -> pragma_line keyword p = true.
Proof. unfold match_pragma. intros H. now apply filter_In in H. Qed.

Lemma version_not_experimental (p : string) :
  pragma_line EXPERIMENTAL_SOLIDITY p = true ->
  pragma_line VERSION_SOLIDITY p = false.
Proof.
  unfold pragma_line. intros H. apply andb_true_iff in H as [H _].
  apply prefix_split in H as [r ->]. reflexivity.
Qed.

Lemma sections_not_pragma (files bodies : list string) :
  pragma_line VERSION_SOLIDITY (sections files bodies) = false
  /\ pragma_line EXPERIMENTAL_SOLIDITY (sections files bodies) = false.
Proof.
  destruct files as [|f files], bodies as [|b bodies]; split; reflexivity.
Qed.

Lemma firstn_one_In {A : Type} (l : list A) (x : A) :
  In x (firstn 1 l) -> In x l.
Proof. destruct l as [|y l]; cbn; [tauto | intros [->|[]]; now left]. Qed.

(** ** The traversal *)

Lemma bind_returns {A B : Type} (m : outcome A) (k : A -> outcome B) (b : B) :
  bind m k = Returns b -> exists a, m = Returns a /\ k a = Returns b.
Proof. destruct m; simpl; intros H; try discriminate. now exists a. Qed.


Section Traversal.

Variable P : Platform.
Variable cwd : string.

Local Notation "'count_edge'" := (count_occ edge_dec).
Local Notation "'count_file'" := (count_occ string_dec).

Lemma dependenciesDfs_returns (fuel : nat) (g : tsort_graph) (v : list string)
    (x : string) (r : tsort_graph * list string) :
  dependenciesDfs P (S fuel) cwd g v x = Returns r ->
  dependencies_loop P (dependenciesDfs P fuel cwd) x (dependencies_of P cwd x)
    g (v ++ [x]) = Returns r.
Proof.
  cbn [dependenciesDfs]. unfold dependencies_of. intros H.
  apply bind_returns in H as (resolved & Hres & H). rewrite Hres. cbn [bind].
  apply bind_returns in H as (deps & Hdeps & H). now rewrite Hdeps.
Qed.

Lemma dependencies_loop_returns
    (dfs : tsort_graph -> list string -> string -> outcome (tsort_graph * list string))
    (x : string) :
  (forall g v y g' v', dfs g v y = Returns (g', v') -> traversal P cwd g v y g' v') ->
  forall deps g v g' v',
    dependencies_loop P dfs x deps g v = Returns (g', v') ->
    exists new,
      v' = v ++ new /\
      NoDup new /\
      (forall z, In z new -> ~ In z v) /\
      (forall e, count_edge g' e =
                 count_edge g e + count_edge (map (fun d => (d, x)) deps) e
                 + count_edge (flat_map (edges_of P cwd) new) e).
Proof.
  intros Hdfs. induction deps as [|d rest IH]; intros g v g' v' H; cbn [dependencies_loop] in H.
  - injection H as <- <-. exists []. rewrite app_nil_r. repeat split.
    + constructor.
    + intros z [].
    + intros e. simpl. lia.
  - destruct (tsort_add P g d x) as [e0|]; [discriminate H|].
    destruct (array_includes v d) eqn:Hvis; cbn [negb] in H.
    + destruct (IH _ _ _ _ H) as (new & -> & Hnd & Hfresh & Hcount).
      exists new. repeat split; try assumption.
      intros e. rewrite Hcount, count_occ_app. cbn [map count_occ].
      destruct (edge_dec (d, x) e); lia.
    + apply array_includes_not_In in Hvis.
      apply bind_returns in H as ([g1 v1] & Hcall & H). cbn [fst snd] in H.
      destruct (Hdfs _ _ _ _ _ Hcall) as (new1 & -> & Hnd1 & Hfresh1 & Hcount1).
      destruct (IH _ _ _ _ H) as (new2 & -> & Hnd2 & Hfresh2 & Hcount2).
      exists (d :: new1 ++ new2). repeat split.
      * now rewrite <- app_assoc.
      * constructor.
        -- intros Hin. apply in_app_or in Hin as [Hin|Hin].
           ++ now apply (proj2 (Hfresh1 d Hin)).
           ++ apply (Hfresh2 d Hin). apply in_or_app. right. now left.
        -- apply NoDup_app; try assumption.
           intros z Hz1 Hz2. apply (Hfresh2 z Hz2).
           apply in_or_app. right. now right.
      * intros z [<-|Hz] Hin; [now apply Hvis|].
        apply in_app_or in Hz as [Hz|Hz].
        -- now apply (proj1 (Hfresh1 z Hz)).
        -- apply (Hfresh2 z Hz). apply in_or_app. now left.
      * intros e. rewrite Hcount2, Hcount1, count_occ_app.
        cbn [flat_map map]. rewrite !count_occ_app, flat_map_app, count_occ_app.
        cbn [count_occ]. destruct (edge_dec (d, x) e); lia.
Qed.

Lemma dependenciesDfs_traversal (fuel : nat) :
  forall g v x g' v',
    dependenciesDfs P fuel cwd g v x = Returns (g', v') -> traversal P cwd g v x g' v'.
Proof.
  induction fuel as [|fuel IH]; intros g v x g' v' H; [discriminate|].
  apply dependenciesDfs_returns in H.
  destruct (dependencies_loop_returns _ x IH _ _ _ _ _ H)
    as (new & -> & Hnd & Hfresh & Hcount).
  exists new. repeat split.
  - now rewrite <- app_assoc.
  - assumption.
  - intros Hin. apply (Hfresh z H0). apply in_or_app. now left.
  - intros ->. apply (Hfresh x H0). apply in_or_app. right. now left.
  - intros e. rewrite Hcount. cbn [flat_map]. rewrite count_occ_app.
    unfold edges_of at 2. lia.
Qed.

(** The loop over the entry points: every entry point is visited, whether it
    was visited before or not. *)
Lemma entryPoints_loop_returns (fuel : nat) :
  forall entryPoints g v g' v',
    entryPoints_loop P fuel cwd entryPoints g v = Returns (g', v') ->
    exists added,
      v' = v ++ added /\
      (forall y, count_file entryPoints y <= count_file added y) /\
      (forall y, count_file added y <=
                 count_file entryPoints y + (if array_includes v y then 0 else 1)) /\
      (forall e, count_edge g' e =
                 count_edge g e + count_edge (flat_map (edges_of P cwd) added) e).
Proof.
  induction entryPoints as [|x rest IH]; intros g v g' v' H; cbn [entryPoints_loop] in H.
  - injection H as <- <-. exists []. rewrite app_nil_r. repeat split.
    + intros y. simpl. lia.
    + intros y. simpl. lia.
    + intros e. simpl. lia.
  - apply bind_returns in H as ([g1 v1] & Hcall & H). cbn [fst snd] in H.
    destruct (dependenciesDfs_traversal _ _ _ _ _ _ Hcall) as (new & -> & Hnd & Hfresh & Hcount1).
    destruct (IH _ _ _ _ H) as (added & -> & Hlow & Hup & Hcount2).
    exists (x :: new ++ added). repeat split.
    + now rewrite <- app_assoc.
    + intros y. specialize (Hlow y). cbn [count_occ].
      rewrite count_occ_app. destruct (string_dec x y); lia.
    + intros y. specialize (Hup y). cbn [count_occ]. rewrite count_occ_app.
      assert (Hnew : count_file new y <= 1) by now apply NoDup_count_occ.
      destruct (array_includes (v ++ x :: new) y) eqn:E1.
      * destruct (array_includes v y) eqn:E2.
        -- apply array_includes_In in E2.
           assert (count_file new y = 0)
             by (apply count_occ_not_In; intros Hin; now apply (proj1 (Hfresh y Hin))).
           destruct (string_dec x y); lia.
        -- destruct (string_dec x y) as [->|Hne]; [|lia].
           assert (count_file new y = 0)
             by (apply count_occ_not_In; intros Hin; now apply (proj2 (Hfresh y Hin))).
           lia.
      * apply array_includes_not_In in E1.
        assert (count_file new y = 0).
        { apply count_occ_not_In. intros Hin. apply E1, in_or_app. right. now right. }
        assert (x <> y).
        { intros ->. apply E1, in_or_app. right. now left. }
        assert (E2 : array_includes v y = false).
        { apply array_includes_not_In. intros Hin. apply E1, in_or_app. now left. }
        rewrite E2. destruct (string_dec x y); [congruence | lia].
    + intros e. rewrite Hcount2, Hcount1. cbn [flat_map].
      rewrite !count_occ_app, flat_map_app, count_occ_app. lia.
Qed.

End Traversal.

Lemma count_edges_to (deps : list string) (y d t : string) :
  count_occ edge_dec (map (fun d => (d, y)) deps) (d, t) =
  if string_dec y t then count_occ string_dec deps d else 0.
Proof.
  induction deps as [|a deps IH]; cbn [map count_occ].
  - now destruct (string_dec y t).
  - rewrite IH. destruct (edge_dec (a, y) (d, t)) as [E|E].
    + injection E as -> ->. destruct (string_dec t t); [|congruence].
      destruct (string_dec d d); [reflexivity | congruence].
    + destruct (string_dec y t) as [->|]; [|reflexivity].
      destruct (string_dec a d) as [->|]; [congruence | reflexivity].
Qed.

Lemma count_edges_of_visited (P : Platform) (cwd : string) (visited : list string)
    (d t : string) :
  count_occ edge_dec (flat_map (edges_of P cwd) visited) (d, t) =
  count_occ string_dec visited t * count_occ string_dec (dependencies_of P cwd t) d.
Proof.
  induction visited as [|y visited IH]; cbn [flat_map count_occ]; [reflexivity|].
  rewrite count_occ_app, IH. unfold edges_of at 1. rewrite count_edges_to.
  destruct (string_dec y t) as [->|]; lia.
Qed.

Lemma entryPoints_loop_edges (P : Platform) (cwd : string) (fuel : nat)
    (entryPoints : list string) (g : tsort_graph) (visitedFiles : list string) :
  entryPoints_loop P fuel cwd entryPoints [] [] = Returns (g, visitedFiles) ->
  forall d t, count_occ edge_dec g (d, t) =
              count_occ string_dec visitedFiles t
              * count_occ string_dec (dependencies_of P cwd t) d.
Proof.
  intros H. destruct (entryPoints_loop_returns P cwd fuel _ _ _ _ _ H)
    as (added & Hv & _ & _ & Hcount).
  simpl in Hv. subst added. intros d t.
  rewrite Hcount. simpl. apply count_edges_of_visited.
Qed.

(** An edge of the graph is an import found in a visited file. *)
Lemma entryPoints_loop_edge_iff (P : Platform) (cwd : string) (fuel : nat)
    (entryPoints : list string) (g : tsort_graph) (visitedFiles : list string) :
  entryPoints_loop P fuel cwd entryPoints [] [] = Returns (g, visitedFiles) ->
  forall d t, In (d, t) g <-> In t visitedFiles /\ In d (dependencies_of P cwd t).
Proof.
  intros H d t. rewrite (count_occ_In edge_dec), !(count_occ_In string_dec).
  rewrite (entryPoints_loop_edges _ _ _ _ _ _ H). nia.
Qed.

(** ** C7: visited files and recorded edges *)

(** A traversal entered on a file that is not yet visited, with no file
    visited twice, visits no file twice. *)
Lemma dependenciesDfs_NoDup (P : Platform) (cwd : string) (fuel : nat)
    (g : tsort_graph) (v : list string) (x : string) (g' : tsort_graph) (v' : list string) :
  dependenciesDfs P fuel cwd g v x = Returns (g', v') ->
  NoDup v -> ~ In x v -> NoDup v'.
Proof.
  intros H Hv Hx.
  destruct (dependenciesDfs_traversal P cwd fuel _ _ _ _ _ H) as (new & -> & Hnd & Hfresh & _).
  apply NoDup_app; [assumption | | ].
  - constructor; [|assumption]. intros Hin. now apply (proj2 (Hfresh x Hin)).
  - intros z Hz [<-|Hin]; [now apply Hx|]. now apply (proj1 (Hfresh z Hin)).
Qed.

Lemma entryPoints_loop_app (P : Platform) (cwd : string) (fuel : nat)
    (before after : list string) :
  forall g v,
    entryPoints_loop P fuel cwd (before ++ after) g v =
    (st <- entryPoints_loop P fuel cwd before g v ;;
     entryPoints_loop P fuel cwd after (fst st) (snd st)).
Proof.
  induction before as [|x before IH]; intros g v; cbn [app entryPoints_loop bind].
  - reflexivity.
  - destruct (dependenciesDfs P fuel cwd g v x) as [[g1 v1]|e|]; cbn [bind fst snd];
      [apply IH | reflexivity | reflexivity].
Qed.

Lemma entryPoints_loop_NoDup (P : Platform) (cwd : string) (fuel : nat)
    (entryPoints : list string) :
  forall g v g' v',
    entryPoints_loop P fuel cwd entryPoints g v = Returns (g', v') ->
    NoDup v ->
    (forall before e after g1 v1,
        entryPoints = before ++ e :: after ->
        entryPoints_loop P fuel cwd before g v = Returns (g1, v1) ->
        ~ In e v1) ->
    NoDup v'.
Proof.
  induction entryPoints as [|x rest IH]; intros g v g' v' H Hv Hturn;
    cbn [entryPoints_loop] in H.
  - now injection H as <- <-.
  - apply bind_returns in H as ([g1 v1] & Hcall & H). cbn [fst snd] in H.
    assert (Hx : ~ In x v) by (apply (Hturn [] x rest g v); reflexivity).
    apply (IH _ _ _ _ H).
    + exact (dependenciesDfs_NoDup P cwd fuel _ _ _ _ _ Hcall Hv Hx).
    + intros before e after g2 v2 -> Hbefore.
      apply (Hturn (x :: before) e after g2 v2); [reflexivity|].
      cbn [entryPoints_loop]. rewrite Hcall. exact Hbefore.
Qed.

(** C7 as amended.  The visited files are identifiers: a dependency whose
    identifier is already among them is not traversed again, yet its edge is
    added.  When the traversal of the entry points returns, an identifier
    that is no entry point is among the visited files at most once, and so
    is every identifier as long as no entry point is already visited when
    its turn comes; the graph holds the edge [(d, t)] once for every visit
    of [t] and every import of [d] in [t]. *)
Theorem visited_once_edges_always (P : Platform) (cwd : string) (fuel : nat)
    (entryPoints : list string) (g : tsort_graph) (visitedFiles : list string) :
  entryPoints_loop P fuel cwd entryPoints [] [] = Returns (g, visitedFiles) ->
  (forall dfs filePath dependency rest g0 visited0,
      array_includes visited0 dependency = true ->
      tsort_add P g0 dependency filePath = None ->
      dependencies_loop P dfs filePath (dependency :: rest) g0 visited0 =
      dependencies_loop P dfs filePath rest (g0 ++ [(dependency, filePath)]) visited0)
  /\ (forall f, ~ In f entryPoints -> count_occ string_dec visitedFiles f <= 1)
  /\ ((forall before e after g1 v1,
         entryPoints = before ++ e :: after ->
         entryPoints_loop P fuel cwd before [] [] = Returns (g1, v1) ->
         ~ In e v1) ->
      NoDup visitedFiles)
  /\ (forall d t, count_occ edge_dec g (d, t) =
                  count_occ string_dec visitedFiles t
                  * count_occ string_dec (dependencies_of P cwd t) d).
Proof.
  intros H. split; [|split; [|split]].
  - intros dfs filePath dependency rest g0 visited0 Hvis Hadd.
    cbn [dependencies_loop]. now rewrite Hadd, Hvis.
  - destruct (entryPoints_loop_returns P cwd fuel _ _ _ _ _ H)
      as (added & Hv & _ & Hup & _).
    simpl in Hv. subst added. intros f Hf.
    specialize (Hup f). simpl in Hup.
    rewrite (proj1 (count_occ_not_In string_dec entryPoints f) Hf) in Hup. exact Hup.
  - intros Hturn.
    exact (entryPoints_loop_NoDup P cwd fuel _ _ _ _ _ H (NoDup_nil _) Hturn).
  - exact (entryPoints_loop_edges _ _ _ _ _ _ H).
Qed.

(** Witness: [Token] imports [SafeMath] directly and through [Ownable];
    [Lone] is an entry point of its own. *)
Lemma visited_once_edges_always_witness :
  NoDup ["contracts/Token.sol"; "/proj/contracts/SafeMath.sol";
         "/proj/contracts/Ownable.sol"; "contracts/Lone.sol"]
  /\ count_occ edge_dec
       [("/proj/contracts/SafeMath.sol", "contracts/Token.sol");
        ("/proj/contracts/Ownable.sol", "contracts/Token.sol");
        ("/proj/contracts/SafeMath.sol", "/proj/contracts/Ownable.sol")]
       ("/proj/contracts/SafeMath.sol", "/proj/contracts/Ownable.sol")
     = 1 * count_occ string_dec
             (dependencies_of Sample.W "/proj" "/proj/contracts/Ownable.sol")
             "/proj/contracts/SafeMath.sol".
Proof.
  assert (Hrun : entryPoints_loop Sample.W 20 "/proj"
                   ["contracts/Token.sol"; "contracts/Lone.sol"] [] [] =
                 Returns ([("/proj/contracts/SafeMath.sol", "contracts/Token.sol");
                           ("/proj/contracts/Ownable.sol", "contracts/Token.sol");
                           ("/proj/contracts/SafeMath.sol", "/proj/contracts/Ownable.sol")],
                          ["contracts/Token.sol"; "/proj/contracts/SafeMath.sol";
                           "/proj/contracts/Ownable.sol"; "contracts/Lone.sol"]))
    by (vm_compute; reflexivity).
  destruct (visited_once_edges_always Sample.W "/proj" 20 _ _ _ Hrun)
    as (_ & _ & Honce & Hedges).
  split.
  - apply Honce. intros before e after g1 v1 Hsplit Hbefore.
    destruct before as [|b1 [|b2 [|b3 before]]].
    + injection Hbefore as _ <-. intros [].
    + injection Hsplit as <- <- _. vm_compute in Hbefore. injection Hbefore as _ <-.
      intros [Heq|[Heq|[Heq|[]]]]; discriminate Heq.
    + injection Hsplit as _ _ Hnil. discriminate Hnil.
    + injection Hsplit as _ _ Hnil. discriminate Hnil.
  - exact (Hedges "/proj/contracts/SafeMath.sol" "/proj/contracts/Ownable.sol").
Defined.

(** C7 as stated fails, on files and on entry points.  With the one entry
    point [contracts/Ping.sol], the file [/proj/contracts/Ping.sol] is
    visited under two identifiers, the path of the entry point and the
    normalised import of [Pong], and it is resolved and parsed at each
    visit.  With the entry points [Main.sol] and [Lib.sol], where [Main.sol]
    imports [Lib.sol], the identifier [Lib.sol] is visited twice. *)
Lemma files_traversed_twice :
  (entryPoints_loop Sample.W 20 "/proj" ["contracts/Ping.sol"] [] []
     = Returns ([("/proj/contracts/Pong.sol", "contracts/Ping.sol");
                 ("/proj/contracts/Ping.sol", "/proj/contracts/Pong.sol");
                 ("/proj/contracts/Pong.sol", "/proj/contracts/Ping.sol")],
                ["contracts/Ping.sol"; "/proj/contracts/Pong.sol";
                 "/proj/contracts/Ping.sol"])
   /\ option_map Resolved.filePath
        (match resolve Sample.W "/proj" "contracts/Ping.sol" with
         | Returns r => Some r
         | _ => None
         end) = Some "/proj/contracts/Ping.sol"
   /\ resolve Sample.W "/proj" "/proj/contracts/Ping.sol"
      = resolve Sample.W "/proj" "contracts/Ping.sol")
  /\ entryPoints_loop Sample.W 20 "/proj" ["Main.sol"; "Lib.sol"] [] []
       = Returns ([("Lib.sol", "Main.sol")], ["Main.sol"; "Lib.sol"; "Lib.sol"])
  /\ count_occ string_dec ["Main.sol"; "Lib.sol"; "Lib.sol"] "Lib.sol" = 2
  /\ ~ NoDup ["Main.sol"; "Lib.sol"; "Lib.sol"].
Proof.
  split; [repeat split; vm_compute; reflexivity|].
  split; [vm_compute; reflexivity | split; [reflexivity|]].
  intros H. inversion H as [|? ? _ H']. inversion H' as [|? ? Hin _].
  apply Hin. now left.
Qed.

(** ** [printConcatenation] *)

Lemma cleanFile_returns (P : Platform) (cwd f : string) (c : cleaned) :
  cleanFile P cwd f = Returns c ->
  c = (trim (stripped (contents_of P cwd f)), versions_of P cwd f, experimentals_of P cwd f).
Proof.
  unfold cleanFile, versions_of, experimentals_of, contents_of, stripped.
  destruct (resolve P cwd f); cbn; intros H; try discriminate. now injection H.
Qed.

Lemma all_cleanFile_returns (P : Platform) (cwd : string) (files : list string) :
  forall cs, all_cleanFile P cwd files = Returns cs ->
  cs = map (fun f => (trim (stripped (contents_of P cwd f)),
                      versions_of P cwd f, experimentals_of P cwd f)) files.
Proof.
  induction files as [|f files IH]; intros cs H; cbn [all_cleanFile] in H.
  - now injection H.
  - apply bind_returns in H as (c & Hc & H).
    apply bind_returns in H as (cs' & Hcs & H).
    injection H as <-. cbn [map]. f_equal; [now apply cleanFile_returns | now apply IH].
Qed.

Lemma reduce_cleanFiles_from (P : Platform) (cwd : string) (rest : list string) :
  forall done output versions experimentals,
  reduce_cleanFiles (done ++ rest) (length done)
    (map (fun f => (trim (stripped (contents_of P cwd f)),
                    versions_of P cwd f, experimentals_of P cwd f)) rest)
    (output, versions, experimentals)
  = (output +++ sections rest (map (fun f => trim (stripped (contents_of P cwd f))) rest),
     versions ++ flat_map (versions_of P cwd) rest,
     experimentals ++ flat_map (experimentals_of P cwd) rest).
Proof.
  induction rest as [|f rest IH]; intros done output versions experimentals.
  - cbn. now rewrite append_empty_r, !app_nil_r.
  - cbn [map reduce_cleanFiles flat_map sections].
    replace (done ++ f :: rest) with ((done ++ [f]) ++ rest) by now rewrite <- app_assoc.
    replace (S (length done)) with (length (done ++ [f])) by (rewrite length_app; simpl; lia).
    replace (nth (length done) ((done ++ [f]) ++ rest) "undefined") with f.
    + rewrite IH. rewrite <- !app_assoc. f_equal. f_equal.
      now rewrite !append_assoc.
    + rewrite <- app_assoc. rewrite app_nth2, Nat.sub_diag; [reflexivity | lia].
Qed.

(** The chunks [printConcatenation] writes: at most one version pragma, the
    experimental pragmas without repetition, and the sections of all files
    as one chunk. *)
Lemma printConcatenation_chunks (P : Platform) (cwd : string) (files chunks : list string) :
  printConcatenation P cwd files = Returns chunks ->
  chunks =
    firstn 1 (flat_map (versions_of P cwd) files)
    ++ unique (flat_map (experimentals_of P cwd) files)
    ++ [sections files (map (fun f => trim (stripped (contents_of P cwd f))) files)].
Proof.
  unfold printConcatenation. intros H.
  apply bind_returns in H as (cs & Hcs & H).
  apply all_cleanFile_returns in Hcs. subst cs.
  pose proof (reduce_cleanFiles_from P cwd files [] EmptyString [] []) as R.
  cbn [app length String.append] in R. rewrite R in H. injection H as <-.
  now destruct (flat_map (versions_of P cwd) files).
Qed.

(** ** [getSortedFilePaths] *)


Lemma getSortedFilePaths_cycle (P : Platform) (fuel : nat) (cwd : string)
    (entryPoints : list string) (truffleRoot : string)
    (g : tsort_graph) (visitedFiles : list string) :
  entryPoints_loop P fuel cwd entryPoints [] [] = Returns (g, visitedFiles) ->
  reports_cycle (tsort_sort P g) ->
  getSortedFilePaths P fuel cwd entryPoints truffleRoot =
  Throws (NewError (cycle_message visitedFiles)).
Proof.
  intros Hloop (e & Hsort & Hcycle). unfold getSortedFilePaths.
  rewrite Hloop. cbn. now rewrite Hsort, Hcycle.
Qed.

Lemma getSortedFilePaths_returns (P : Platform) (fuel : nat) (cwd : string)
    (entryPoints : list string) (truffleRoot : string) (files : list string) :
  getSortedFilePaths P fuel cwd entryPoints truffleRoot = Returns files ->
  exists g visitedFiles sorted,
    entryPoints_loop P fuel cwd entryPoints [] [] = Returns (g, visitedFiles) /\
    tsort_sort P g = inr sorted /\
    files = unique (map (fun f => fileNameToGlobalName P cwd f truffleRoot)
                        (sorted ++ entryPoints)).
Proof.
  unfold getSortedFilePaths. intros H.
  apply bind_returns in H as ([g v] & Hloop & H). cbn [fst snd] in H.
  apply bind_returns in H as (sorted & Hsort & H).
  exists g, v, sorted. repeat split; try assumption.
  - destruct (tsort_sort P g) as [e|l].
    + destruct (includes (toString e) _); discriminate.
    + now injection Hsort as ->.
  - now injection H.
Qed.





Lemma topological_b_correct (g : tsort_graph) (sorted : list string) :
  topological_b g sorted = true ->
  forall d t, In (d, t) g -> precedes d t sorted.
Proof.
  unfold topological_b. rewrite forallb_forall. intros H d t Hin.
  apply precedes_b_correct. exact (H (d, t) Hin).
Qed.

Lemma precedes_trans (a b c : string) (l : list string) :
  precedes a b l -> precedes b c l -> precedes a c l.
Proof.
  intros (i & j & Hi & Hj & Hij) (j' & k & Hj' & Hk & Hjk).
  rewrite Hj in Hj'. injection Hj' as <-. exists i, k. repeat split; try assumption. lia.
Qed.

Lemma walk_precedes (g : tsort_graph) (sorted : list string) :
  topological_b g sorted = true ->
  forall via a b, walk g a via b -> precedes a b sorted.
Proof.
  intros Htopo. induction via as [|c via IH]; intros a b H; cbn [walk] in H.
  - now apply (topological_b_correct g).
  - destruct H as [Hedge Hwalk]. apply (precedes_trans a c b).
    + now apply (topological_b_correct g).
    + now apply IH.
Qed.

(** A graph that has a topological order has no cycle. *)
Lemma topological_acyclic (g : tsort_graph) (sorted : list string) :
  topological_b g sorted = true -> ~ has_cycle g.
Proof.
  intros Htopo (n & via & Hwalk).
  apply (walk_precedes g sorted Htopo) in Hwalk.
  now apply precedes_distinct in Hwalk.
Qed.

(** On a graph with a cycle, a sorter that keeps its contract reports the
    cycle. *)
Lemma sorter_reports_cycle (P : Platform) (g : tsort_graph) :
  sorter_contract P g -> has_cycle g -> reports_cycle (tsort_sort P g).
Proof.
  intros [Hreturns Hthrows] Hcycle. unfold reports_cycle.
  destruct (tsort_sort P g) as [err|sorted] eqn:Hsort.
  - exists err. split; [reflexivity | now apply Hthrows].
  - exfalso. apply (topological_acyclic g sorted); [now apply Hreturns | assumption].
Qed.


(** ** C1: a dependency is listed before its dependents *)




(** ** [flatten] *)

Lemma flatten_unfold (P : Platform) (fuel : nat) (st : process_state)
    (filePaths : list string) (log : sink) (root : option string) :
  flatten P fuel st filePaths log root =
  match project_root P st root with
  | Returns truffleRoot =>
      match process_chdir P (cwd st) truffleRoot with
      | inl e => (Throws e, st)
      | inr directory =>
          match (sortedFiles <-
                   getSortedFilePaths P fuel directory
                     (getFilePathsFromTruffleRoot P (cwd st) filePaths truffleRoot)
                     truffleRoot ;;
                 printConcatenation P directory sortedFiles) with
          | Returns chunks =>
              match log_chunks log (logged st) chunks with
              | (Some e, taken) => (Throws e, {| cwd := directory; logged := taken |})
              | (None, taken) =>
                  match process_chdir P directory (cwd st) with
                  | inl e => (Throws e, {| cwd := directory; logged := taken |})
                  | inr back => (Returns tt, {| cwd := back; logged := taken |})
                  end
              end
          | Throws e => (Throws e, {| cwd := directory; logged := logged st |})
          | OutOfFuel => (OutOfFuel, {| cwd := directory; logged := logged st |})
          end
      end
  | Throws e => (Throws e, st)
  | OutOfFuel => (OutOfFuel, st)
  end.
Proof.
  unfold flatten, project_root.
  destruct (truthy root && negb (fs_existsSync P (cwd st) _)); [reflexivity|].
  destruct (if truthy root then _ else _) as [truffleRoot|e|]; try reflexivity.
  destruct (process_chdir P (cwd st) truffleRoot) as [e|directory]; [reflexivity|].
  cbn [cwd logged].
  destruct (getSortedFilePaths P fuel directory _ truffleRoot) as [sortedFiles|e|];
    reflexivity.
Qed.

(** A [log] that never throws takes every chunk. *)
Lemma log_chunks_never_throws (taken chunks : list string) :
  log_chunks never_throws taken chunks = (None, taken ++ chunks).
Proof.
  revert taken. induction chunks as [|c chunks IH]; intros taken; cbn [log_chunks].
  - now rewrite app_nil_r.
  - unfold never_throws at 1. rewrite IH. now rewrite <- app_assoc.
Qed.

(** What [log] has taken when it throws on a chunk: the chunks before it. *)
Lemma log_chunks_throws (log : sink) (chunks : list string) :
  forall taken e taken',
    log_chunks log taken chunks = (Some e, taken') ->
    exists before chunk after,
      chunks = before ++ chunk :: after
      /\ taken' = taken ++ before
      /\ log (taken ++ before) chunk = Some e
      /\ log_chunks log taken before = (None, taken ++ before).
Proof.
  induction chunks as [|c chunks IH]; intros taken e taken' H; cbn [log_chunks] in H.
  - discriminate H.
  - destruct (log taken c) as [e0|] eqn:Hc.
    + injection H as <- <-. exists [], c, chunks. rewrite app_nil_r.
      repeat split; assumption.
    + destruct (IH _ _ _ H) as (before & chunk & after & -> & -> & Hlog & Hbefore).
      exists (c :: before), chunk, after. rewrite <- !app_assoc in *. cbn [app] in *.
      repeat split; try assumption.
      cbn [log_chunks]. now rewrite Hc.
Qed.

Lemma log_chunks_returns (log : sink) (chunks : list string) :
  forall taken taken',
    log_chunks log taken chunks = (None, taken') -> taken' = taken ++ chunks.
Proof.
  induction chunks as [|c chunks IH]; intros taken taken' H; cbn [log_chunks] in H.
  - injection H as <-. now rewrite app_nil_r.
  - destruct (log taken c); [discriminate H|].
    rewrite (IH _ _ H). now rewrite <- app_assoc.
Qed.

(** ** C2: every global name once, every entry point present *)




(** ** C3: a cycle fails the whole operation *)

Lemma join_includes (sep : string) (l : list string) (f : string) :
  In f l -> exists pre suf, join sep l = pre +++ f +++ suf.
Proof.
  unfold join. induction l as [|x l IH]; intros Hin; [destruct Hin|].
  cbn [String.concat]. destruct Hin as [->|Hin].
  - exists EmptyString. destruct l as [|y l].
    + exists EmptyString. simpl. now rewrite append_empty_r.
    + now exists (sep +++ String.concat sep (y :: l)).
  - destruct l as [|y l]; [destruct Hin|].
    destruct (IH Hin) as (pre & suf & Heq). rewrite Heq.
    exists (x +++ sep +++ pre), suf. now rewrite !append_assoc.
Qed.

Lemma cycle_message_includes (visitedFiles : list string) (f : string) :
  In f visitedFiles -> includes (cycle_message visitedFiles) f = true.
Proof.
  intros Hin. destruct (join_includes (nl +++ tab) visitedFiles f Hin) as (pre & suf & Heq).
  unfold cycle_message. rewrite Heq.
  rewrite <- !append_assoc. rewrite append_assoc. apply includes_middle.
Qed.

(** C3.  Let [flatten] have found the project root and changed into it.
    When the graph built from the entry points has a cycle, and the sorter
    keeps its contract on it, [flatten] fails with the error whose message
    lists the visited files, every one of which can be read in the message,
    and writes nothing: the log is as it was. *)
Theorem cycle_fails_without_output (P : Platform) (fuel : nat) (st : process_state)
    (filePaths : list string) (log : sink) (root : option string)
    (truffleRoot directory : string)
    (g : tsort_graph) (visitedFiles : list string) :
  project_root P st root = Returns truffleRoot ->
  process_chdir P (cwd st) truffleRoot = inr directory ->
  entryPoints_loop P fuel directory
    (getFilePathsFromTruffleRoot P (cwd st) filePaths truffleRoot) [] []
    = Returns (g, visitedFiles) ->
  has_cycle g ->
  sorter_contract P g ->
  flatten P fuel st filePaths log root =
    (Throws (NewError (cycle_message visitedFiles)),
     {| cwd := directory; logged := logged st |})
  /\ forall f, In f visitedFiles -> includes (cycle_message visitedFiles) f = true.
Proof.
  intros Hroot Hchdir Hloop Hcycle Hsorter. split; [|apply cycle_message_includes].
  rewrite flatten_unfold, Hroot, Hchdir.
  now rewrite (getSortedFilePaths_cycle _ _ _ _ _ _ _ Hloop
                 (sorter_reports_cycle P g Hsorter Hcycle)).
Qed.

(** Witness: [Ping] imports [Pong], which imports [Ping]. *)
Lemma cycle_fails_without_output_witness :
  flatten Sample.W 20 Sample.at_root ["contracts/Ping.sol"] never_throws None =
    (Throws (NewError (cycle_message
       ["contracts/Ping.sol"; "/proj/contracts/Pong.sol"; "/proj/contracts/Ping.sol"])),
     {| cwd := "/proj"; logged := [] |}).
Proof.
  apply (cycle_fails_without_output Sample.W 20 Sample.at_root ["contracts/Ping.sol"]
           never_throws None "/proj" "/proj"
           [("/proj/contracts/Pong.sol", "contracts/Ping.sol");
            ("/proj/contracts/Ping.sol", "/proj/contracts/Pong.sol");
            ("/proj/contracts/Pong.sol", "/proj/contracts/Ping.sol")]).
  - reflexivity.
  - reflexivity.
  - reflexivity.
  - exists "/proj/contracts/Ping.sol", ["/proj/contracts/Pong.sol"]. simpl. tauto.
  - split.
    + intros sorted Hsort. vm_compute in Hsort. discriminate Hsort.
    + intros err Hsort. vm_compute in Hsort. injection Hsort as <-. reflexivity.
Defined.

(** ** C10: the working directory *)

(** C10.  An error raised before the project root is known, and an error of
    [process.chdir] into the root, leave the process as it was.  Once
    [flatten] has changed into the root, the files are sorted and printed
    with the directory it is then in as working directory.  If [flatten]
    throws after that, the working directory stays that directory.  If it
    returns, the working directory is where [process.chdir] led from there
    for the directory [flatten] started in: that directory itself, when
    going back to a directory leads to it. *)
Theorem working_directory (P : Platform) (fuel : nat) (st : process_state)
    (filePaths : list string) (log : sink) (root : option string) :
  (forall e, project_root P st root = Throws e ->
             flatten P fuel st filePaths log root = (Throws e, st))
  /\ (forall truffleRoot, project_root P st root = Returns truffleRoot ->
        (forall e, process_chdir P (cwd st) truffleRoot = inl e ->
                   flatten P fuel st filePaths log root = (Throws e, st))
        /\ (forall directory, process_chdir P (cwd st) truffleRoot = inr directory ->
              fst (flatten P fuel st filePaths log root) =
                (chunks <- (sortedFiles <-
                              getSortedFilePaths P fuel directory
                                (getFilePathsFromTruffleRoot P (cwd st) filePaths truffleRoot)
                                truffleRoot ;;
                            printConcatenation P directory sortedFiles) ;;
                 match fst (log_chunks log (logged st) chunks) with
                 | Some e => Throws e
                 | None => _ <- lift (process_chdir P directory (cwd st)) ;; Returns tt
                 end)
              /\ match fst (flatten P fuel st filePaths log root) with
                 | Returns _ =>
                     process_chdir P directory (cwd st)
                       = inr (cwd (snd (flatten P fuel st filePaths log root)))
                     /\ ((forall back, process_chdir P directory (cwd st) = inr back ->
                                       back = cwd st) ->
                         cwd (snd (flatten P fuel st filePaths log root)) = cwd st)
                 | Throws _ => cwd (snd (flatten P fuel st filePaths log root)) = directory
                 | OutOfFuel => True
                 end)).
Proof.
  split.
  - intros e H. now rewrite flatten_unfold, H.
  - intros truffleRoot H. split.
    + intros e He. now rewrite flatten_unfold, H, He.
    + intros directory Hd. rewrite flatten_unfold, H, Hd.
      destruct (bind (getSortedFilePaths P fuel directory _ truffleRoot) _)
        as [chunks|e|]; cbn [bind]; [| split; reflexivity | split; [reflexivity | exact I]].
      destruct (log_chunks log (logged st) chunks) as [[e|] taken]; cbn [fst];
        [split; reflexivity|].
      destruct (process_chdir P directory (cwd st)) as [e|back] eqn:Hback; cbn [lift bind fst snd cwd];
        [split; reflexivity|].
      split; [reflexivity|]. split; [reflexivity|].
      intros Hhome. now apply Hhome.
Qed.

(** Witness: started in [/proj/contracts], a run that returns, one that
    throws after the change of directory, and one whose root is a file. *)
Lemma working_directory_witness :
  cwd (snd (flatten Sample.W 20 {| cwd := "/proj/contracts"; logged := [] |}
              ["Token.sol"] never_throws None)) = "/proj/contracts"
  /\ cwd (snd (flatten Sample.W 20 {| cwd := "/proj/contracts"; logged := [] |}
                 ["Broken.sol"] never_throws None)) = "/proj"
  /\ flatten Sample.W 20 {| cwd := "/proj/contracts"; logged := [] |}
       ["Token.sol"] never_throws (Some "/proj/truffle.js")
     = (Throws (Thrown ("Error: ENOTDIR: not a directory, chdir '/proj/contracts' -> "
                        +++ "'/proj/truffle.js'")),
        {| cwd := "/proj/contracts"; logged := [] |}).
Proof.
  assert (Hroot : project_root Sample.W {| cwd := "/proj/contracts"; logged := [] |} None
                  = Returns "/proj") by (vm_compute; reflexivity).
  assert (Hchdir : process_chdir Sample.W "/proj/contracts" "/proj" = inr "/proj")
    by (vm_compute; reflexivity).
  assert (Hfile : project_root Sample.W {| cwd := "/proj/contracts"; logged := [] |}
                    (Some "/proj/truffle.js") = Returns "/proj/truffle.js")
    by (vm_compute; reflexivity).
  pose proof (working_directory Sample.W 20 {| cwd := "/proj/contracts"; logged := [] |}
                ["Token.sol"] never_throws None) as Hreturns.
  pose proof (working_directory Sample.W 20 {| cwd := "/proj/contracts"; logged := [] |}
                ["Broken.sol"] never_throws None) as Hthrows.
  pose proof (working_directory Sample.W 20 {| cwd := "/proj/contracts"; logged := [] |}
                ["Token.sol"] never_throws (Some "/proj/truffle.js")) as Hnotdir.
  destruct Hreturns as [_ Hreturns]. destruct Hthrows as [_ Hthrows].
  destruct Hnotdir as [_ Hnotdir].
  destruct (Hreturns "/proj" Hroot) as [_ Hreturns'].
  destruct (Hthrows "/proj" Hroot) as [_ Hthrows'].
  destruct (Hnotdir "/proj/truffle.js" Hfile) as [Hnotdir' _].
  destruct (Hreturns' "/proj" Hchdir) as [_ Hr].
  destruct (Hthrows' "/proj" Hchdir) as [_ Ht].
  split; [|split].
  - vm_compute in Hr. destruct Hr as [_ Hr]. vm_compute. apply Hr.
    intros back Hback. now injection Hback.
  - vm_compute in Ht. vm_compute. exact Ht.
  - apply Hnotdir'. vm_compute. reflexivity.
Defined.

(** ** C8: errors *)


Section Errors.

Variable P : Platform.
Variable cwd : string.


Lemma resolve_throws_inv (x : string) (e : js_error) :
  Resolver_resolve P cwd x = inl e
  \/ (exists path, Resolver_resolve P cwd x = inr path /\ fs_readFileSync P cwd path = inl e) ->
  resolve P cwd x = Throws e.
Proof.
  unfold resolve. intros [H|(path & Hres & Hread)].
  - now rewrite H.
  - rewrite Hres. cbn. now rewrite Hread.
Qed.









End Errors.




(** ** C4: the version pragma *)












(** ** C5: the experimental pragmas *)

(** Between the version pragma and the bodies, [printConcatenation] writes
    the experimental pragmas of all files, in the order of [files], each one
    once and at the place of its first occurrence.  A pragma found in two
    files is exactly one of the chunks written, and the text of every file
    has the lines that the expression matches emptied before it is
    trimmed. *)
Lemma experimental_pragmas_among_chunks (P : Platform) (cwd : string)
    (files chunks : list string) :
  printConcatenation P cwd files = Returns chunks ->
  let experimentals := flat_map (experimentals_of P cwd) files in
  (exists header output,
      chunks = header ++ unique experimentals ++ [output] /\ length header <= 1)
  /\ NoDup (unique experimentals)
  /\ (forall p, In p (unique experimentals) <->
                exists f, In f files /\ In p (experimentals_of P cwd f))
  /\ (forall a b, precedes a b experimentals -> precedes a b (unique experimentals))
  /\ (forall f1 f2 p,
        In f1 files -> In f2 files ->
        In p (experimentals_of P cwd f1) -> In p (experimentals_of P cwd f2) ->
        count_occ string_dec chunks p = 1)
  /\ (forall f, match_pragma EXPERIMENTAL_SOLIDITY (stripped (contents_of P cwd f)) = []).
Proof.
  intros H experimentals. apply printConcatenation_chunks in H. fold experimentals in H.
  split; [|split; [|split; [|split; [|split; [|intros f; apply stripped_no_pragma]]]]].
  - eexists _, _. split; [exact H|]. apply firstn_le_length.
  - apply unique_NoDup.
  - intros p. rewrite unique_In. unfold experimentals. apply in_flat_map.
  - intros a b. apply unique_precedes.
  - intros f1 f2 p Hf1 _ Hp1 _.
    assert (Hp : pragma_line EXPERIMENTAL_SOLIDITY p = true)
      by now apply match_pragma_lines in Hp1.
    rewrite H, !count_occ_app.
    rewrite (NoDup_count_one (unique experimentals) p (unique_NoDup _)).
    + assert (H1 : count_occ string_dec (firstn 1 (flat_map (versions_of P cwd) files)) p = 0).
      { apply count_occ_not_In. intros Hin. apply firstn_one_In, in_flat_map in Hin as (f & _ & Hin).
        apply match_pragma_lines in Hin. apply version_not_experimental in Hp.
        congruence. }
      assert (H2 : count_occ string_dec
                     [sections files (map (fun f => trim (stripped (contents_of P cwd f))) files)]
                     p = 0).
      { apply count_occ_not_In. intros [Hin|[]]. subst p.
        rewrite (proj2 (sections_not_pragma _ _)) in Hp. discriminate. }
      rewrite H1, H2. reflexivity.
    + apply unique_In. unfold experimentals. apply in_flat_map. now exists f1.
Qed.

(** C5 fails on the code.  [G1] and [G2] both hold the line
    [pragma experimental ABIEncoderV2;], and [G2] starts with the same
    pragma indented.  The expression matches a pragma at the start of a line
    only, so the indented pragma stays in the body of [G2], and [trim] then
    brings it to the start of a line: the text written holds the line twice,
    once before the bodies and once as the first line of the body of
    [G2]. *)
Theorem experimental_pragma_written_twice :
  In Sample.ABI (experimentals_of Sample.Indented "/proj" "G1.sol")
  /\ In Sample.ABI (experimentals_of Sample.Indented "/proj" "G2.sol")
  /\ flattener Sample.Indented 20 "/proj" ["G2.sol"] None
     = (Returns
          (Sample.ABI +++ nl
           +++ nl +++ "// File: G1.sol" +++ nl +++ "contract G1 {}"
           +++ nl +++ "// File: G2.sol" +++ nl
           +++ Sample.ABI +++ nl +++ nl +++ nl +++ "contract G2 {}" +++ nl),
        {| cwd := "/proj";
           logged := [Sample.ABI;
                      sections ["G1.sol"; "G2.sol"]
                        ["contract G1 {}";
                         Sample.ABI +++ nl +++ nl +++ nl +++ "contract G2 {}"]] |})
  /\ count_occ string_dec
       (map fst (to_lines
          (Sample.ABI +++ nl
           +++ nl +++ "// File: G1.sol" +++ nl +++ "contract G1 {}"
           +++ nl +++ "// File: G2.sol" +++ nl
           +++ Sample.ABI +++ nl +++ nl +++ nl +++ "contract G2 {}" +++ nl)))
       Sample.ABI = 2.
Proof.
  split; [vm_compute; tauto|]. split; [vm_compute; tauto|].
  split; vm_compute; reflexivity.
Qed.

(** ** Fuel

    The fuel of [dependenciesDfs] bounds the depth of the recursion.  More
    fuel never changes a result, and when the files the resolver can find
    are among finitely many, a fuel above their number is never used up. *)

Section Fuel.

Variable P : Platform.
Variable cwd : string.

Lemma dependencies_loop_more_fuel
    (dfs dfs' : tsort_graph -> list string -> string -> outcome (tsort_graph * list string))
    (x : string) :
  (forall g v y r, dfs g v y = r -> r <> OutOfFuel -> dfs' g v y = r) ->
  forall deps g v r,
    dependencies_loop P dfs x deps g v = r -> r <> OutOfFuel ->
    dependencies_loop P dfs' x deps g v = r.
Proof.
  intros Hdfs. induction deps as [|d rest IH]; intros g v r H Hr; cbn [dependencies_loop] in *.
  - assumption.
  - destruct (tsort_add P g d x) as [e0|]; [assumption|].
    destruct (negb (array_includes v d)); [|now apply IH].
    destruct (dfs (g ++ [(d, x)]) v d) as [st|e|] eqn:Hcall; cbn [bind] in H.
    + rewrite (Hdfs _ _ _ _ Hcall); [|discriminate]. cbn [bind]. now apply IH.
    + rewrite (Hdfs _ _ _ _ Hcall); [|discriminate]. exact H.
    + congruence.
Qed.

Lemma dependenciesDfs_more_fuel (fuel : nat) :
  forall g v x r,
    dependenciesDfs P fuel cwd g v x = r -> r <> OutOfFuel ->
    dependenciesDfs P (S fuel) cwd g v x = r.
Proof.
  induction fuel as [|fuel IH]; intros g v x r H Hr; [cbn in H; congruence|].
  cbn [dependenciesDfs] in H |- *.
  destruct (resolve P cwd x) as [resolved|e|]; cbn [bind] in *; try assumption.
  destruct (getDependencies P _ _) as [deps|e|]; cbn [bind] in *; try assumption.
  now apply (dependencies_loop_more_fuel (dependenciesDfs P fuel cwd) _ x IH).
Qed.

Lemma entryPoints_loop_more_fuel (fuel : nat) :
  forall entryPoints g v r,
    entryPoints_loop P fuel cwd entryPoints g v = r -> r <> OutOfFuel ->
    entryPoints_loop P (S fuel) cwd entryPoints g v = r.
Proof.
  induction entryPoints as [|x rest IH]; intros g v r H Hr; cbn [entryPoints_loop] in *.
  - assumption.
  - destruct (dependenciesDfs P fuel cwd g v x) as [st|e|] eqn:Hcall; cbn [bind] in H.
    + rewrite (dependenciesDfs_more_fuel _ _ _ _ _ Hcall); [|discriminate].
      cbn [bind]. now apply IH.
    + rewrite (dependenciesDfs_more_fuel _ _ _ _ _ Hcall); [|discriminate]. exact H.
    + congruence.
Qed.

Lemma unvisited_more (universe v v' : list string) :
  (forall y, In y v -> In y v') ->
  length (unvisited universe v') <= length (unvisited universe v).
Proof.
  intros Hsub. unfold unvisited. induction universe as [|u us IH]; cbn [filter]; [lia|].
  destruct (array_includes v u) eqn:E.
  - apply array_includes_In, Hsub, array_includes_In in E. rewrite E. cbn [negb]. exact IH.
  - cbn [negb]. destruct (array_includes v' u); cbn [negb length]; lia.
Qed.

Lemma unvisited_visit (universe v : list string) (x : string) :
  In x universe -> ~ In x v ->
  length (unvisited universe (v ++ [x])) < length (unvisited universe v).
Proof.
  unfold unvisited. induction universe as [|u us IH]; intros Hin Hnew; [destruct Hin|].
  cbn [filter].
  assert (Hle : length (filter (fun u => negb (array_includes (v ++ [x]) u)) us)
                <= length (filter (fun u => negb (array_includes v u)) us)).
  { clear. induction us as [|w ws IHw]; cbn [filter]; [lia|].
    destruct (array_includes v w) eqn:E.
    - assert (E' : array_includes (v ++ [x]) w = true)
        by (apply array_includes_In, in_or_app; left; now apply array_includes_In).
      rewrite E'. cbn [negb]. exact IHw.
    - cbn [negb]. destruct (array_includes (v ++ [x]) w); cbn [negb length]; lia. }
  destruct (string_dec u x) as [->|Hne].
  - assert (E1 : array_includes v x = false) by now apply array_includes_not_In.
    assert (E2 : array_includes (v ++ [x]) x = true)
      by (apply array_includes_In, in_or_app; right; now left).
    rewrite E1, E2. cbn [negb length]. lia.
  - destruct Hin as [Hin|Hin]; [congruence|]. specialize (IH Hin Hnew).
    destruct (array_includes v u) eqn:E.
    + assert (E' : array_includes (v ++ [x]) u = true)
        by (apply array_includes_In, in_or_app; left; now apply array_includes_In).
      rewrite E'. cbn [negb]. exact IH.
    + assert (E' : array_includes (v ++ [x]) u = false).
      { apply array_includes_not_In. intros H. apply in_app_or in H as [H|[H|[]]].
        - now apply array_includes_not_In in E.
        - congruence. }
      rewrite E'. cbn [negb length]. lia.
Qed.

Variable universe : list string.
Hypothesis resolved_in_universe :
  forall x r, resolve P cwd x = Returns r -> In x universe.

Lemma dependencies_loop_enough_fuel
    (dfs : tsort_graph -> list string -> string -> outcome (tsort_graph * list string))
    (x : string) (bound : nat) :
  (forall g v y, ~ In y v -> length (unvisited universe v) <= bound ->
                 dfs g v y <> OutOfFuel) ->
  (forall g v y g' v', dfs g v y = Returns (g', v') -> traversal P cwd g v y g' v') ->
  forall deps g v,
    length (unvisited universe v) <= bound ->
    dependencies_loop P dfs x deps g v <> OutOfFuel.
Proof.
  intros Hfuel Htrav. induction deps as [|d rest IH]; intros g v Hv; cbn [dependencies_loop].
  - discriminate.
  - destruct (tsort_add P g d x) as [e0|]; [discriminate|].
    destruct (array_includes v d) eqn:Hvis; cbn [negb]; [now apply IH|].
    apply array_includes_not_In in Hvis.
    destruct (dfs (g ++ [(d, x)]) v d) as [[g1 v1]|e|] eqn:Hcall; cbn [bind fst snd].
    + apply IH. destruct (Htrav _ _ _ _ _ Hcall) as (new & -> & _).
      etransitivity; [|exact Hv]. apply unvisited_more.
      intros y Hy. apply in_or_app. now left.
    + discriminate.
    + now apply Hfuel in Hcall.
Qed.

Lemma dependenciesDfs_enough_fuel (fuel : nat) :
  forall g v x,
    1 <= fuel ->
    (In x universe -> length (unvisited universe (v ++ [x])) + 1 < fuel) ->
    dependenciesDfs P fuel cwd g v x <> OutOfFuel.
Proof.
  induction fuel as [|fuel IH]; intros g v x Hpos Hfuel; [lia|].
  cbn [dependenciesDfs].
  destruct (resolve P cwd x) as [resolved|e|] eqn:Hres; cbn [bind]; try discriminate.
  - specialize (Hfuel (resolved_in_universe _ _ Hres)).
    destruct (getDependencies P _ _) as [deps|e|] eqn:Hdeps; cbn [bind]; try discriminate.
    + apply (dependencies_loop_enough_fuel _ x (length (unvisited universe (v ++ [x])))).
      * intros g' v' y Hnew Hbound. apply IH; [lia|].
        intros Hy. pose proof (unvisited_visit universe v' y Hy Hnew). lia.
      * apply dependenciesDfs_traversal.
      * lia.
    + unfold getDependencies in Hdeps.
      destruct (parser_import_paths P _); discriminate.
  - unfold resolve in Hres.
    destruct (Resolver_resolve P cwd x); cbn in Hres; [discriminate|].
    destruct (fs_readFileSync P cwd _); discriminate.
Qed.

Lemma unvisited_length (v : list string) :
  length (unvisited universe v) <= length universe.
Proof. unfold unvisited. apply filter_length_le. Qed.

(** With more fuel than there are files, the traversal of the entry points
    returns or throws. *)
Lemma entryPoints_loop_enough_fuel (fuel : nat) :
  length universe + 2 <= fuel ->
  forall entryPoints g v,
    entryPoints_loop P fuel cwd entryPoints g v <> OutOfFuel.
Proof.
  intros Hfuel. induction entryPoints as [|x rest IH]; intros g v; cbn [entryPoints_loop].
  - discriminate.
  - destruct (dependenciesDfs P fuel cwd g v x) as [st|e|] eqn:Hcall; cbn [bind].
    + apply IH.
    + discriminate.
    + exfalso. revert Hcall. apply dependenciesDfs_enough_fuel; [lia|].
      intros _. pose proof (unvisited_length (v ++ [x])). lia.
Qed.

End Fuel.

(** ** The sample sorter keeps the contract

    The hypotheses on the sorter are not empty: the depth-first sorter of the
    sample platform keeps the contract on every graph. *)

Lemma precedes_snoc (b c : string) (l : list string) :
  In b l -> ~ In c l -> precedes b c (l ++ [c]).
Proof.
  induction l as [|x l IH]; intros Hb Hc; [destruct Hb|].
  cbn [app]. destruct (string_dec x b) as [->|Hne].
  - apply precedes_cons_head.
    + intros ->. apply Hc. now left.
    + apply in_or_app. right. now left.
  - apply precedes_cons_other; [assumption | |].
    + intros ->. apply Hc. now left.
    + apply IH; [destruct Hb; congruence | intros H; apply Hc; now right].
Qed.

Lemma filter_other (node : string) (l : list string) :
  ~ In node l -> filter (fun x => negb (String.eqb x node)) l = l.
Proof.
  induction l as [|x l IH]; intros H; [reflexivity|]. cbn [filter].
  destruct (String.eqb x node) eqn:E.
  - apply String.eqb_eq in E. subst. exfalso. apply H. now left.
  - cbn [negb]. f_equal. apply IH. intros Hin. apply H. now right.
Qed.

Section Sorter.

Variable ns : Tsort.nodes.

(** What a successful visit leaves. *)
Lemma visit_all_returns
    (visit : Tsort.marks -> string -> js_error + Tsort.marks) :
  (forall m node m',
      marks_consistent ns m -> visit m node = inr m' ->
      marks_consistent ns m' /\ Tsort.temp m' = Tsort.temp m /\
      In node (Tsort.perm m') /\
      exists extra, Tsort.sorted m' = Tsort.sorted m ++ extra) ->
  forall l m m',
    marks_consistent ns m -> Tsort.visit_all visit m l = inr m' ->
    marks_consistent ns m' /\ Tsort.temp m' = Tsort.temp m /\
    (forall x, In x l -> In x (Tsort.perm m')) /\
    exists extra, Tsort.sorted m' = Tsort.sorted m ++ extra.
Proof.
  intros Hvisit. induction l as [|n l IH]; intros m m' Hm H; cbn [Tsort.visit_all] in H.
  - injection H as <-. split; [assumption|]. split; [reflexivity|].
    split; [intros x [] | exists []; now rewrite app_nil_r].
  - destruct (visit m n) as [e|m1] eqn:Hn; [discriminate|].
    destruct (Hvisit _ _ _ Hm Hn) as (Hm1 & Ht1 & Hp1 & extra1 & Hs1).
    destruct (IH _ _ Hm1 H) as (Hm' & Ht' & Hp' & extra2 & Hs').
    split; [assumption|]. split; [congruence|]. split.
    + intros x [<-|Hx]; [|now apply Hp'].
      apply Hm'. rewrite Hs'. apply in_or_app. left. now apply Hm1.
    + exists (extra1 ++ extra2). now rewrite Hs', Hs1, app_assoc.
Qed.

Lemma visit_returns (fuel : nat) :
  forall m node m',
    marks_consistent ns m -> Tsort.visit fuel ns m node = inr m' ->
    marks_consistent ns m' /\ Tsort.temp m' = Tsort.temp m /\
    In node (Tsort.perm m') /\
    exists extra, Tsort.sorted m' = Tsort.sorted m ++ extra.
Proof.
  induction fuel as [|fuel IH]; intros m node m' Hm H; [discriminate|].
  cbn [Tsort.visit] in H.
  destruct (array_includes (Tsort.temp m) node) eqn:Htemp; [discriminate|].
  destruct (array_includes (Tsort.perm m) node) eqn:Hperm.
  - injection H as <-. apply array_includes_In in Hperm.
    split; [assumption|]. split; [reflexivity|]. split; [assumption|].
    exists []. now rewrite app_nil_r.
  - apply array_includes_not_In in Htemp, Hperm.
    set (m1 := {| Tsort.temp := node :: Tsort.temp m; Tsort.perm := Tsort.perm m;
                  Tsort.sorted := Tsort.sorted m |}) in H.
    assert (Hm1 : marks_consistent ns m1).
    { destruct Hm as (Hsp & Hfresh & Hord). split; [exact Hsp|]. split; [|exact Hord].
      intros x [<-|Hx]; [assumption | now apply Hfresh]. }
    destruct (Tsort.visit_all (Tsort.visit fuel ns) m1 (Tsort.before_of ns node))
      as [e|m2] eqn:Hall; [discriminate|].
    injection H as <-.
    destruct (visit_all_returns _ IH _ _ _ Hm1 Hall) as (Hm2 & Ht2 & Hp2 & extra & Hs2).
    destruct Hm2 as (Hsp2 & Hfresh2 & Hord2). cbn in Ht2, Hs2.
    assert (Hnode : ~ In node (Tsort.perm m2)).
    { apply Hfresh2. rewrite Ht2. now left. }
    assert (Htemp' : filter (fun x => negb (String.eqb x node)) (Tsort.temp m2)
                     = Tsort.temp m).
    { rewrite Ht2. cbn [filter]. rewrite String.eqb_refl. cbn [negb].
      now apply filter_other. }
    split; [split; [|split]|split; [|split]]; cbn [Tsort.temp Tsort.perm Tsort.sorted].
    + intros x. split.
      * intros Hx. apply in_app_or in Hx as [Hx|[<-|[]]]; [right; now apply Hsp2 | now left].
      * intros [<-|Hx]; apply in_or_app; [right; now left | left; now apply Hsp2].
    + intros x Hx. rewrite Htemp' in Hx.
      intros [<-|Hin]; [contradiction|].
      apply (Hfresh2 x); [rewrite Ht2; now right | assumption].
    + intros n b [<-|Hn] Hb.
      * apply precedes_snoc; [apply Hsp2; now apply Hp2 | now rewrite Hsp2].
      * apply precedes_app. now apply Hord2.
    + exact Htemp'.
    + now left.
    + exists (extra ++ [node]). now rewrite Hs2, app_assoc.
Qed.

End Sorter.

(** The graph the sorter builds from the calls of [add]. *)

Lemma before_of_absent (ns : Tsort.nodes) (n : string) :
  ~ In n (map fst ns) -> Tsort.before_of ns n = [].
Proof.
  induction ns as [|[m bs] ns IH]; intros H; [reflexivity|]. cbn [Tsort.before_of].
  destruct (String.eqb m n) eqn:E.
  - apply String.eqb_eq in E. subst. exfalso. apply H. now left.
  - apply IH. intros Hin. apply H. now right.
Qed.

Lemma has_node_In (ns : Tsort.nodes) (n : string) :
  Tsort.has_node ns n = true <-> In n (map fst ns).
Proof.
  induction ns as [|[m bs] ns IH]; cbn [Tsort.has_node map fst In].
  - split; [discriminate | tauto].
  - rewrite orb_true_iff, IH, String.eqb_eq. tauto.
Qed.

Lemma ensure_keys (ns : Tsort.nodes) (n : string) :
  In n (map fst (Tsort.ensure ns n))
  /\ forall k, In k (map fst ns) -> In k (map fst (Tsort.ensure ns n)).
Proof.
  unfold Tsort.ensure. destruct (Tsort.has_node ns n) eqn:E.
  - split; [now apply has_node_In | tauto].
  - rewrite map_app. split.
    + apply in_or_app. right. now left.
    + intros k Hk. apply in_or_app. now left.
Qed.

Lemma ensure_before_of (ns : Tsort.nodes) (n m : string) :
  Tsort.before_of (Tsort.ensure ns n) m = Tsort.before_of ns m.
Proof.
  unfold Tsort.ensure. destruct (Tsort.has_node ns n); [reflexivity|].
  induction ns as [|[k bs] ns IH]; cbn [app Tsort.before_of].
  - now destruct (String.eqb n m).
  - now destruct (String.eqb k m).
Qed.

Lemma push_before_keys (ns : Tsort.nodes) (n x : string) :
  map fst (Tsort.push_before ns n x) = map fst ns.
Proof.
  induction ns as [|[k bs] ns IH]; [reflexivity|]. cbn [Tsort.push_before].
  destruct (String.eqb k n); cbn [map fst]; [reflexivity | now rewrite IH].
Qed.

Lemma push_before_same (ns : Tsort.nodes) (n x : string) :
  In n (map fst ns) ->
  Tsort.before_of (Tsort.push_before ns n x) n = Tsort.before_of ns n ++ [x].
Proof.
  induction ns as [|[k bs] ns IH]; intros H; [destruct H|].
  cbn [Tsort.push_before Tsort.before_of].
  destruct (String.eqb k n) eqn:E; cbn [Tsort.before_of]; rewrite E; [reflexivity|].
  apply IH. destruct H as [H|H]; [|assumption].
  cbn in H. apply String.eqb_neq in E. congruence.
Qed.

Lemma push_before_other (ns : Tsort.nodes) (n x m : string) :
  m <> n ->
  Tsort.before_of (Tsort.push_before ns n x) m = Tsort.before_of ns m.
Proof.
  intros Hne. induction ns as [|[k bs] ns IH]; [reflexivity|].
  cbn [Tsort.push_before Tsort.before_of].
  destruct (String.eqb k n) eqn:E; cbn [Tsort.before_of].
  - apply String.eqb_eq in E. subst k.
    assert (E' : String.eqb n m = false) by (apply String.eqb_neq; congruence).
    now rewrite E'.
  - destruct (String.eqb k m); [reflexivity | exact IH].
Qed.

Lemma add_keeps (ns : Tsort.nodes) (a b : string) :
  (forall k, In k (map fst ns) -> In k (map fst (Tsort.add ns a b)))
  /\ (forall m x, In x (Tsort.before_of ns m) -> In x (Tsort.before_of (Tsort.add ns a b) m))
  /\ In b (map fst (Tsort.add ns a b))
  /\ In a (Tsort.before_of (Tsort.add ns a b) b).
Proof.
  unfold Tsort.add.
  destruct (ensure_keys ns a) as [_ Ha]. destruct (ensure_keys (Tsort.ensure ns a) b) as [Hb Hab].
  split; [|split; [|split]].
  - intros k Hk. rewrite push_before_keys. now apply Hab, Ha.
  - intros m x Hx. destruct (string_dec m b) as [->|Hne].
    + rewrite (push_before_same _ _ _ Hb), !ensure_before_of.
      apply in_or_app. now left.
    + now rewrite (push_before_other _ _ _ _ Hne), !ensure_before_of.
  - now rewrite push_before_keys.
  - rewrite (push_before_same _ _ _ Hb). apply in_or_app. right. now left.
Qed.

Lemma build_from_edges (g : tsort_graph) :
  forall ns0,
    let ns := fold_left (fun ns e => Tsort.add ns (fst e) (snd e)) g ns0 in
    (forall k, In k (map fst ns0) -> In k (map fst ns))
    /\ (forall m x, In x (Tsort.before_of ns0 m) -> In x (Tsort.before_of ns m))
    /\ (forall d t, In (d, t) g -> In t (map fst ns) /\ In d (Tsort.before_of ns t)).
Proof.
  induction g as [|[a b] g IH]; intros ns0; cbn [fold_left fst snd].
  - split; [tauto | split; [tauto | intros d t []]].
  - destruct (IH (Tsort.add ns0 a b)) as (Hkeys & Hbefore & Hedges).
    destruct (add_keeps ns0 a b) as (Hk & Hb & Hin & Ha).
    split; [|split].
    + intros k Hk0. now apply Hkeys, Hk.
    + intros m x Hx. now apply Hbefore, Hb.
    + intros d t [[= <- <-]|Hin']; [|now apply Hedges].
      split; [now apply Hkeys | now apply Hbefore].
Qed.

Lemma unvisited_same (universe v v' : list string) :
  (forall y, In y v <-> In y v') -> unvisited universe v = unvisited universe v'.
Proof.
  intros H. unfold unvisited. apply filter_ext. intros u. f_equal.
  destruct (array_includes v u) eqn:E.
  - symmetry. apply array_includes_In, H, array_includes_In. exact E.
  - symmetry. apply array_includes_not_In. intros Hin.
    apply array_includes_not_In in E. apply E, H, Hin.
Qed.

Section SorterFuel.

Variable ns : Tsort.nodes.

Lemma visit_all_throws
    (visit : Tsort.marks -> string -> js_error + Tsort.marks) (stack : list string) :
  (forall m node m',
      marks_consistent ns m -> visit m node = inr m' ->
      marks_consistent ns m' /\ Tsort.temp m' = Tsort.temp m /\
      In node (Tsort.perm m') /\
      exists extra, Tsort.sorted m' = Tsort.sorted m ++ extra) ->
  (forall m node e,
      marks_consistent ns m -> Tsort.temp m = stack -> visit m node = inl e ->
      e = Tsort.cycle_error) ->
  forall l m e,
    marks_consistent ns m -> Tsort.temp m = stack ->
    Tsort.visit_all visit m l = inl e -> e = Tsort.cycle_error.
Proof.
  intros Hreturns Hthrows. induction l as [|n l IH]; intros m e Hm Ht H;
    cbn [Tsort.visit_all] in H; [discriminate|].
  destruct (visit m n) as [e1|m1] eqn:Hn.
  - injection H as <-. now apply (Hthrows m n).
  - destruct (Hreturns _ _ _ Hm Hn) as (Hm1 & Ht1 & _).
    apply (IH m1); [assumption | congruence | assumption].
Qed.

Lemma visit_throws (fuel : nat) :
  forall m node e,
    marks_consistent ns m ->
    length (unvisited (map fst ns) (Tsort.temp m)) < fuel ->
    Tsort.visit fuel ns m node = inl e -> e = Tsort.cycle_error.
Proof.
  induction fuel as [|fuel IH]; intros m node e Hm Hfuel H; [lia|].
  cbn [Tsort.visit] in H.
  destruct (array_includes (Tsort.temp m) node) eqn:Htemp; [now injection H|].
  destruct (array_includes (Tsort.perm m) node) eqn:Hperm; [discriminate|].
  apply array_includes_not_In in Htemp, Hperm.
  set (m1 := {| Tsort.temp := node :: Tsort.temp m; Tsort.perm := Tsort.perm m;
                Tsort.sorted := Tsort.sorted m |}) in H.
  assert (Hm1 : marks_consistent ns m1).
  { destruct Hm as (Hsp & Hfresh & Hord). split; [exact Hsp|]. split; [|exact Hord].
    intros x [<-|Hx]; [assumption | now apply Hfresh]. }
  destruct (Tsort.visit_all (Tsort.visit fuel ns) m1 (Tsort.before_of ns node))
    as [e1|m2] eqn:Hall; [|discriminate].
  injection H as <-.
  destruct (in_dec string_dec node (map fst ns)) as [Hkey|Hkey].
  - apply (visit_all_throws (Tsort.visit fuel ns) (node :: Tsort.temp m)
             (visit_returns ns fuel)) in Hall; try assumption; try reflexivity.
    intros m' node' e' Hm' Ht' He'. apply (IH m' node'); try assumption.
    rewrite Ht'.
    rewrite (unvisited_same _ (node :: Tsort.temp m) (Tsort.temp m ++ [node])).
    + pose proof (unvisited_visit (map fst ns) (Tsort.temp m) node Hkey Htemp). lia.
    + intros y. rewrite in_app_iff. cbn. tauto.
  - rewrite (before_of_absent ns node Hkey) in Hall. discriminate.
Qed.

End SorterFuel.

Lemma sample_sorter_contract (fs : World.files) (g : tsort_graph) :
  sorter_contract (World.platform fs) g.
Proof.
  unfold sorter_contract. cbn [tsort_sort World.platform]. unfold Tsort.sort.
  set (ns := Tsort.build g).
  set (start := {| Tsort.temp := []; Tsort.perm := []; Tsort.sorted := [] |}).
  assert (Hstart : marks_consistent ns start).
  { split; [tauto | split; [intros x [] | intros n b []]]. }
  destruct (Tsort.visit_all (Tsort.visit (S (length ns)) ns) start (map fst ns))
    as [e|m] eqn:Hall; split; intros r Hr; try discriminate; injection Hr as <-.
  - apply (visit_all_throws ns _ [] (visit_returns ns _)) in Hall; try assumption;
      try reflexivity.
    + now subst e.
    + intros m node e' Hm Ht. apply visit_throws; [assumption|].
      rewrite Ht. pose proof (filter_length_le
        (fun u => negb (array_includes [] u)) (map fst ns)) as Hle.
      unfold unvisited. rewrite length_map in Hle. lia.
  - destruct (visit_all_returns ns _ (visit_returns ns _) _ _ _ Hstart Hall)
      as ((_ & _ & Hord) & _ & Hdone & _).
    unfold topological_b. apply forallb_forall. intros [d t] Hedge. cbn [fst snd].
    apply precedes_b_correct.
    destruct (build_from_edges g []) as (_ & _ & Hedges).
    destruct (Hedges d t Hedge) as [Ht Hd]. fold (Tsort.build g) in Ht, Hd. fold ns in Ht, Hd.
    apply Hord; [now apply Hdone | assumption].
Qed.

(** * Further properties *)

(** ** [unique] *)

Lemma unique_from_fixed (l seen : list string) :
  NoDup l -> (forall x, In x l -> ~ In x seen) -> unique_from seen l = l.
Proof.
  revert seen; induction l as [|x l IH]; intros seen Hnd Hfresh; [reflexivity|].
  cbn [unique_from]. inversion Hnd as [|? ? Hx Hl]; subst.
  assert (E : array_includes seen x = false)
    by (apply array_includes_not_In, Hfresh; now left).
  rewrite E. f_equal. apply IH; [assumption|].
  intros y Hy [<-|Hin]; [contradiction|]. apply (Hfresh y); [now right | assumption].
Qed.

(** X1.  [unique] keeps exactly the elements of the array, each once; an
    array without repetition comes back as it is, so applying [unique] twice
    is applying it once; the result is never longer than the array. *)
Theorem unique_is_deduplication (array : list string) :
  NoDup (unique array)
  /\ (forall x, In x (unique array) <-> In x array)
  /\ (NoDup array -> unique array = array)
  /\ unique (unique array) = unique array
  /\ length (unique array) <= length array.
Proof.
  assert (Hfixed : forall l, NoDup l -> unique l = l).
  { intros l Hl. apply unique_from_fixed; [assumption | intros x _ []]. }
  split; [apply unique_NoDup|]. split; [apply unique_In|]. split; [apply Hfixed|].
  split; [apply Hfixed, unique_NoDup|].
  apply NoDup_incl_length; [apply unique_NoDup|].
  intros x Hx. now apply unique_In.
Qed.

(** Witness: an array without repetition. *)
Lemma unique_is_deduplication_witness :
  unique ["b.sol"; "a.sol"; "c.sol"] = ["b.sol"; "a.sol"; "c.sol"].
Proof.
  destruct (unique_is_deduplication ["b.sol"; "a.sol"; "c.sol"]) as (_ & _ & Hfixed & _).
  apply Hfixed. repeat constructor; simpl; intuition discriminate.
Defined.

(** ** [getDirPath] *)

Lemma substring_zero_empty (s : string) : String.substring 0 0 s = EmptyString.
Proof. now destruct s. Qed.

(** X2.  [getDirPath] returns a prefix of the path: the whole path is the
    result followed by a rest that starts at the last separator, and for a
    path without separator the result is empty. *)
Theorem getDirPath_is_prefix (P : Platform) (filePath : string) :
  exists rest,
    filePath = getDirPath P filePath +++ rest
    /\ ((find_last (path_sep P) filePath = None /\ find_last "/" filePath = None
         /\ getDirPath P filePath = EmptyString)
        \/ String.prefix (path_sep P) rest = true
        \/ String.prefix "/" rest = true).
Proof.
  unfold getDirPath, lastIndexOf, substring0.
  destruct (find_last (path_sep P) filePath) as [i|] eqn:H1;
    destruct (find_last "/" filePath) as [j|] eqn:H2; cbn [index_or_minus_one].
  - destruct (Z.max_spec (Z.of_nat i) (Z.of_nat j)) as [[_ ->]|[_ ->]]; rewrite Nat2Z.id.
    + destruct (find_last_some _ _ _ H2) as (pre & suf & Heq & <-).
      exists ("/" +++ suf). rewrite Heq at 2. rewrite substring_prefix.
      split; [exact Heq | right; right]. apply prefix_split. now exists suf.
    + destruct (find_last_some _ _ _ H1) as (pre & suf & Heq & <-).
      exists (path_sep P +++ suf). rewrite Heq at 2. rewrite substring_prefix.
      split; [exact Heq | right; left]. apply prefix_split. now exists suf.
  - rewrite Z.max_l by lia. rewrite Nat2Z.id.
    destruct (find_last_some _ _ _ H1) as (pre & suf & Heq & <-).
    exists (path_sep P +++ suf). rewrite Heq at 2. rewrite substring_prefix.
    split; [exact Heq | right; left]. apply prefix_split. now exists suf.
  - rewrite Z.max_r by lia. rewrite Nat2Z.id.
    destruct (find_last_some _ _ _ H2) as (pre & suf & Heq & <-).
    exists ("/" +++ suf). rewrite Heq at 2. rewrite substring_prefix.
    split; [exact Heq | right; right]. apply prefix_split. now exists suf.
  - cbn. rewrite substring_zero_empty. exists filePath. split; [reflexivity|].
    left. repeat split.
Qed.

(** ** [cleanFile] *)

Lemma Subsequence_refl (s : string) : Subsequence s s.
Proof. induction s; now constructor. Qed.

Lemma Subsequence_trans (a b c : string) :
  Subsequence a b -> Subsequence b c -> Subsequence a c.
Proof.
  intros Hab Hbc. revert a Hab. induction Hbc as [|x b c Hbc IH|x b c Hbc IH]; intros a Hab.
  - assumption.
  - inversion Hab; subst; constructor; now apply IH.
  - constructor. now apply IH.
Qed.

Lemma Subsequence_app (a b c d : string) :
  Subsequence a b -> Subsequence c d -> Subsequence (a +++ c) (b +++ d).
Proof. intros Hab Hcd. induction Hab; cbn [String.append]; try assumption; now constructor. Qed.

Lemma Subsequence_empty_l (s : string) : Subsequence EmptyString s.
Proof. induction s; now constructor. Qed.

Lemma trimStart_Subsequence (s : string) : Subsequence (trimStart s) s.
Proof.
  induction s as [|c s IH]; cbn [trimStart]; [constructor|].
  destruct (is_whitespace c); [now constructor | apply Subsequence_refl].
Qed.

Lemma trimEnd_Subsequence (s : string) : Subsequence (trimEnd s) s.
Proof.
  induction s as [|c s IH]; cbn [trimEnd]; [constructor|].
  destruct (trimEnd s) as [|d r].
  - destruct (is_whitespace c); [now constructor|].
    constructor. exact IH.
  - now constructor.
Qed.

Lemma replace_IMPORT_from_Subsequence (s : string) :
  forall at_line_start skip,
    Subsequence (replace_IMPORT_from at_line_start skip s) s.
Proof.
  induction s as [|c s IH]; intros b k; cbn [replace_IMPORT_from]; [constructor|].
  destruct k as [|k]; [|now constructor].
  destruct (if b then IMPORT_match_length (String c s) else None) as [[|n]|];
    now constructor.
Qed.

(** Cutting a text into lines loses nothing. *)
Lemma of_lines_to_lines (s : string) : of_lines (to_lines s) = s.
Proof.
  induction s as [|c s IH]; cbn [to_lines]; [reflexivity|].
  destruct (is_line_terminator c).
  - cbn [of_lines]. unfold line_text. cbn. now rewrite IH.
  - destruct (to_lines_nonempty s) as (b & e & ls & Hs). rewrite Hs in *.
    cbn [of_lines] in *. unfold line_text in *. cbn [fst snd] in *.
    destruct e; cbn [String.append]; now rewrite IH.
Qed.

Lemma blank_pragma_Subsequence (keyword : string) (ls : list line) :
  Subsequence (of_lines (map (blank_pragma keyword) ls)) (of_lines ls).
Proof.
  induction ls as [|[b e] ls IH]; cbn [map of_lines]; [constructor|].
  apply Subsequence_app; [|exact IH].
  unfold blank_pragma, line_text. cbn [fst snd].
  destruct (pragma_line keyword b); cbn [fst snd]; [|apply Subsequence_refl].
  destruct e; [|apply Subsequence_empty_l].
  change (String a EmptyString) with (EmptyString +++ String a EmptyString) at 1.
  apply Subsequence_app; [apply Subsequence_empty_l | apply Subsequence_refl].
Qed.

Lemma replace_pragma_Subsequence (keyword s : string) :
  Subsequence (replace_pragma keyword s) s.
Proof.
  unfold replace_pragma. rewrite <- (of_lines_to_lines s) at 2.
  apply blank_pragma_Subsequence.
Qed.

Lemma trimStart_first (s : string) : not_whitespace (first_char (trimStart s)).
Proof.
  induction s as [|c s IH]; cbn [trimStart]; [exact I|].
  destruct (is_whitespace c) eqn:E; [exact IH | exact E].
Qed.

Lemma trimEnd_last (s : string) : not_whitespace (last_char (trimEnd s)).
Proof.
  induction s as [|c s IH]; cbn [trimEnd]; [exact I|].
  destruct (trimEnd s) as [|d r].
  - destruct (is_whitespace c) eqn:E; [exact I | exact E].
  - exact IH.
Qed.

Lemma trimEnd_first (s : string) :
  not_whitespace (first_char s) -> not_whitespace (first_char (trimEnd s)).
Proof.
  destruct s as [|c s]; [intros _; exact I|]. cbn [first_char not_whitespace trimEnd].
  intros E. destruct (trimEnd s); [rewrite E|]; exact E.
Qed.

(** X3.  The body [cleanFile] returns is made of characters of the file, in
    their order: the replacements and [trim] only delete.  It neither starts
    nor ends with white space. *)
Theorem cleanFile_only_deletes (P : Platform) (cwd filePath : string)
    (clean : string) (version experimentals : list string) :
  cleanFile P cwd filePath = Returns (clean, version, experimentals) ->
  Subsequence clean (contents_of P cwd filePath)
  /\ not_whitespace (first_char clean)
  /\ not_whitespace (last_char clean).
Proof.
  intros H. apply cleanFile_returns in H. injection H as -> _ _.
  split; [|split].
  - unfold trim, stripped.
    eapply Subsequence_trans; [apply trimEnd_Subsequence|].
    eapply Subsequence_trans; [apply trimStart_Subsequence|].
    eapply Subsequence_trans; [apply replace_pragma_Subsequence|].
    eapply Subsequence_trans; [apply replace_pragma_Subsequence|].
    apply replace_IMPORT_from_Subsequence.
  - apply trimEnd_first, trimStart_first.
  - apply trimEnd_last.
Qed.

(** Witness: [Ownable] of the sample project. *)
Lemma cleanFile_only_deletes_witness :
  Subsequence "contract Ownable {}" (contents_of Sample.W "/proj" "contracts/Ownable.sol")
  /\ not_whitespace (first_char "contract Ownable {}")
  /\ not_whitespace (last_char "contract Ownable {}").
Proof.
  apply (cleanFile_only_deletes Sample.W "/proj" "contracts/Ownable.sol"
           "contract Ownable {}" ["pragma solidity ^0.5.2;"] [Sample.ABI]).
  vm_compute. reflexivity.
Defined.



Lemma to_lines_head (s b : string) (e : option ascii) (ls : list line) :
  to_lines s = (b, e) :: ls -> exists suf, s = b +++ suf.
Proof.
  revert b e ls; induction s as [|c s IH]; intros b e ls H; cbn [to_lines] in H.
  - injection H as <- _ _. now exists EmptyString.
  - destruct (is_line_terminator c).
    + injection H as <- _ _. now exists (String c s).
    + destruct (to_lines s) as [|[b' e'] ls'] eqn:Hs; [injection H as <- _ _; now exists s|].
      injection H as <- _ _. destruct (IH b' e' ls' eq_refl) as [suf ->].
      now exists suf.
Qed.

(** Every line of a text is a piece of the text. *)
Lemma to_lines_In (s : string) :
  forall l, In l (to_lines s) -> exists pre suf, s = pre +++ fst l +++ suf.
Proof.
  induction s as [|c s IH]; intros l Hin; cbn [to_lines] in Hin.
  - destruct Hin as [<-|[]]. now exists EmptyString, EmptyString.
  - destruct (is_line_terminator c).
    + destruct Hin as [<-|Hin]; [now exists EmptyString, (String c s)|].
      destruct (IH l Hin) as (pre & suf & ->). now exists (String c pre), suf.
    + destruct (to_lines s) as [|[b e] ls] eqn:Hs.
      * destruct Hin as [<-|[]]. now exists EmptyString, s.
      * destruct Hin as [<-|Hin].
        -- destruct (to_lines_head s b e ls Hs) as [suf ->].
           now exists EmptyString, suf.
        -- destruct (IH l (or_intror Hin)) as (pre & suf & ->).
           now exists (String c pre), suf.
Qed.



Lemma includes_tail (c : ascii) (s needle : string) :
  includes (String c s) needle = false -> includes s needle = false.
Proof.
  unfold includes. cbn [find_first].
  destruct (String.prefix needle (String c s)); [discriminate|].
  now destruct (find_first needle s).
Qed.

Lemma substr_split (s : string) (k : nat) : exists pre, s = pre +++ substr s k.
Proof.
  revert s; induction k as [|k IH]; intros s.
  - exists EmptyString. now rewrite substr_zero.
  - destruct s as [|c s]; [now exists EmptyString|].
    destruct (IH s) as [pre Hpre]. exists (String c pre). cbn. now rewrite <- Hpre.
Qed.

Lemma IMPORT_match_includes (s : string) (n : nat) :
  IMPORT_match_length s = Some n -> includes s "import" = true.
Proof.
  unfold IMPORT_match_length.
  destruct (String.prefix "import" (substr s (count_whitespace s))) eqn:Hp; [|discriminate].
  intros _. apply prefix_split in Hp as [r Hr].
  destruct (substr_split s (count_whitespace s)) as [pre Hpre].
  rewrite Hpre, Hr. apply includes_middle.
Qed.

Lemma replace_IMPORT_from_unchanged (s : string) :
  forall at_line_start,
    includes s "import" = false -> replace_IMPORT_from at_line_start 0 s = s.
Proof.
  induction s as [|c s IH]; intros b H; cbn [replace_IMPORT_from]; [reflexivity|].
  assert (Hnone : (if b then IMPORT_match_length (String c s) else None) = None).
  { destruct b; [|reflexivity].
    destruct (IMPORT_match_length (String c s)) as [n|] eqn:E; [|reflexivity].
    apply IMPORT_match_includes in E. congruence. }
  rewrite Hnone. f_equal. apply IH. now apply includes_tail in H.
Qed.

Lemma match_pragma_none (keyword rest contents : string) :
  keyword = "pragma " +++ rest ->
  includes contents "pragma " = false ->
  match_pragma keyword contents = [].
Proof.
  intros -> H. unfold match_pragma. apply filter_none. intros b Hb.
  apply in_map_iff in Hb as (l & <- & Hl).
  destruct (pragma_line ("pragma " +++ rest) (fst l)) eqn:E; [|reflexivity].
  unfold pragma_line in E. apply andb_true_iff in E as [E _].
  apply prefix_split in E as [r Hr].
  destruct (to_lines_In _ _ Hl) as (pre & suf & Heq).
  rewrite Heq, Hr, !append_assoc in H.
  now rewrite includes_middle in H.
Qed.

Lemma replace_pragma_unchanged (keyword contents : string) :
  match_pragma keyword contents = [] -> replace_pragma keyword contents = contents.
Proof.
  unfold match_pragma, replace_pragma. intros H.
  rewrite <- (of_lines_to_lines contents) at 2. f_equal.
  induction (to_lines contents) as [|l ls IH]; [reflexivity|].
  cbn [map filter] in *. unfold blank_pragma at 1.
  destruct (pragma_line keyword (fst l)); [discriminate H|].
  f_equal. exact (IH H).
Qed.

(** X5.  A file that holds neither the word [import] nor the word [pragma]
    followed by a space goes through [cleanFile] untouched but for the white
    space around it, and yields no pragma. *)
Theorem cleanFile_without_directives (P : Platform) (cwd filePath : string) (r : Resolved.t) :
  resolve P cwd filePath = Returns r ->
  includes (Resolved.fileContents r) "import" = false ->
  includes (Resolved.fileContents r) "pragma " = false ->
  cleanFile P cwd filePath = Returns (trim (Resolved.fileContents r), [], []).
Proof.
  intros Hres Himport Hpragma. unfold cleanFile. rewrite Hres. cbn [bind].
  unfold replace_IMPORT. rewrite (replace_IMPORT_from_unchanged _ true Himport).
  rewrite (match_pragma_none VERSION_SOLIDITY "solidity " _ eq_refl Hpragma).
  rewrite (match_pragma_none EXPERIMENTAL_SOLIDITY "experimental " _ eq_refl Hpragma).
  rewrite (replace_pragma_unchanged VERSION_SOLIDITY)
    by exact (match_pragma_none VERSION_SOLIDITY "solidity " _ eq_refl Hpragma).
  rewrite (replace_pragma_unchanged EXPERIMENTAL_SOLIDITY)
    by exact (match_pragma_none EXPERIMENTAL_SOLIDITY "experimental " _ eq_refl Hpragma).
  reflexivity.
Qed.

(** Witness: the library [Lib.sol] of the sample project. *)
Lemma cleanFile_without_directives_witness :
  cleanFile Sample.W "/proj" "Lib.sol" = Returns (trim "library Lib {}", [], []).
Proof.
  apply (cleanFile_without_directives Sample.W "/proj" "Lib.sol"
           (Resolved.Build_t "library Lib {}" "/proj/Lib.sol")).
  - vm_compute. reflexivity.
  - vm_compute. reflexivity.
  - vm_compute. reflexivity.
Defined.

Lemma pragma_line_empty (keyword : string) : pragma_line keyword EmptyString = false.
Proof. unfold pragma_line. destruct keyword; reflexivity. Qed.

(** X6.  Replacing the pragmas of a text by nothing keeps its lines: there
    are as many lines after as before, with the same terminators; a line
    that matched is left empty and the others are unchanged.  Replacing
    once more changes nothing. *)
Theorem replace_pragma_keeps_lines (keyword contents : string) :
  map snd (to_lines (replace_pragma keyword contents)) = map snd (to_lines contents)
  /\ map fst (to_lines (replace_pragma keyword contents)) =
     map (fun b => if pragma_line keyword b then EmptyString else b)
         (map fst (to_lines contents))
  /\ length (to_lines (replace_pragma keyword contents)) = length (to_lines contents)
  /\ replace_pragma keyword (replace_pragma keyword contents) =
     replace_pragma keyword contents.
Proof.
  rewrite to_lines_replace_pragma. split; [|split; [|split]].
  - rewrite map_map. apply map_ext. intros [b e]. unfold blank_pragma. cbn.
    now destruct (pragma_line keyword b).
  - rewrite !map_map. apply map_ext. intros [b e]. unfold blank_pragma. cbn.
    now destruct (pragma_line keyword b).
  - apply length_map.
  - apply replace_pragma_unchanged. unfold match_pragma.
    rewrite to_lines_replace_pragma. apply filter_none. intros b Hb.
    apply in_map_iff in Hb as (l & <- & Hl). apply in_map_iff in Hl as (l0 & <- & _).
    apply pragma_line_blanked, pragma_line_empty.
Qed.

(** ** [printConcatenation] once more *)

Lemma resolve_not_cut_short (P : Platform) (cwd importPath : string) :
  resolve P cwd importPath <> OutOfFuel.
Proof.
  unfold resolve. destruct (Resolver_resolve P cwd importPath); cbn; [discriminate|].
  destruct (fs_readFileSync P cwd _); discriminate.
Qed.

Lemma all_cleanFile_outcome (P : Platform) (cwd : string) (files : list string) :
  match all_cleanFile P cwd files with
  | Returns _ => forall f, In f files -> exists r, resolve P cwd f = Returns r
  | Throws e => exists f, In f files /\ resolve P cwd f = Throws e
  | OutOfFuel => False
  end.
Proof.
  induction files as [|f files IH]; cbn [all_cleanFile]; [intros f []|].
  unfold cleanFile at 1. pose proof (resolve_not_cut_short P cwd f) as Hcut.
  destruct (resolve P cwd f) as [r|e|] eqn:Hres; cbn [bind]; [| |congruence].
  - destruct (all_cleanFile P cwd files) as [cs|e|]; cbn [bind].
    + intros f' [<-|Hf']; [now exists r | now apply IH].
    + destruct IH as (f' & Hf' & He). exists f'. split; [now right | assumption].
    + exact IH.
  - exists f. split; [now left | assumption].
Qed.

(** X7.  [printConcatenation] reads every file before it writes anything:
    it returns exactly when every file of the list resolves, an error it
    throws is the error of the resolution of one of the files, and for the
    empty list it writes one empty chunk. *)
Theorem printConcatenation_all_or_nothing (P : Platform) (cwd : string) (files : list string) :
  ((exists chunks, printConcatenation P cwd files = Returns chunks) <->
   (forall f, In f files -> exists r, resolve P cwd f = Returns r))
  /\ (forall e, printConcatenation P cwd files = Throws e ->
        exists f, In f files /\ resolve P cwd f = Throws e)
  /\ printConcatenation P cwd [] = Returns [EmptyString].
Proof.
  pose proof (all_cleanFile_outcome P cwd files) as Hall.
  unfold printConcatenation.
  destruct (all_cleanFile P cwd files) as [cs|e|] eqn:Hcs; cbn [bind];
    [| |destruct Hall].
  - destruct (reduce_cleanFiles files 0 cs _) as [[output versions] experimentals].
    split; [split; [intros _; exact Hall | intros _; eexists; reflexivity]|].
    split; [discriminate | reflexivity].
  - split; [split|split].
    + intros [chunks H]. discriminate H.
    + intros Hres. destruct Hall as (f & Hf & He).
      destruct (Hres f Hf) as [r Hr]. congruence.
    + intros e' [= <-]. exact Hall.
    + reflexivity.
Qed.

(** ** The files reached *)

Section Reach.

Variable P : Platform.
Variable cwd : string.

Lemma dependencies_loop_reaches
    (dfs : tsort_graph -> list string -> string -> outcome (tsort_graph * list string))
    (x : string) :
  (forall g v y g' v', dfs g v y = Returns (g', v') -> reaches P cwd [y] g v g' v') ->
  forall deps g v g' v',
    In x v ->
    dependencies_loop P dfs x deps g v = Returns (g', v') ->
    reaches P cwd [] g v g' v'.
Proof.
  intros Hdfs. induction deps as [|d rest IH]; intros g v g' v' Hx H;
    cbn [dependencies_loop] in H.
  - injection H as <- <-. unfold reaches. repeat split; auto. intros z [].
  - destruct (tsort_add P g d x) as [e0|]; [discriminate H|].
    destruct (array_includes v d) eqn:Hvis; cbn [negb] in H.
    + apply array_includes_In in Hvis.
      destruct (IH _ _ _ _ Hx H) as (He & Hv & _ & Hnew & Hclosed & Hparsed).
      unfold reaches. repeat split; auto.
      * intros e Hin. apply He, in_or_app. now left.
      * intros z [].
      * intros d' t Hin. destruct (Hclosed d' t Hin) as [Hold|Hvisited]; [|now right].
        apply in_app_or in Hold as [Hold|[[= <- <-]|[]]]; [now left | right; now apply Hv].
    + apply bind_returns in H as ([g1 v1] & Hcall & H). cbn [fst snd] in H.
      destruct (Hdfs _ _ _ _ _ Hcall) as (He1 & Hv1 & Hroot1 & Hnew1 & Hclosed1 & Hparsed1).
      assert (Hx1 : In x v1) by now apply Hv1.
      destruct (IH _ _ _ _ Hx1 H) as (He & Hv & _ & Hnew & Hclosed & Hparsed).
      unfold reaches. repeat split.
      * intros e Hin. apply He, He1, in_or_app. now left.
      * intros z Hz. now apply Hv, Hv1.
      * intros z [].
      * intros z Hz. destruct (Hnew z Hz) as [Hz1|[[]|Hedge]]; [|now right; right].
        destruct (Hnew1 z Hz1) as [Hold|[[<-|[]]|(t & Ht)]].
        -- now left.
        -- right; right. exists x. apply He, He1, in_or_app. right. now left.
        -- right; right. exists t. now apply He.
      * intros d' t Hin. destruct (Hclosed d' t Hin) as [Hin1|Hvisited]; [|now right].
        destruct (Hclosed1 d' t Hin1) as [Hold|Hvisited]; [|right; now apply Hv].
        apply in_app_or in Hold as [Hold|[[= <- <-]|[]]]; [now left|].
        right. apply Hv, Hroot1. now left.
      * intros z Hz. destruct (Hparsed z Hz) as [Hz1|Hp]; [|now right].
        exact (Hparsed1 z Hz1).
Qed.

Lemma dependenciesDfs_reaches (fuel : nat) :
  forall g v y g' v',
    dependenciesDfs P fuel cwd g v y = Returns (g', v') -> reaches P cwd [y] g v g' v'.
Proof.
  induction fuel as [|fuel IH]; intros g v y g' v' H; [discriminate|].
  cbn [dependenciesDfs] in H.
  apply bind_returns in H as (r & Hres & H).
  apply bind_returns in H as (deps & Hdeps & H).
  assert (Hy : In y (v ++ [y])) by (apply in_or_app; right; now left).
  destruct (dependencies_loop_reaches _ y IH _ _ _ _ _ Hy H)
    as (He & Hv & _ & Hnew & Hclosed & Hparsed).
  unfold reaches. repeat split; auto.
  - intros z Hz. apply Hv, in_or_app. now left.
  - intros z [<-|[]]. now apply Hv.
  - intros z Hz. destruct (Hnew z Hz) as [Hold|[[]|Hedge]]; [|now right; right].
    apply in_app_or in Hold as [Hold|[<-|[]]]; [now left | right; left; now left].
  - intros z Hz. destruct (Hparsed z Hz) as [Hold|Hp]; [|now right].
    apply in_app_or in Hold as [Hold|[<-|[]]]; [now left|].
    right. now exists r, deps.
Qed.

Lemma entryPoints_loop_reaches (fuel : nat) :
  forall entryPoints g v g' v',
    entryPoints_loop P fuel cwd entryPoints g v = Returns (g', v') ->
    reaches P cwd entryPoints g v g' v'.
Proof.
  induction entryPoints as [|x rest IH]; intros g v g' v' H; cbn [entryPoints_loop] in H.
  - injection H as <- <-. unfold reaches. repeat split; auto. intros z [].
  - apply bind_returns in H as ([g1 v1] & Hcall & H). cbn [fst snd] in H.
    destruct (dependenciesDfs_reaches _ _ _ _ _ _ Hcall)
      as (He1 & Hv1 & Hroot1 & Hnew1 & Hclosed1 & Hparsed1).
    destruct (IH _ _ _ _ H) as (He & Hv & Hroot & Hnew & Hclosed & Hparsed).
    unfold reaches. repeat split.
    + intros e Hin. now apply He, He1.
    + intros z Hz. now apply Hv, Hv1.
    + intros z [<-|Hz]; [apply Hv, Hroot1; now left | now apply Hroot].
    + intros z Hz. destruct (Hnew z Hz) as [Hz1|[Hr|Hedge]].
      * destruct (Hnew1 z Hz1) as [Hold|[[<-|[]]|(t & Ht)]].
        -- now left.
        -- right; left. now left.
        -- right; right. exists t. now apply He.
      * right; left. now right.
      * now right; right.
    + intros d t Hin. destruct (Hclosed d t Hin) as [Hin1|Hvisited]; [|now right].
      destruct (Hclosed1 d t Hin1) as [Hold|Hvisited]; [now left | right; now apply Hv].
    + intros z Hz. destruct (Hparsed z Hz) as [Hz1|Hp]; [|now right].
      exact (Hparsed1 z Hz1).
Qed.

End Reach.

(** X8.  When the traversal of the entry points returns, the visited files
    are the entry points and what they import, directly or not: every
    visited file resolved and was parsed, every import of a visited file is
    visited, and a visited file is an entry point or an import of a visited
    file. *)
Theorem visited_is_import_closure (P : Platform) (cwd : string) (fuel : nat)
    (entryPoints : list string) (g : tsort_graph) (visitedFiles : list string) :
  entryPoints_loop P fuel cwd entryPoints [] [] = Returns (g, visitedFiles) ->
  (forall f, In f entryPoints -> In f visitedFiles)
  /\ (forall t, In t visitedFiles -> resolves_and_parses P cwd t)
  /\ (forall t d, In t visitedFiles -> In d (dependencies_of P cwd t) -> In d visitedFiles)
  /\ (forall z, In z visitedFiles ->
        In z entryPoints
        \/ exists t, In t visitedFiles /\ In z (dependencies_of P cwd t)).
Proof.
  intros H. pose proof (entryPoints_loop_edge_iff _ _ _ _ _ _ H) as Hedge.
  destruct (entryPoints_loop_reaches _ _ _ _ _ _ _ _ H)
    as (_ & _ & Hroot & Hnew & Hclosed & Hparsed).
  split; [exact Hroot|]. split; [|split].
  - intros t Ht. destruct (Hparsed t Ht) as [[]|Hp]. exact Hp.
  - intros t d Ht Hd.
    destruct (Hclosed d t) as [[]|Hvisited]; [|exact Hvisited].
    apply Hedge. now split.
  - intros z Hz. destruct (Hnew z Hz) as [[]|[Hr|(t & Ht)]]; [now left|].
    right. exists t. now apply Hedge.
Qed.

(** Witness: [Token] of the sample project reaches [SafeMath] and [Ownable]. *)
Lemma visited_is_import_closure_witness :
  resolves_and_parses Sample.W "/proj" "/proj/contracts/Ownable.sol"
  /\ In "/proj/contracts/SafeMath.sol"
       ["contracts/Token.sol"; "/proj/contracts/SafeMath.sol"; "/proj/contracts/Ownable.sol"].
Proof.
  destruct (visited_is_import_closure Sample.W "/proj" 20 ["contracts/Token.sol"]
              [("/proj/contracts/SafeMath.sol", "contracts/Token.sol");
               ("/proj/contracts/Ownable.sol", "contracts/Token.sol");
               ("/proj/contracts/SafeMath.sol", "/proj/contracts/Ownable.sol")]
              ["contracts/Token.sol"; "/proj/contracts/SafeMath.sol";
               "/proj/contracts/Ownable.sol"])
    as (_ & Hparsed & Hclosed & _).
  - vm_compute. reflexivity.
  - split.
    + apply Hparsed. simpl. tauto.
    + apply (Hclosed "/proj/contracts/Ownable.sol").
      * simpl. tauto.
      * vm_compute. tauto.
Defined.

(** X9.  When the sorter keeps its contract and [getSortedFilePaths] returns,
    no visited file is missing from the list: the global name of every
    visited file is listed, and every name listed is the global name of a
    sorted node or of an entry point. *)
Theorem visited_files_are_listed (P : Platform) (fuel : nat) (cwd : string)
    (entryPoints : list string) (truffleRoot : string)
    (g : tsort_graph) (visitedFiles files : list string) :
  entryPoints_loop P fuel cwd entryPoints [] [] = Returns (g, visitedFiles) ->
  sorter_contract P g ->
  getSortedFilePaths P fuel cwd entryPoints truffleRoot = Returns files ->
  (forall z, In z visitedFiles -> In (fileNameToGlobalName P cwd z truffleRoot) files)
  /\ (forall name, In name files ->
        exists f, fileNameToGlobalName P cwd f truffleRoot = name
                  /\ (In f entryPoints
                      \/ exists sorted, tsort_sort P g = inr sorted /\ In f sorted)).
Proof.
  intros Hloop [Hcontract _] Hfiles.
  apply getSortedFilePaths_returns in Hfiles as (g' & v' & sorted & Hloop' & Hsort & ->).
  rewrite Hloop in Hloop'. injection Hloop' as <- <-.
  destruct (entryPoints_loop_reaches _ _ _ _ _ _ _ _ Hloop) as (_ & _ & _ & Hnew & _).
  split.
  - intros z Hz. apply unique_In.
    apply (in_map (fun f => fileNameToGlobalName P cwd f truffleRoot)).
    apply in_or_app. destruct (Hnew z Hz) as [[]|[Hr|(t & Ht)]]; [now right | left].
    apply (precedes_In z t). apply (topological_b_correct g); [|assumption].
    now apply Hcontract.
  - intros name Hname. apply unique_In, in_map_iff in Hname as (f & <- & Hf).
    exists f. split; [reflexivity|].
    apply in_app_or in Hf as [Hf|Hf]; [right; now exists sorted | now left].
Qed.

(** Witness: the three files [Token] reaches are listed. *)
Lemma visited_files_are_listed_witness :
  In (fileNameToGlobalName Sample.W "/proj" "/proj/contracts/SafeMath.sol" "/proj")
     ["contracts/SafeMath.sol"; "contracts/Ownable.sol"; "contracts/Token.sol"].
Proof.
  destruct (visited_files_are_listed Sample.W 20 "/proj" ["contracts/Token.sol"] "/proj"
              [("/proj/contracts/SafeMath.sol", "contracts/Token.sol");
               ("/proj/contracts/Ownable.sol", "contracts/Token.sol");
               ("/proj/contracts/SafeMath.sol", "/proj/contracts/Ownable.sol")]
              ["contracts/Token.sol"; "/proj/contracts/SafeMath.sol";
               "/proj/contracts/Ownable.sol"]
              ["contracts/SafeMath.sol"; "contracts/Ownable.sol"; "contracts/Token.sol"])
    as [Hlisted _].
  - vm_compute. reflexivity.
  - split.
    + intros sorted Hsort. vm_compute in Hsort. injection Hsort as <-. reflexivity.
    + intros err Hsort. vm_compute in Hsort. discriminate Hsort.
  - vm_compute. reflexivity.
  - apply Hlisted. simpl. tauto.
Defined.

(** ** An error of the sorter that is not the cycle error *)

(** X10.  The [catch] of [getSortedFilePaths] rethrows nothing when the
    error of the sorter is not the cycle error: the error is lost, the call
    of [concat] on the undefined list throws a [TypeError] in its place,
    with the message of the engine, and [flatten] ends with that error, the
    working directory left at the project root and nothing written. *)
Theorem sorter_error_replaced (P : Platform) (fuel : nat) (st : process_state)
    (filePaths : list string) (log : sink) (root : option string)
    (truffleRoot directory : string)
    (g : tsort_graph) (visitedFiles : list string) (err : js_error) :
  project_root P st root = Returns truffleRoot ->
  process_chdir P (cwd st) truffleRoot = inr directory ->
  entryPoints_loop P fuel directory
    (getFilePathsFromTruffleRoot P (cwd st) filePaths truffleRoot) [] []
    = Returns (g, visitedFiles) ->
  tsort_sort P g = inl err ->
  includes (toString err) "Error: There is a cycle in the graph." = false ->
  flatten P fuel st filePaths log root =
    (Throws (TypeError (concat_of_undefined P)),
     {| cwd := directory; logged := logged st |}).
Proof.
  intros Hroot Hdir Hloop Hsort Hother. rewrite flatten_unfold, Hroot, Hdir.
  unfold getSortedFilePaths. rewrite Hloop. cbn [bind fst snd].
  now rewrite Hsort, Hother.
Qed.

(** Witness: the sample project with a sorter that runs out of stack. *)
Lemma sorter_error_replaced_witness :
  flatten (with_sorter Sample.W
             (fun _ => inl (Thrown "RangeError: Maximum call stack size exceeded")))
    20 Sample.at_root ["contracts/Token.sol"] never_throws None =
    (Throws (TypeError (concat_of_undefined Sample.W)),
     {| cwd := "/proj"; logged := [] |}).
Proof.
  apply (sorter_error_replaced
           (with_sorter Sample.W
              (fun _ => inl (Thrown "RangeError: Maximum call stack size exceeded")))
           20 Sample.at_root ["contracts/Token.sol"] never_throws None "/proj" "/proj"
           [("/proj/contracts/SafeMath.sol", "contracts/Token.sol");
            ("/proj/contracts/Ownable.sol", "contracts/Token.sol");
            ("/proj/contracts/SafeMath.sol", "/proj/contracts/Ownable.sol")]
           ["contracts/Token.sol"; "/proj/contracts/SafeMath.sol";
            "/proj/contracts/Ownable.sol"]
           (Thrown "RangeError: Maximum call stack size exceeded")).
  - vm_compute. reflexivity.
  - vm_compute. reflexivity.
  - vm_compute. reflexivity.
  - reflexivity.
  - vm_compute. reflexivity.
Defined.

(** ** No files *)

(** X11.  With no file to flatten, a project root that the process can
    enter and leave, and a sorter that returns the empty list for the empty
    graph, [flatten] still writes one chunk, the empty text; it returns when
    [log] takes that chunk, and the text the module exports is a single line
    feed. *)
Theorem flatten_no_files (P : Platform) (fuel : nat) (st : process_state)
    (log : sink) (root : option string) (truffleRoot directory back : string) :
  project_root P st root = Returns truffleRoot ->
  process_chdir P (cwd st) truffleRoot = inr directory ->
  process_chdir P directory (cwd st) = inr back ->
  tsort_sort P [] = inr [] ->
  log (logged st) EmptyString = None ->
  flatten P fuel st [] log root =
    (Returns tt, {| cwd := back; logged := logged st ++ [EmptyString] |})
  /\ fst (flattener P fuel (cwd st) [] root) = Returns nl.
Proof.
  intros Hroot Hdir Hback Hsort Hlog.
  assert (Hflatten : forall st0 log0,
            cwd st0 = cwd st ->
            log0 (logged st0) EmptyString = None ->
            flatten P fuel st0 [] log0 root =
            (Returns tt, {| cwd := back; logged := logged st0 ++ [EmptyString] |})).
  { intros st0 log0 Hcwd H0. rewrite flatten_unfold.
    replace (project_root P st0 root) with (project_root P st root)
      by (unfold project_root; now rewrite Hcwd).
    rewrite Hroot, Hcwd, Hdir.
    unfold getSortedFilePaths.
    cbn [getFilePathsFromTruffleRoot map entryPoints_loop bind fst snd].
    rewrite Hsort. cbn [app map unique unique_from printConcatenation all_cleanFile bind
                          reduce_cleanFiles log_chunks].
    rewrite H0. cbn [log_chunks]. now rewrite Hback. }
  split; [now apply Hflatten|].
  unfold flattener. rewrite Hflatten; reflexivity.
Qed.

(** Witness: the sample project. *)
Lemma flatten_no_files_witness :
  flatten Sample.W 20 Sample.at_root [] never_throws None =
    (Returns tt, {| cwd := "/proj"; logged := [EmptyString] |})
  /\ fst (flattener Sample.W 20 "/proj" [] None) = Returns nl.
Proof.
  apply (flatten_no_files Sample.W 20 Sample.at_root never_throws None
           "/proj" "/proj" "/proj").
  - vm_compute. reflexivity.
  - vm_compute. reflexivity.
  - vm_compute. reflexivity.
  - reflexivity.
  - reflexivity.
Defined.

(** ** The traversal ends *)

Section Ends.

Variable P : Platform.
Variable cwd : string.
Variable universe : list string.

(** Whatever file is read, what it imports is among finitely many
    identifiers. *)
Hypothesis imports_in_universe :
  forall x d, In d (dependencies_of P cwd x) -> In d universe.

Lemma dependencies_loop_ends
    (dfs : tsort_graph -> list string -> string -> outcome (tsort_graph * list string))
    (x : string) (bound : nat) :
  (forall g v y, In y universe -> ~ In y v ->
                 length (unvisited universe v) <= bound ->
                 dfs g v y <> OutOfFuel) ->
  (forall g v y g' v', dfs g v y = Returns (g', v') -> traversal P cwd g v y g' v') ->
  forall deps g v,
    (forall d, In d deps -> In d universe) ->
    length (unvisited universe v) <= bound ->
    dependencies_loop P dfs x deps g v <> OutOfFuel.
Proof.
  intros Hfuel Htrav. induction deps as [|d rest IH]; intros g v Hdeps Hv;
    cbn [dependencies_loop]; [discriminate|].
  assert (Hrest : forall d', In d' rest -> In d' universe)
    by (intros d' Hd'; apply Hdeps; now right).
  destruct (tsort_add P g d x) as [e0|]; [discriminate|].
  destruct (array_includes v d) eqn:Hvis; cbn [negb]; [now apply IH|].
  apply array_includes_not_In in Hvis.
  destruct (dfs (g ++ [(d, x)]) v d) as [[g1 v1]|e|] eqn:Hcall; cbn [bind fst snd].
  - apply IH; [assumption|]. destruct (Htrav _ _ _ _ _ Hcall) as (new & -> & _).
    etransitivity; [|exact Hv]. apply unvisited_more.
    intros y Hy. apply in_or_app. now left.
  - discriminate.
  - intros _. apply (Hfuel (g ++ [(d, x)]) v d); try assumption.
    apply Hdeps. now left.
Qed.

Lemma dependenciesDfs_ends (fuel : nat) :
  forall g v x,
    length (unvisited universe (v ++ [x])) < fuel ->
    dependenciesDfs P fuel cwd g v x <> OutOfFuel.
Proof.
  induction fuel as [|fuel IH]; intros g v x Hfuel; [lia|].
  cbn [dependenciesDfs].
  destruct (resolve P cwd x) as [resolved|e|] eqn:Hres; cbn [bind]; try discriminate.
  - destruct (getDependencies P _ _) as [deps|e|] eqn:Hdeps; cbn [bind]; try discriminate.
    + apply (dependencies_loop_ends _ x (length (unvisited universe (v ++ [x])))).
      * intros g' v' y Hy Hnew Hbound. apply IH.
        pose proof (unvisited_visit universe v' y Hy Hnew). lia.
      * apply dependenciesDfs_traversal.
      * intros d Hd. apply (imports_in_universe x). unfold dependencies_of.
        rewrite Hres. cbn [bind]. now rewrite Hdeps.
      * lia.
    + unfold getDependencies in Hdeps.
      destruct (parser_import_paths P _); discriminate.
  - now apply resolve_not_cut_short in Hres.
Qed.

Lemma entryPoints_loop_ends (fuel : nat) :
  length universe < fuel ->
  forall entryPoints g v,
    entryPoints_loop P fuel cwd entryPoints g v <> OutOfFuel.
Proof.
  intros Hfuel. induction entryPoints as [|x rest IH]; intros g v; cbn [entryPoints_loop].
  - discriminate.
  - destruct (dependenciesDfs P fuel cwd g v x) as [st|e|] eqn:Hcall; cbn [bind].
    + apply IH.
    + discriminate.
    + exfalso. revert Hcall. apply dependenciesDfs_ends.
      pose proof (unvisited_length universe (v ++ [x])). lia.
Qed.

Lemma entryPoints_loop_any_fuel (fuel extra : nat) (entryPoints : list string)
    (g : tsort_graph) (v : list string) :
  entryPoints_loop P fuel cwd entryPoints g v <> OutOfFuel ->
  entryPoints_loop P (fuel + extra) cwd entryPoints g v =
  entryPoints_loop P fuel cwd entryPoints g v.
Proof.
  intros H. induction extra as [|extra IH].
  - now rewrite Nat.add_0_r.
  - rewrite Nat.add_succ_r.
    apply entryPoints_loop_more_fuel; [exact IH | assumption].
Qed.

End Ends.

(** X12.  If the imports of the files, as the traversal names them, are
    among finitely many identifiers, the traversal ends: with more fuel than
    there are such identifiers, [getSortedFilePaths] returns or throws, and
    more fuel still gives the same result. *)
Theorem getSortedFilePaths_ends (P : Platform) (cwd : string) (universe : list string)
    (fuel : nat) (entryPoints : list string) (truffleRoot : string) :
  (forall x d, In d (dependencies_of P cwd x) -> In d universe) ->
  length universe < fuel ->
  getSortedFilePaths P fuel cwd entryPoints truffleRoot <> OutOfFuel
  /\ getSortedFilePaths P fuel cwd entryPoints truffleRoot =
     getSortedFilePaths P (S (length universe)) cwd entryPoints truffleRoot.
Proof.
  intros Himports Hfuel.
  assert (Hends : forall n, length universe < n ->
                    entryPoints_loop P n cwd entryPoints [] [] <> OutOfFuel)
    by (intros n Hn; now apply (entryPoints_loop_ends P cwd universe Himports)).
  assert (Hsame : entryPoints_loop P fuel cwd entryPoints [] [] =
                  entryPoints_loop P (S (length universe)) cwd entryPoints [] []).
  { replace fuel with (S (length universe) + (fuel - S (length universe))) by lia.
    apply entryPoints_loop_any_fuel, Hends. lia. }
  split.
  - unfold getSortedFilePaths. specialize (Hends fuel Hfuel).
    destruct (entryPoints_loop P fuel cwd entryPoints [] []) as [[g v]|e|];
      cbn [bind fst snd]; [|discriminate|congruence].
    destruct (tsort_sort P g) as [err|sorted]; [|discriminate].
    destruct (includes (toString err) _); discriminate.
  - unfold getSortedFilePaths. now rewrite Hsame.
Qed.

Lemma exists_in_table (fs : World.files) (path : string) :
  World.exists_in fs path = true -> In path (map fst fs).
Proof.
  unfold World.exists_in. induction fs as [|[p c] fs IH]; cbn [World.read map fst In];
    [discriminate|].
  destruct (String.eqb p path) eqn:E.
  - apply String.eqb_eq in E. now left.
  - intros H. right. now apply IH.
Qed.

(** The imports of the sample project, as the traversal names them. *)
Lemma sample_imports (x d : string) :
  In d (dependencies_of Sample.W "/proj" x) ->
  In d ["/proj/contracts/SafeMath.sol"; "/proj/contracts/Ownable.sol";
        "/proj/contracts/F2.sol"; "/proj/contracts/Pong.sol";
        "/proj/contracts/Ping.sol"; "Lib.sol"; "D.sol"; "x/T.sol"].
Proof.
  unfold dependencies_of, resolve.
  cbn [Resolver_resolve fs_readFileSync Sample.W World.platform]. unfold World.resolver.
  generalize (Posix.resolve "/proj" x) as here.
  generalize (Posix.resolve "/proj" ("node_modules/" +++ x)) as module.
  intros module here.
  destruct (World.exists_in Sample.project here) eqn:Ehere.
  - apply exists_in_table in Ehere. cbn in Ehere.
    repeat (destruct Ehere as [<-|Ehere]; [vm_compute; tauto|]). destruct Ehere.
  - destruct (World.exists_in Sample.project module) eqn:Emodule.
    + apply exists_in_table in Emodule. cbn in Emodule.
      repeat (destruct Emodule as [<-|Emodule]; [vm_compute; tauto|]). destruct Emodule.
    + cbn. tauto.
Qed.

(** Witness: the sample project, whose imports are eight identifiers. *)
Lemma getSortedFilePaths_ends_witness :
  getSortedFilePaths Sample.W 20 "/proj" ["contracts/Token.sol"] "/proj" <> OutOfFuel
  /\ getSortedFilePaths Sample.W 20 "/proj" ["contracts/Token.sol"] "/proj" =
     getSortedFilePaths Sample.W 9 "/proj" ["contracts/Token.sol"] "/proj".
Proof.
  apply (getSortedFilePaths_ends Sample.W "/proj"
           ["/proj/contracts/SafeMath.sol"; "/proj/contracts/Ownable.sol";
            "/proj/contracts/F2.sol"; "/proj/contracts/Pong.sol";
            "/proj/contracts/Ping.sol"; "Lib.sol"; "D.sol"; "x/T.sol"]
           20 ["contracts/Token.sol"] "/proj").
  - exact sample_imports.
  - simpl. lia.
Defined.

(** ** The import directives *)

Lemma count_whitespace_append (ws s : string) :
  all_whitespace ws = true ->
  count_whitespace (ws +++ s) = String.length ws + count_whitespace s.
Proof.
  induction ws as [|c ws IH]; cbn [all_whitespace String.append]; intros H; [reflexivity|].
  apply andb_true_iff in H as [Hc Hws]. cbn [count_whitespace String.length].
  now rewrite Hc, (IH Hws).
Qed.

Lemma count_whitespace_stop (s : string) :
  not_whitespace (first_char s) -> count_whitespace s = 0.
Proof. destruct s as [|c s]; cbn; [reflexivity | now intros ->]. Qed.

Lemma count_to_line_end_append (r tail : string) :
  has_no_terminator r = true ->
  count_to_line_end tail = 0 ->
  count_to_line_end (r +++ tail) = String.length r.
Proof.
  induction r as [|c r IH]; cbn [has_no_terminator String.append]; intros H Htail;
    [exact Htail|].
  apply andb_true_iff in H as [Hc Hr]. apply negb_true_iff in Hc.
  cbn [count_to_line_end String.length]. now rewrite Hc, (IH Hr Htail).
Qed.

Lemma last_char_some (c : ascii) (s : string) :
  exists d, last_char (String c s) = Some d.
Proof.
  revert c. induction s as [|c' s IH]; intros c; [now exists c|].
  destruct (IH c') as [d Hd]. exists d. exact Hd.
Qed.

Lemma last_char_append (a r : string) :
  r <> EmptyString -> last_char (a +++ r) = last_char r.
Proof.
  intros Hr. induction a as [|c a IH]; [reflexivity|].
  cbn [String.append last_char]. rewrite IH.
  destruct (a +++ r) eqn:E; [|reflexivity].
  destruct a; [cbn in E; congruence | discriminate E].
Qed.

Lemma last_char_no_terminator (r : string) :
  has_no_terminator r = true ->
  match last_char r with
  | Some c => is_line_terminator c = false
  | None => True
  end.
Proof.
  induction r as [|c r IH]; cbn [has_no_terminator last_char]; intros H; [exact I|].
  apply andb_true_iff in H as [Hc Hr]. apply negb_true_iff in Hc.
  destruct r; [exact Hc | exact (IH Hr)].
Qed.

(** Once a match is found its characters are dropped; the scan goes on after
    it, at a line start when the last character dropped ends a line. *)
Lemma replace_IMPORT_from_skip (a s : string) :
  forall at_line_start,
    replace_IMPORT_from at_line_start (String.length a) (a +++ s) =
    replace_IMPORT_from
      (match last_char a with
       | Some c => is_line_terminator c
       | None => at_line_start
       end) 0 s.
Proof.
  induction a as [|c a IH]; intros b; [reflexivity|].
  cbn [String.length String.append replace_IMPORT_from]. rewrite IH.
  destruct a as [|c' a]; [reflexivity|].
  destruct (last_char_some c' a) as [d Hd].
  change (last_char (String c (String c' a))) with (last_char (String c' a)).
  now rewrite Hd.
Qed.

(** Inside a line nothing is matched. *)
Lemma replace_IMPORT_from_inside (a tail : string) :
  has_no_terminator a = true ->
  replace_IMPORT_from false 0 (a +++ tail) = a +++ replace_IMPORT_from false 0 tail.
Proof.
  induction a as [|c a IH]; cbn [has_no_terminator String.append]; intros H; [reflexivity|].
  apply andb_true_iff in H as [Hc Ha]. apply negb_true_iff in Hc.
  cbn [replace_IMPORT_from]. now rewrite Hc, (IH Ha).
Qed.

(** The expression matches the whole directive, with the white space before
    it. *)
Lemma IMPORT_match_directive (ws0 ws1 r tail : string) :
  all_whitespace ws0 = true ->
  all_whitespace ws1 = true -> ws1 <> EmptyString ->
  has_no_terminator r = true ->
  not_whitespace (first_char (r +++ tail)) ->
  count_to_line_end tail = 0 ->
  IMPORT_match_length (ws0 +++ "import" +++ ws1 +++ r +++ tail) =
  Some (String.length (ws0 +++ "import" +++ ws1 +++ r)).
Proof.
  intros H0 H1 Hne Hr Hfirst Htail. unfold IMPORT_match_length.
  rewrite (count_whitespace_append ws0 _ H0).
  replace (count_whitespace ("import" +++ ws1 +++ r +++ tail)) with 0 by reflexivity.
  rewrite Nat.add_0_r, substr_append.
  replace (String.prefix "import" ("import" +++ ws1 +++ r +++ tail)) with true
    by (symmetry; apply prefix_split; now eexists).
  replace (substr ("import" +++ ws1 +++ r +++ tail) 6) with (ws1 +++ r +++ tail)
    by (symmetry; exact (substr_append "import" _)).
  rewrite (count_whitespace_append ws1 _ H1), (count_whitespace_stop _ Hfirst), Nat.add_0_r.
  destruct (String.length ws1) as [|n] eqn:En; [now destruct ws1|].
  rewrite <- En, substr_append, (count_to_line_end_append r tail Hr Htail).
  rewrite !length_append. f_equal. cbn [String.length]. lia.
Qed.

Lemma terminator_is_whitespace (c : ascii) :
  is_whitespace c = false -> is_line_terminator c = false.
Proof.
  destruct c as [[] [] [] [] [] [] [] []]; vm_compute; intros H;
    first [reflexivity | discriminate H].
Qed.

Lemma has_no_terminator_append (a b : string) :
  has_no_terminator (a +++ b) = has_no_terminator a && has_no_terminator b.
Proof.
  induction a as [|c a IH]; cbn [has_no_terminator String.append]; [reflexivity|].
  now rewrite IH, andb_assoc.
Qed.

(** After the directive the scan goes on inside the line. *)
Lemma replace_IMPORT_directive (ws0 ws1 : string) (c : ascii) (r tail : string) :
  all_whitespace ws0 = true ->
  all_whitespace ws1 = true -> ws1 <> EmptyString ->
  is_whitespace c = false ->
  has_no_terminator r = true ->
  count_to_line_end tail = 0 ->
  replace_IMPORT (ws0 +++ "import" +++ ws1 +++ String c r +++ tail) =
  replace_IMPORT_from false 0 tail.
Proof.
  intros H0 H1 Hne Hc Hr Htail.
  assert (Hline : has_no_terminator (String c r) = true).
  { cbn [has_no_terminator]. now rewrite (terminator_is_whitespace c Hc), Hr. }
  pose proof (IMPORT_match_directive ws0 ws1 (String c r) tail H0 H1 Hne Hline Hc Htail) as Hm.
  assert (Hlast : match last_char (ws0 +++ "import" +++ ws1 +++ String c r) with
                  | Some d => is_line_terminator d = false
                  | None => True
                  end).
  { rewrite <- !append_assoc, last_char_append by discriminate.
    exact (last_char_no_terminator _ Hline). }
  unfold replace_IMPORT.
  replace (ws0 +++ "import" +++ ws1 +++ String c r +++ tail)
    with ((ws0 +++ "import" +++ ws1 +++ String c r) +++ tail) in *
    by now rewrite !append_assoc.
  destruct (ws0 +++ "import" +++ ws1 +++ String c r) as [|x m] eqn:Em.
  - destruct ws0; discriminate Em.
  - cbn [String.append replace_IMPORT_from] in *. rewrite Hm.
    cbn [String.length]. rewrite replace_IMPORT_from_skip.
    destruct m as [|y m].
    + cbn [last_char] in Hlast |- *. now rewrite Hlast.
    + destruct (last_char_some y m) as [d Hd].
      change (last_char (String x (String y m))) with (last_char (String y m)) in Hlast.
      rewrite Hd in Hlast |- *. now rewrite Hlast.
Qed.

Lemma prefix_stops_at_terminator (p body : string) (t : ascii) (rest : string) :
  has_no_terminator p = true ->
  is_line_terminator t = true ->
  String.prefix p body = false ->
  String.prefix p (body +++ String t rest) = false.
Proof.
  intros Hp Ht. revert body. induction p as [|a p IH]; intros body H.
  - now destruct body.
  - cbn [has_no_terminator] in Hp. apply andb_true_iff in Hp as [Ha Hp].
    apply negb_true_iff in Ha.
    destruct body as [|b body]; cbn [String.append String.prefix] in *.
    + destruct (ascii_dec a t) as [->|Hne]; [congruence | reflexivity].
    + destruct (ascii_dec a b); [now apply IH | reflexivity].
Qed.

(** The expression matches nothing at the head of a line whose first
    character that is no white space does not begin the word [import]
    followed by white space. *)
Lemma IMPORT_match_other (ws : string) (c : ascii) (body tail : string) :
  all_whitespace ws = true ->
  is_whitespace c = false ->
  String.prefix "import" (String c body +++ tail) = false
  \/ (exists d b, String c body = "import" +++ String d b /\ is_whitespace d = false) ->
  IMPORT_match_length (ws +++ String c body +++ tail) = None.
Proof.
  intros Hws Hc Hword. unfold IMPORT_match_length.
  rewrite (count_whitespace_append ws _ Hws).
  rewrite (count_whitespace_stop (String c body +++ tail)) by exact Hc.
  rewrite Nat.add_0_r, substr_append.
  destruct Hword as [Hno | (d & b & Heq & Hd)].
  - now rewrite Hno.
  - rewrite Heq. rewrite append_assoc.
    replace (String.prefix "import" ("import" +++ String d b +++ tail)) with true
      by (symmetry; apply prefix_split; now eexists).
    replace (substr ("import" +++ String d b +++ tail) 6) with (String d b +++ tail)
      by (symmetry; exact (substr_append "import" _)).
    cbn [String.append count_whitespace]. now rewrite Hd.
Qed.

Lemma replace_IMPORT_other (ws : string) (c : ascii) (body tail : string) :
  all_whitespace ws = true -> has_no_terminator ws = true ->
  is_whitespace c = false ->
  has_no_terminator body = true ->
  String.prefix "import" (String c body +++ tail) = false
  \/ (exists d b, String c body = "import" +++ String d b /\ is_whitespace d = false) ->
  replace_IMPORT (ws +++ String c body +++ tail) =
  ws +++ String c body +++ replace_IMPORT_from false 0 tail.
Proof.
  intros Hws Hline Hc Hbody Hword.
  pose proof (IMPORT_match_other ws c body tail Hws Hc Hword) as Hm.
  assert (Ha : has_no_terminator (ws +++ String c body) = true).
  { rewrite has_no_terminator_append, Hline. cbn [has_no_terminator].
    now rewrite (terminator_is_whitespace c Hc), Hbody. }
  unfold replace_IMPORT.
  replace (ws +++ String c body +++ tail) with ((ws +++ String c body) +++ tail) in *
    by now rewrite !append_assoc.
  replace (ws +++ String c body +++ replace_IMPORT_from false 0 tail)
    with ((ws +++ String c body) +++ replace_IMPORT_from false 0 tail)
    by now rewrite !append_assoc.
  destruct (ws +++ String c body) as [|x a] eqn:Ea.
  - destruct ws; discriminate Ea.
  - cbn [has_no_terminator] in Ha. apply andb_true_iff in Ha as [Hx Ha].
    apply negb_true_iff in Hx.
    cbn [String.append replace_IMPORT_from] in *. rewrite Hm, Hx.
    now rewrite (replace_IMPORT_from_inside a tail Ha).
Qed.

(** X13.  An import directive at the start of a line is removed whole: the
    white space before the word [import] (blank lines and indentation), the
    word, the white space after it (line ends too, so the directive may go on
    on the next lines) and what follows, which is not empty, up to the end of
    its line.  The terminator of that line stays: an empty line is left
    where the directive was.  At the end of the text nothing is left. *)
Theorem import_directive_removed
    (ws0 ws1 : string) (c : ascii) (r : string) (t : ascii) (rest : string) :
  all_whitespace ws0 = true ->
  all_whitespace ws1 = true -> ws1 <> EmptyString ->
  is_whitespace c = false ->
  has_no_terminator r = true ->
  is_line_terminator t = true ->
  replace_IMPORT (ws0 +++ "import" +++ ws1 +++ String c r +++ String t rest) =
    String t (replace_IMPORT rest)
  /\ replace_IMPORT (ws0 +++ "import" +++ ws1 +++ String c r) = EmptyString.
Proof.
  intros H0 H1 Hne Hc Hr Ht. split.
  - rewrite (replace_IMPORT_directive ws0 ws1 c r (String t rest)); try assumption.
    + cbn [replace_IMPORT_from]. now rewrite Ht.
    + cbn [count_to_line_end]. now rewrite Ht.
  - rewrite <- (append_empty_r (String c r)).
    now rewrite (replace_IMPORT_directive ws0 ws1 c r EmptyString).
Qed.

Lemma import_directive_removed_witness :
  replace_IMPORT
    (String LF (("  import" +++ String LF "  ") +++ "'./A.sol';" +++ String LF "contract C {}")) =
  String LF (replace_IMPORT "contract C {}")
  /\ replace_IMPORT (String LF (("  import" +++ String LF "  ") +++ "'./A.sol';")) = EmptyString.
Proof.
  apply (import_directive_removed (String LF "  ") (String LF "  ") "'" "./A.sol';"
           LF "contract C {}");
    first [reflexivity | discriminate].
Defined.

(** X14.  A line at the start of the text that is not blank and does not
    begin, after its indentation, with the word [import] followed by white
    space is kept as it is, with its terminator, and the rest of the text is
    treated as a text of its own; so is a last line without terminator.  The
    word [import] with another character that is no white space right after
    it (a quote, say) does not make a directive. *)
Theorem other_line_kept
    (ws : string) (c : ascii) (body : string) (t : ascii) (rest : string) :
  all_whitespace ws = true -> has_no_terminator ws = true ->
  is_whitespace c = false ->
  has_no_terminator body = true ->
  String.prefix "import" (String c body) = false
  \/ (exists d b, String c body = "import" +++ String d b /\ is_whitespace d = false) ->
  is_line_terminator t = true ->
  replace_IMPORT (ws +++ String c body +++ String t rest) =
    ws +++ String c body +++ String t (replace_IMPORT rest)
  /\ replace_IMPORT (ws +++ String c body) = ws +++ String c body.
Proof.
  intros Hws Hline Hc Hbody Hword Ht. split.
  - rewrite (replace_IMPORT_other ws c body (String t rest)); try assumption.
    + cbn [replace_IMPORT_from]. now rewrite Ht.
    + destruct Hword as [Hno | Hword]; [left | now right].
      change (String c body +++ String t rest) with (String c (body +++ String t rest)).
      change (String c (body +++ String t rest)) with (String c body +++ String t rest).
      now apply prefix_stops_at_terminator.
  - rewrite <- (append_empty_r (String c body)) at 1.
    rewrite (replace_IMPORT_other ws c body EmptyString); try assumption.
    + cbn [replace_IMPORT_from]. now rewrite append_empty_r.
    + now rewrite append_empty_r.
Qed.

Lemma other_line_kept_witness :
  replace_IMPORT ("  " +++ "import'./A.sol';" +++ String LF "import './B.sol';") =
  "  " +++ "import'./A.sol';" +++ String LF (replace_IMPORT "import './B.sol';")
  /\ replace_IMPORT ("  " +++ "import'./A.sol';") = "  " +++ "import'./A.sol';".
Proof.
  apply (other_line_kept "  " "i" "mport'./A.sol';" LF "import './B.sol';");
    try reflexivity.
  right. exists "'"%char, "./A.sol';". split; reflexivity.
Defined.

(** ** The command line *)

Lemma position_absent (x : string) (l : list string) :
  ~ In x l -> position x l = None.
Proof.
  intros Hnot. destruct (position x l) as [i|] eqn:E; [|reflexivity].
  exfalso. apply Hnot, position_In. now exists i.
Qed.

Lemma position_first (x : string) (pre rest : list string) :
  ~ In x pre -> position x (pre ++ x :: rest) = Some (length pre).
Proof.
  induction pre as [|y pre IH]; intros Hnot; cbn [app position length].
  - now rewrite String.eqb_refl.
  - destruct (String.eqb y x) eqn:E.
    + apply String.eqb_eq in E. exfalso. apply Hnot. now left.
    + rewrite IH; [reflexivity|]. intros Hin. apply Hnot. now right.
Qed.

Lemma nth_error_after (A : Type) (pre : list A) (x : A) (rest : list A) :
  nth_error (pre ++ x :: rest) (length pre + 1) = hd_error rest.
Proof.
  induction pre as [|y pre IH]; cbn [app length Nat.add nth_error]; [|exact IH].
  now destruct rest.
Qed.

Lemma filter_index_all (A : Type) (keep : A -> nat -> bool) (l : list A) :
  forall n,
    (forall index, n <= index < n + length l -> forall a, keep a index = true) ->
    filter_index keep n l = l.
Proof.
  induction l as [|a l IH]; intros n Hkeep; cbn [filter_index]; [reflexivity|].
  rewrite Hkeep by (cbn [length]; lia). f_equal. apply IH.
  intros index Hindex. apply Hkeep. cbn [length]. lia.
Qed.

Lemma filter_index_app (A : Type) (keep : A -> nat -> bool) (l1 l2 : list A) :
  forall n,
    filter_index keep n (l1 ++ l2) =
    filter_index keep n l1 ++ filter_index keep (n + length l1) l2.
Proof.
  induction l1 as [|a l1 IH]; intros n; cbn [app filter_index length].
  - now rewrite Nat.add_0_r.
  - rewrite IH. replace (S n + length l1) with (n + S (length l1)) by lia.
    now destruct (keep a n).
Qed.

(** The filter of [main] drops the option and what follows it. *)
Lemma filter_index_option (pre : list string) (x : string) (rest : list string) :
  filter_index
    (fun _ index => negb (Nat.eqb index (length pre)) && negb (Nat.eqb index (length pre + 1)))
    0 (pre ++ x :: rest) = pre ++ tl rest.
Proof.
  rewrite filter_index_app. f_equal.
  - apply filter_index_all. intros index Hindex _.
    destruct (Nat.eqb_spec index (length pre)); [lia|].
    destruct (Nat.eqb_spec index (length pre + 1)); [lia | reflexivity].
  - cbn [Nat.add filter_index]. rewrite Nat.eqb_refl. cbn [negb andb].
    destruct rest as [|y rest]; [reflexivity|]. cbn [filter_index tl].
    replace (Nat.eqb (S (length pre)) (length pre + 1)) with true
      by (symmetry; apply Nat.eqb_eq; lia).
    rewrite andb_false_r. apply filter_index_all. intros index Hindex _.
    destruct (Nat.eqb_spec index (length pre)); [lia|].
    destruct (Nat.eqb_spec index (length pre + 1)); [lia | reflexivity].
Qed.

Lemma stdout_app (a b : list console_event) : stdout (a ++ b) = stdout a +++ stdout b.
Proof.
  induction a as [|e a IH]; cbn [app stdout]; [reflexivity|].
  destruct e; try exact IH. now rewrite IH, !append_assoc.
Qed.

Lemma stdout_chunks (chunks : list string) :
  stdout (map console_log chunks) =
  String.concat EmptyString (map (fun str => str +++ nl) chunks).
Proof.
  induction chunks as [|c chunks IH]; [reflexivity|].
  cbn [map stdout]. now rewrite IH, concat_cons, append_assoc.
Qed.

Section MainProperties.

Context {FS : Type} (H : Host FS).

Lemma forEach_emit (chunks : list string) (m : machine FS) :
  forEach (fun chunk => emit (console_log chunk)) chunks m =
  (Returns tt,
   {| disk := disk m; directory := directory m;
      console := console m ++ map console_log chunks |}).
Proof.
  revert m. induction chunks as [|c chunks IH]; intros m; cbn [forEach map].
  - unfold ret. rewrite app_nil_r. now destruct m.
  - unfold andThen, emit at 1. rewrite IH. cbn [disk directory console].
    now rewrite <- app_assoc.
Qed.

Lemma forEach_append (path : string) (chunks : list string) (m : machine FS) :
  forEach (fun chunk =>
             changing (fun d cwd => fs_appendFileSync H d cwd path (chunk +++ nl)))
          chunks m =
  (match fst (append_chunks H (directory m) path chunks (disk m)) with
   | None => Returns tt
   | Some e => Throws e
   end,
   {| disk := snd (append_chunks H (directory m) path chunks (disk m));
      directory := directory m; console := console m |}).
Proof.
  revert m. induction chunks as [|c chunks IH]; intros m; cbn [forEach append_chunks].
  - unfold ret. now destruct m.
  - unfold andThen, changing at 1.
    destruct (fs_appendFileSync H (disk m) (directory m) path (c +++ nl)) as [e|d].
    + now destruct m.
    + now rewrite IH.
Qed.

(** The steps of [flatten_with_log]: the project root, the change of
    directory, the files read and cleaned, the chunks passed to [log] in the
    project root, and the change back. *)
Lemma flatten_with_log_unfold (fuel : nat) (filePaths : list string)
    (log : string -> action (FS := FS) unit) (root : option string) (m : machine FS) :
  flatten_with_log H fuel filePaths log root m =
  match project_root (platform_of H (disk m)) {| cwd := directory m; logged := [] |} root with
  | Returns truffleRoot =>
      match process_chdir (platform_of H (disk m)) (directory m) truffleRoot with
      | inl e => (Throws e, m)
      | inr there =>
          let m' := {| disk := disk m; directory := there; console := console m |} in
          match (sortedFiles <-
                   getSortedFilePaths (platform_of H (disk m)) fuel there
                     (getFilePathsFromTruffleRoot (platform_of H (disk m)) (directory m)
                        filePaths truffleRoot)
                     truffleRoot ;;
                 printConcatenation (platform_of H (disk m)) there sortedFiles) with
          | Returns chunks =>
              andThen (forEach log chunks) (fun _ => chdir H (directory m)) m'
          | Throws e => (Throws e, m')
          | OutOfFuel => (OutOfFuel, m')
          end
      end
  | Throws e => (Throws e, m)
  | OutOfFuel => (OutOfFuel, m)
  end.
Proof.
  unfold flatten_with_log, project_root, andThen, reading, ret, throw, process_cwd.
  cbn [cwd logged disk directory console fst snd].
  destruct (truthy root && negb (fs_existsSync _ _ _)); [reflexivity|].
  destruct (truthy root).
  - unfold chdir at 1.
    destruct (process_chdir _ (directory m) _) as [e|there]; [reflexivity|].
    cbn [cwd logged disk directory console fst snd].
    destruct (getSortedFilePaths _ fuel _ _ _) as [sortedFiles|e|]; cbn [bind];
      try reflexivity.
  - destruct (getTruffleRoot _ _) as [truffleRoot|e|]; try reflexivity.
    unfold chdir at 1.
    destruct (process_chdir _ (directory m) _) as [e|there]; [reflexivity|].
    cbn [cwd logged disk directory console fst snd].
    destruct (getSortedFilePaths _ fuel _ _ _) as [sortedFiles|e|]; cbn [bind];
      try reflexivity.
Qed.

(** With the [log] that prints, [flatten_with_log] does what [flatten] does
    with a [log] that never throws, and prints the chunks that [flatten]
    logs. *)
Lemma flatten_with_log_prints (fuel : nat) (filePaths : list string)
    (root : option string) (m : machine FS) :
  let run := flatten (platform_of H (disk m)) fuel {| cwd := directory m; logged := [] |}
               filePaths never_throws root in
  flatten_with_log H fuel filePaths (fun chunk => emit (console_log chunk)) root m =
  (fst run,
   {| disk := disk m; directory := cwd (snd run);
      console := console m ++ map console_log (logged (snd run)) |}).
Proof.
  cbn zeta. rewrite flatten_with_log_unfold, flatten_unfold.
  cbn [cwd logged].
  destruct (project_root _ _ root) as [truffleRoot|e|]; cbn [fst snd cwd logged map];
    try (rewrite app_nil_r; now destruct m).
  destruct (process_chdir _ (directory m) truffleRoot) as [e|there];
    cbn [fst snd cwd logged map]; [rewrite app_nil_r; now destruct m|].
  destruct (bind _ _) as [chunks|e|]; cbn [fst snd cwd logged map];
    try (now rewrite app_nil_r).
  rewrite log_chunks_never_throws. cbn [app].
  unfold andThen. rewrite forEach_emit. cbn [disk directory console].
  unfold chdir. cbn [disk directory console].
  destruct (process_chdir _ there (directory m)) as [e|back]; reflexivity.
Qed.

(** Without the option, or with the option and no path, [main] runs
    [flatten] with the [log] that prints. *)
Lemma main_without_option (fuel : nat) (args : list string) (m : machine FS) :
  ~ In "--output" args ->
  main H fuel args m =
  match args with
  | [] => emit (console_error usage) m
  | _ :: _ => flatten_with_log H fuel args (fun chunk => emit (console_log chunk)) None m
  end.
Proof.
  intros Hnot. unfold main. rewrite (position_absent _ _ Hnot).
  unfold andThen at 1, ret at 1. now destruct args.
Qed.

Lemma main_with_option (fuel : nat) (pre : list string) (path : string)
    (post : list string) (m : machine FS) :
  ~ In "--output" pre -> path <> EmptyString ->
  main H fuel (pre ++ "--output" :: path :: post) m =
  andThen (prepare_output H path)
    (fun _ =>
       match pre ++ post with
       | [] => emit (console_error usage)
       | _ :: _ =>
           flatten_with_log H fuel (pre ++ post)
             (fun chunk =>
                changing (fun d cwd => fs_appendFileSync H d cwd path (chunk +++ nl)))
             None
       end) m.
Proof.
  intros Hnot Hpath. unfold main. rewrite (position_first _ pre _ Hnot).
  rewrite nth_error_after, filter_index_option. cbn [hd_error tl].
  assert (Htruthy : truthy (Some path) = true).
  { cbn [truthy]. apply negb_true_iff, String.eqb_neq. exact Hpath. }
  rewrite Htruthy. unfold andThen, ret.
  destruct (prepare_output H path m) as [[[]|e|] m1]; try reflexivity.
  destruct (pre ++ post); [reflexivity|].
  unfold main_log. now rewrite Htruthy.
Qed.

End MainProperties.

(** X15.  Called without [--output], the command prints what the exported
    function returns for the same files in the same directory: [main] ends
    as the function does, returning when it returns and throwing what it
    throws, with the files as before, the working directory where the
    function leaves it, and one [console.log] for each chunk the function
    has taken; when the function returns a text, that text is what [main]
    adds to the standard output. *)
Theorem main_prints_the_result {FS : Type} (H : Host FS)
    (fuel : nat) (args : list string) (m : machine FS) :
  ~ In "--output" args -> args <> [] ->
  let result := flattener (platform_of H (disk m)) fuel (directory m) args None in
  main H fuel args m =
    (match fst result with
     | Returns _ => Returns tt
     | Throws e => Throws e
     | OutOfFuel => OutOfFuel
     end,
     {| disk := disk m; directory := cwd (snd result);
        console := console m ++ map console_log (logged (snd result)) |})
  /\ (forall text,
        fst result = Returns text ->
        stdout (console (snd (main H fuel args m))) = stdout (console m) +++ text)
  /\ (forall e,
        fst result = Throws e ->
        logged (snd result) = [] ->
        main H fuel args m =
          (Throws e,
           {| disk := disk m; directory := cwd (snd result); console := console m |})).
Proof.
  intros Hnot Hargs result.
  assert (Hmain :
            main H fuel args m =
            (match fst result with
             | Returns _ => Returns tt
             | Throws e => Throws e
             | OutOfFuel => OutOfFuel
             end,
             {| disk := disk m; directory := cwd (snd result);
                console := console m ++ map console_log (logged (snd result)) |})).
  { subst result. unfold flattener.
    rewrite (main_without_option H fuel args m Hnot).
    destruct args as [|a args]; [congruence|].
    rewrite flatten_with_log_prints.
    destruct (flatten _ fuel _ (a :: args) never_throws None) as [[[]|e0|] st];
      reflexivity. }
  split; [exact Hmain|]. split.
  - intros text Htext. rewrite Hmain. cbn [snd console].
    rewrite stdout_app, stdout_chunks. f_equal.
    subst result. unfold flattener in *.
    destruct (flatten _ fuel _ args never_throws None) as [[[]|e0|] st];
      cbn [fst snd bind] in *; try discriminate.
    now injection Htext as <-.
  - intros e He Hnone. rewrite Hmain, He, Hnone. cbn [map]. now rewrite app_nil_r.
Qed.

Lemma main_prints_the_result_witness :
  main Disk.host 20 ["Token.sol"] Disk.in_contracts =
    (Returns tt,
     {| disk := Sample.project; directory := "/proj/contracts";
        console :=
          map console_log
            (logged (snd (flattener Sample.W 20 "/proj/contracts" ["Token.sol"] None))) |})
  /\ stdout (console (snd (main Disk.host 20 ["Token.sol"] Disk.in_contracts))) =
     Sample.V2 +++ nl +++ Sample.ABI +++ nl +++ nl
     +++ "// File: contracts/SafeMath.sol" +++ nl +++ "library SafeMath {}" +++ nl
     +++ "// File: contracts/Ownable.sol" +++ nl +++ "contract Ownable {}" +++ nl
     +++ "// File: contracts/Token.sol" +++ nl +++ "contract Token is Ownable {}" +++ nl.
Proof.
  assert (Hnot : ~ In "--output" ["Token.sol"]) by (intros [Heq|[]]; discriminate Heq).
  assert (Hargs : ["Token.sol"] <> []) by discriminate.
  destruct (main_prints_the_result Disk.host 20 ["Token.sol"] Disk.in_contracts Hnot Hargs)
    as (Hmain & Hreturns & _).
  split.
  - rewrite Hmain. vm_compute. reflexivity.
  - apply Hreturns. vm_compute. reflexivity.
Defined.

(** X16.  With [--output path], once the output is prepared, the chunks that
    [flatten] logs for the other arguments are appended to [path], each with
    a line feed, and nothing of them is printed.  The appends are made while
    the working directory is the project root, not the directory [main] was
    started in, where the output was prepared; if one of them fails, [main]
    throws what it threw and the working directory stays the project root;
    if none fails, [main] ends with the change back to the directory it was
    started in.  When [flatten] returns it has logged a chunk.  An error of
    [flatten] before the first chunk is thrown as it is, the file system as
    the preparation left it. *)
Theorem main_appends_in_the_root {FS : Type} (H : Host FS) (fuel : nat)
    (pre : list string) (path : string) (post : list string) (m m1 : machine FS) :
  ~ In "--output" pre -> path <> EmptyString -> pre ++ post <> [] ->
  prepare_output H path m = (Returns tt, m1) ->
  let P := platform_of H (disk m1) in
  let run := flatten P fuel {| cwd := directory m1; logged := [] |} (pre ++ post)
               never_throws None in
  (logged (snd run) <> [] ->
   exists truffleRoot there,
     getTruffleRoot P (directory m1) = Returns truffleRoot
     /\ process_chdir P (directory m1) truffleRoot = inr there
     /\ let appended := append_chunks H there path (logged (snd run)) (disk m1) in
        main H fuel (pre ++ "--output" :: path :: post) m =
        match fst appended with
        | None =>
            chdir H (directory m1)
              {| disk := snd appended; directory := there; console := console m1 |}
        | Some e =>
            (Throws e,
             {| disk := snd appended; directory := there; console := console m1 |})
        end)
  /\ (fst run = Returns tt -> logged (snd run) <> [])
  /\ (forall e,
        fst run = Throws e ->
        logged (snd run) = [] ->
        main H fuel (pre ++ "--output" :: path :: post) m =
        (Throws e, {| disk := disk m1; directory := cwd (snd run); console := console m1 |})).
Proof.
  intros Hnot Hpath Hfiles Hprepare P run. subst P run.
  assert (Hmain : main H fuel (pre ++ "--output" :: path :: post) m =
                  flatten_with_log H fuel (pre ++ post)
                    (fun chunk =>
                       changing (fun d cwd => fs_appendFileSync H d cwd path (chunk +++ nl)))
                    None m1).
  { rewrite (main_with_option H fuel pre path post m Hnot Hpath).
    unfold andThen at 1. rewrite Hprepare. now destruct (pre ++ post). }
  rewrite Hmain. clear Hmain.
  rewrite flatten_with_log_unfold, flatten_unfold.
  assert (Hroot : project_root (platform_of H (disk m1))
                    {| cwd := directory m1; logged := [] |} None =
                  getTruffleRoot (platform_of H (disk m1)) (directory m1)) by reflexivity.
  rewrite Hroot. cbn [cwd logged].
  destruct (getTruffleRoot _ _) as [truffleRoot|e0|]; cbn [fst snd cwd logged].
  2:{ split; [congruence|]. split; [discriminate|].
      intros e He _. injection He as ->. now destruct m1. }
  2:{ split; [congruence|]. split; discriminate. }
  destruct (process_chdir _ (directory m1) truffleRoot) as [e0|there] eqn:Hthere;
    cbn [fst snd cwd logged].
  { split; [congruence|]. split; [discriminate|].
    intros e He _. injection He as ->. now destruct m1. }
  destruct (bind _ _) as [chunks|e0|] eqn:Hchunks; cbn [fst snd cwd logged].
  2:{ split; [congruence|]. split; [discriminate|].
      intros e He _. now injection He as ->. }
  2:{ split; [congruence|]. split; discriminate. }
  rewrite log_chunks_never_throws. cbn [app].
  assert (Hsome : chunks <> []).
  { apply bind_returns in Hchunks as (files & _ & Hprint).
    apply printConcatenation_chunks in Hprint. rewrite Hprint.
    intros Hnil. apply app_eq_nil in Hnil as [_ Hnil].
    apply app_eq_nil in Hnil as [_ Hnil]. discriminate Hnil. }
  destruct (process_chdir (platform_of H (disk m1)) there (directory m1)) as [e1|back];
    cbn [fst snd cwd logged].
  all: split; [|split; [intros _; exact Hsome | intros e _ Hnone; congruence]].
  all: intros _; exists truffleRoot, there; split; [reflexivity|]; split; [exact Hthere|].
  all: cbn zeta; unfold andThen; rewrite forEach_append; cbn [disk directory console].
  all: destruct (fst (append_chunks H there path chunks (disk m1))); reflexivity.
Qed.

Lemma main_appends_in_the_root_witness :
  main Disk.host 20 ["Token.sol"; "--output"; "out/flat.sol"] Disk.in_contracts =
  (Throws (Thrown "Error: ENOENT: no such file or directory, open 'out/flat.sol'"),
   {| disk := Sample.project ++ [("/proj/contracts/out/", EmptyString)];
      directory := "/proj";
      console := [console_log ("output directory not found, creating directory tree "
                               +++ in_quotes "out")] |}).
Proof.
  assert (Hnot : ~ In "--output" ["Token.sol"]) by (intros [Heq|[]]; discriminate Heq).
  assert (Hpath : "out/flat.sol" <> EmptyString) by discriminate.
  assert (Hfiles : ["Token.sol"] ++ [] <> []) by discriminate.
  assert (Hprepare :
            prepare_output Disk.host "out/flat.sol" Disk.in_contracts =
            (Returns tt,
             {| disk := Sample.project ++ [("/proj/contracts/out/", EmptyString)];
                directory := "/proj/contracts";
                console := [console_log ("output directory not found, creating directory tree "
                                         +++ in_quotes "out")] |}))
    by (vm_compute; reflexivity).
  destruct (main_appends_in_the_root Disk.host 20 ["Token.sol"] "out/flat.sol" []
              Disk.in_contracts _ Hnot Hpath Hfiles Hprepare) as [Hchunks _].
  destruct Hchunks as (truffleRoot & there & Hroot & Hthere & Hmain);
    [vm_compute; discriminate|].
  vm_compute in Hroot. injection Hroot as <-.
  vm_compute in Hthere. injection Hthere as <-.
  cbn [app] in Hmain. rewrite Hmain. vm_compute. reflexivity.
Defined.

(** X17.  An [--output] that is the last argument, or that is followed by
    the empty string, is ignored with a warning: [main] then does what it
    does for the other arguments. *)
Theorem output_without_path_ignored {FS : Type} (H : Host FS) (fuel : nat)
    (pre post : list string) (m : machine FS) :
  ~ In "--output" pre ->
  let warned :=
    {| disk := disk m; directory := directory m;
       console := console m ++ [console_warn missing_output_warning] |} in
  main H fuel (pre ++ ["--output"]) m = main H fuel pre warned
  /\ (~ In "--output" post ->
      main H fuel (pre ++ "--output" :: EmptyString :: post) m =
      main H fuel (pre ++ post) warned).
Proof.
  intros Hnot warned. split.
  - rewrite (main_without_option H fuel pre warned Hnot).
    unfold main. rewrite (position_first _ pre _ Hnot).
    rewrite nth_error_after, filter_index_option. cbn [hd_error tl truthy].
    rewrite app_nil_r. unfold andThen, ret, emit at 1. fold warned.
    now destruct pre.
  - intros Hpost.
    assert (Hboth : ~ In "--output" (pre ++ post)).
    { intros Hin. apply in_app_or in Hin as [Hin|Hin]; tauto. }
    rewrite (main_without_option H fuel (pre ++ post) warned Hboth).
    unfold main. rewrite (position_first _ pre _ Hnot).
    rewrite nth_error_after, filter_index_option. cbn [hd_error tl].
    unfold andThen, ret, emit at 1. fold warned.
    now destruct (pre ++ post).
Qed.

Lemma output_without_path_ignored_witness :
  main Disk.host 20 (["Token.sol"] ++ ["--output"]) Disk.in_contracts =
  main Disk.host 20 ["Token.sol"]
    {| disk := Sample.project; directory := "/proj/contracts";
       console := [console_warn missing_output_warning] |}
  /\ (~ In "--output" ["Lone.sol"] ->
      main Disk.host 20 (["Token.sol"] ++ "--output" :: EmptyString :: ["Lone.sol"])
        Disk.in_contracts =
      main Disk.host 20 (["Token.sol"] ++ ["Lone.sol"])
        {| disk := Sample.project; directory := "/proj/contracts";
           console := [console_warn missing_output_warning] |}).
Proof.
  apply (output_without_path_ignored Disk.host 20 ["Token.sol"] ["Lone.sol"]
           Disk.in_contracts).
  intros [Heq|[]]; discriminate Heq.
Defined.

(** X18.  With the option and its path as the only arguments nothing is
    flattened and the usage is printed, but the output has been prepared
    before: an output file that is there is removed. *)
Theorem option_alone_removes_the_file {FS : Type} (H : Host FS) (fuel : nat)
    (path : string) (m : machine FS) (dir_stats file_stats : Stats.t) (d : FS) :
  let P := platform_of H (disk m) in
  path <> EmptyString ->
  fs_existsSync P (directory m) (path_dirname H path) = true ->
  fs_lstatSync H (disk m) (directory m) (path_dirname H path) = inr dir_stats ->
  Stats.isDirectory dir_stats = true ->
  fs_existsSync P (directory m) path = true ->
  fs_lstatSync H (disk m) (directory m) path = inr file_stats ->
  Stats.isFile file_stats = true ->
  fs_unlinkSync H (disk m) (directory m) path = inr d ->
  main H fuel ["--output"; path] m =
  (Returns tt,
   {| disk := d; directory := directory m;
      console := console m
                 ++ [console_log ("output file already exists, removing file "
                                  +++ in_quotes path);
                     console_error usage] |}).
Proof.
  intros P Hpath Hdir Hdstat Hisdir Hfile Hfstat Hisfile Hunlink. subst P.
  assert (Hnot : ~ In "--output" []) by (intros []).
  change ["--output"; path] with ([] ++ "--output" :: path :: []).
  rewrite (main_with_option H fuel [] path [] m Hnot Hpath).
  unfold prepare_output, reading, inspecting, ret, emit, changing, andThen.
  cbn [disk directory console app].
  rewrite Hdir, Hdstat. cbn [lift]. rewrite Hisdir, Hfile, Hfstat. cbn [lift].
  rewrite Hisfile. cbn [disk directory console]. rewrite Hunlink.
  cbn [disk directory console]. now rewrite <- app_assoc.
Qed.

Lemma option_alone_removes_the_file_witness :
  main Disk.host 20 ["--output"; "Token.sol"] Disk.in_contracts =
  (Returns tt,
   {| disk := filter (fun f => negb (String.eqb (fst f) "/proj/contracts/Token.sol"))
                Sample.project;
      directory := "/proj/contracts";
      console := [console_log ("output file already exists, removing file "
                               +++ in_quotes "Token.sol");
                  console_error usage] |}).
Proof.
  apply (option_alone_removes_the_file Disk.host 20 "Token.sol" Disk.in_contracts
           {| Stats.isDirectory := true; Stats.isFile := false |}
           {| Stats.isDirectory := false; Stats.isFile := true |});
    first [discriminate | vm_compute; reflexivity].
Defined.
